(** * Automata: NFA combinators, subset construction, tokenizers and
      sequence validators of Final.cpp and chessNot.cpp

    The two translation units carry the same automaton engine.  The parts
    that are textually identical in both files (State, NFAPtr, DFAState,
    createState, concatenate, unionNFA, kleeneStar, oneOrMore,
    epsilonClosure, getAlphabet, collectAlphabet, convertToDFA) are
    embedded once; the parts that differ live in [Module Final] and
    [Module Chess].

    Modelling conventions.
    - [char] is [ascii]; comparisons and [c++] on a [char] use its value as
      a signed 8-bit integer ([char_val]), as on the x86-64 ABI.
    - [std::string] is [list ascii]; [s[i]] is list lookup.
    - A [shared_ptr<State>] is the index of the state in the builder's
      [states] vector (every State is created by [createState], which
      pushes it there), and a [shared_ptr<DFAState>] is the index in the
      [dfaStates] vector of [convertToDFA].
    - [std::set<T>] is [gset T] and [std::map<K,V>] is [gmap K V]; a
      range-for over a [set<char>] visits it in increasing signed order
      ([chars_in_order]); over a set of pointers in the order of
      [elements] (address order is not fixed by the program).
    - Loop indices into a string or a vector are [nat]: no input
      considered here is 2^31 characters long.  The [int] fields that the
      program stores and prints (a token's position, the expected move
      number) are [Z].
    - Loops whose termination is not structural take a [fuel] argument and
      return [None] when it runs out. *)

From Stdlib Require Import ZArith Ascii String.
From stdpp Require Import base option list gmap sets fin_sets strings sorting.

Set Warnings "-clear-no-such-hyp".
Local Open Scope Z_scope.
Local Open Scope nat_scope.

(** ** Characters *)

Definition char_val (c : ascii) : Z :=
  let n := Z.of_N (N_of_ascii c) in
  if (n <? 128)%Z then n else (n - 256)%Z.

Definition char_of_val (z : Z) : ascii := ascii_of_N (Z.to_N (z mod 256)).

(** [(char)(c + 1)]: the increment is done in [int] and converted back. *)
Definition char_succ (z : Z) : Z := char_val (char_of_val (z + 1)).

(** The key ['\0'] under which a State stores its epsilon successors. *)
Definition epsilon : ascii := "000"%char.

Definition char_le (a b : ascii) : Prop := (char_val a <= char_val b)%Z.

Global Instance char_le_dec a b : Decision (char_le a b).
Proof. unfold char_le. apply _. Defined.

(** Iteration order of a [std::set<char>]. *)
Definition chars_in_order (s : gset ascii) : list ascii :=
  merge_sort char_le (elements s).

(** [isspace] in the "C" locale; the argument is a plain [char]. *)
Definition isspace (c : ascii) : bool :=
  let v := char_val c in
  ((9 <=? v) && (v <=? 13))%Z || (v =? 32)%Z.

(** [s.substr(pos, len)] for [pos <= s.length()]. *)
Definition substr (s : list ascii) (pos len : nat) : list ascii :=
  take len (drop pos s).

Definition str (s : string) : list ascii := list_ascii_of_string s.

(** ** NFA and DFA structures *)

Record State := mkState {
  id : nat;
  transitions : gmap ascii (list nat);
  isFinal : bool
}.

Record NFAPtr := mkNFAPtr { start : nat; end_ : nat }.

Record DFAState := mkDFAState {
  dfa_id : nat;
  nfaStates : gset nat;
  dfa_transitions : gmap ascii nat;
  dfa_isFinal : bool
}.

(** What a [shared_ptr<DFAState>] gives access to: the DFA states allocated
    by one run of [convertToDFA], and the index of the start state. *)
Record DFA := mkDFA { dfaStates : list DFAState; startDFA : nat }.

(** ** The builder: [states] and [stateCounter] *)

Record Builder := mkBuilder { states : list State; stateCounter : nat }.

Definition newBuilder : Builder := mkBuilder [] 0.

(** Result of a member function that may throw ([std::invalid_argument]
    with its [what()] text) or loop forever. *)
Inductive outcome (A : Type) : Type :=
  | Ok (a : A)
  | Throw (what : string)
  | Hang.
Arguments Ok {A} a.
Arguments Throw {A} what.
Arguments Hang {A}.

(** Builder operations: the mutations made before a [throw] persist. *)
Definition M (A : Type) : Type := Builder → Builder * outcome A.

Global Instance M_ret : MRet M := λ A a b, (b, Ok a).
Global Instance M_bind : MBind M := λ A B f m b,
  match m b with
  | (b', Ok a) => f a b'
  | (b', Throw w) => (b', Throw w)
  | (b', Hang) => (b', Hang)
  end.

Definition lift_outcome {A} (o : outcome A) : M A := λ b, (b, o).

Definition createState : M nat := λ b,
  (mkBuilder (states b ++ [mkState (stateCounter b) ∅ false]) (S (stateCounter b)),
   Ok (length (states b))).

(** [p->transitions[c].push_back(q)] *)
Definition push_transition (c : ascii) (q : nat) (st : State) : State :=
  mkState (id st)
          (<[c := default [] (transitions st !! c) ++ [q]]> (transitions st))
          (isFinal st).

Definition add_transition (p : nat) (c : ascii) (q : nat) : M unit := λ b,
  (mkBuilder (alter (push_transition c q) p (states b)) (stateCounter b), Ok ()).

(** [p->isFinal = v] *)
Definition set_isFinal (p : nat) (v : bool) : M unit := λ b,
  (mkBuilder (alter (λ st, mkState (id st) (transitions st) v) p (states b))
             (stateCounter b), Ok ()).

(** ** Combinators shared by both files *)

Definition concatenate (a b : NFAPtr) : M NFAPtr :=
  add_transition (end_ a) epsilon (start b);;
  set_isFinal (end_ a) false;;
  mret (mkNFAPtr (start a) (end_ b)).

Definition unionNFA (a b : NFAPtr) : M NFAPtr :=
  s ← createState;
  e ← createState;
  add_transition s epsilon (start a);;
  add_transition s epsilon (start b);;
  add_transition (end_ a) epsilon e;;
  add_transition (end_ b) epsilon e;;
  set_isFinal (end_ a) false;;
  set_isFinal (end_ b) false;;
  set_isFinal e true;;
  mret (mkNFAPtr s e).

Definition kleeneStar (a : NFAPtr) : M NFAPtr :=
  s ← createState;
  e ← createState;
  add_transition s epsilon (start a);;
  add_transition s epsilon e;;
  add_transition (end_ a) epsilon (start a);;
  add_transition (end_ a) epsilon e;;
  set_isFinal (end_ a) false;;
  set_isFinal e true;;
  mret (mkNFAPtr s e).

Definition oneOrMore (a : NFAPtr) : M NFAPtr :=
  star ← kleeneStar a;
  concatenate a star.

(** ** Epsilon closure *)

(** [p->transitions[c]] when [p->transitions.count(c)], else nothing.  An
    index outside the vector has no State behind it and no transitions. *)
Definition targets (h : list State) (p : nat) (c : ascii) : list nat :=
  match h !! p with
  | Some st => default [] (transitions st !! c)
  | None => []
  end.

Definition closure_visit (acc : list nat * gset nat) (nextState : nat)
  : list nat * gset nat :=
  if decide (nextState ∈ acc.2) then acc
  else (nextState :: acc.1, {[nextState]} ∪ acc.2).

Definition closure_seed (acc : list nat * gset nat) (state : nat)
  : list nat * gset nat :=
  (state :: acc.1, {[state]} ∪ acc.2).

(** The [while (!stack.empty())] loop. *)
Fixpoint closure_loop (fuel : nat) (h : list State)
    (stack : list nat) (closure : gset nat) : option (gset nat) :=
  match stack with
  | [] => Some closure
  | current :: stack =>
    match fuel with
    | 0 => None
    | S fuel =>
      let acc := foldl closure_visit (stack, closure) (targets h current epsilon) in
      closure_loop fuel h acc.1 acc.2
    end
  end.

Definition epsilonClosure (fuel : nat) (h : list State)
    (sts : gset nat) (closure : gset nat) : option (gset nat) :=
  let acc := foldl closure_seed ([], closure) (elements sts) in
  closure_loop fuel h acc.1 acc.2.

(** ** Alphabet *)

(** Iteration order of a [std::map<char, V>]. *)
Definition map_in_order {V} (m : gmap ascii V) : list (ascii * V) :=
  merge_sort (λ x y, char_le x.1 y.1) (map_to_list m).

Definition note_symbol (symbol : ascii) (alphabet : gset ascii) : gset ascii :=
  if decide (symbol ≠ epsilon) then {[symbol]} ∪ alphabet else alphabet.

Fixpoint collectAlphabet (fuel : nat) (h : list State) (state : nat)
    (acc : gset ascii * gset nat) : option (gset ascii * gset nat) :=
  match fuel with
  | 0 => None
  | S fuel =>
    match h !! state with
    | None => Some acc
    | Some st =>
      if decide (id st ∈ acc.2) then Some acc
      else
        foldl (λ oacc (transition : ascii * list nat),
                 acc ← oacc;
                 foldl (λ oacc nextState,
                          acc ← oacc; collectAlphabet fuel h nextState acc)
                       (Some (note_symbol transition.1 acc.1, acc.2))
                       transition.2)
              (Some (acc.1, {[id st]} ∪ acc.2))
              (map_in_order (transitions st))
    end
  end.

Definition getAlphabet (fuel : nat) (h : list State) (nfa : NFAPtr)
  : option (gset ascii) :=
  acc ← collectAlphabet fuel h (start nfa) (∅, ∅);
  Some acc.1.

(** ** Subset construction *)

(** [nextNFAStates]: the successors on [c] of every member of a subset. *)
Definition move (h : list State) (S : gset nat) (c : ascii) : gset nat :=
  foldl (λ next nfaState,
           foldl (λ next nextState, {[nextState]} ∪ next) next (targets h nfaState c))
        ∅ (elements S).

(** [for (auto state : closure) if (state->isFinal) { ... = true; break; }] *)
Definition any_final (h : list State) (S : gset nat) : bool :=
  existsb (λ p, from_option isFinal false (h !! p)) (elements S).

(** The locals of [convertToDFA] that the work loop updates. *)
Record Work := mkWork {
  dfaStateMap : gmap (gset nat) nat;
  w_dfaStates : list DFAState;
  dfaStateCounter : nat;
  unprocessed : list nat
}.

Definition nfaStates_of (w : Work) (p : nat) : gset nat :=
  from_option nfaStates ∅ (w_dfaStates w !! p).

Definition set_dfa_transition (c : ascii) (target : nat) (d : DFAState) : DFAState :=
  mkDFAState (dfa_id d) (nfaStates d) (<[c := target]> (dfa_transitions d)) (dfa_isFinal d).

(** Body of [for (char c : alphabet)] for the state [currentDFA]. *)
Definition process_symbol (n : nat) (h : list State) (currentDFA : nat)
    (ow : option Work) (c : ascii) : option Work :=
  w ← ow;
  if decide (c = epsilon) then Some w
  else
    let nextNFAStates := move h (nfaStates_of w currentDFA) c in
    if decide (nextNFAStates = ∅) then Some w
    else
      nextClosure ← epsilonClosure n h nextNFAStates ∅;
      let '(w, target) :=
        match dfaStateMap w !! nextClosure with
        | Some known => (w, known)
        | None =>
          let newDFA := length (w_dfaStates w) in
          (mkWork (<[nextClosure := newDFA]> (dfaStateMap w))
                  (w_dfaStates w ++
                     [mkDFAState (dfaStateCounter w) nextClosure ∅
                                 (any_final h nextClosure)])
                  (S (dfaStateCounter w))
                  (newDFA :: unprocessed w),
           newDFA)
        end in
      Some (mkWork (dfaStateMap w)
                   (alter (set_dfa_transition c target) currentDFA (w_dfaStates w))
                   (dfaStateCounter w) (unprocessed w)).

(** The [while (!unprocessed.empty())] loop; [n] is the fuel handed to each
    [epsilonClosure] call. *)
Fixpoint subset_loop (fuel n : nat) (h : list State) (alphabet : list ascii)
    (w : Work) : option Work :=
  match unprocessed w with
  | [] => Some w
  | currentDFA :: rest =>
    match fuel with
    | 0 => None
    | S fuel =>
      w ← foldl (process_symbol n h currentDFA)
                (Some (mkWork (dfaStateMap w) (w_dfaStates w) (dfaStateCounter w) rest))
                alphabet;
      subset_loop fuel n h alphabet w
    end
  end.

Definition convertToDFA (fuel : nat) (b : Builder) (nfa : NFAPtr) : option DFA :=
  let h := states b in
  alphabet ← getAlphabet fuel h nfa;
  startClosure ← epsilonClosure fuel h {[start nfa]} ∅;
  let startDFA := mkDFAState 0 startClosure ∅ (any_final h startClosure) in
  w ← subset_loop fuel fuel h (chars_in_order alphabet)
                  (mkWork {[startClosure := 0]} [startDFA] 1 [0]);
  Some (mkDFA (w_dfaStates w) 0).

(** ** Character classes: the scan shared by both [parseCharacterClass] *)

(** [for (char c = start; c <= end; c++) validChars.insert(c);] on signed
    8-bit values.  The loop does not end when [end] is [CHAR_MAX]; 257
    rounds are more than any ending run needs. *)
Fixpoint range_loop (fuel : nat) (c endc : Z) (validChars : gset ascii)
  : option (gset ascii) :=
  match fuel with
  | 0 => None
  | S fuel =>
    if (c <=? endc)%Z
    then range_loop fuel (char_succ c) endc ({[char_of_val c]} ∪ validChars)
    else Some validChars
  end.

(** The [while (i < content.length())] loop, on the part of [content] from
    index [i] on.  [i + 2 < content.length() && content[i + 1] == '-']
    holds when two more characters follow and the first is a dash. *)
Fixpoint parse_content (content : list ascii) (validChars : gset ascii)
  : outcome (gset ascii) :=
  match content with
  | [] => Ok validChars
  | x :: rest =>
    match rest with
    | dash :: y :: rest' =>
      if decide (dash = "-"%char) then
        if decide (char_val x > char_val y)%Z then Throw "Invalid character range"
        else
          match range_loop 257 (char_val x) (char_val y) validChars with
          | Some validChars => parse_content rest' validChars
          | None => Hang
          end
      else parse_content rest ({[x]} ∪ validChars)
    | _ => parse_content rest ({[x]} ∪ validChars)
    end
  end.

(** [charClass.empty() || charClass[0] != '[' || charClass.back() != ']'] *)
Definition bad_format (charClass : list ascii) : bool :=
  bool_decide (charClass = [] ∨ head charClass ≠ Some "["%char
               ∨ last charClass ≠ Some "]"%char).

Definition class_content (charClass : list ascii) : list ascii :=
  substr charClass 1 (length charClass - 2).

(** The [for (char c : validChars) start->transitions[c].push_back(end);]
    loop of both [createCharClassNFA]. *)
Definition add_class_transitions (s e : nat) (validChars : gset ascii) : M unit :=
  foldl (λ (m : M unit) c, m;; add_transition s c e) (mret ())
        (chars_in_order validChars).

(** * Final.cpp *)
Module Final.

Definition createCharNFA (c : ascii) : M NFAPtr :=
  s ← createState;
  e ← createState;
  add_transition s c e;;
  mret (mkNFAPtr s e).

Definition parseCharacterClass (charClass : list ascii) (validChars : gset ascii)
  : outcome (gset ascii) :=
  if bad_format charClass then Throw "Invalid character class format"
  else parse_content (class_content charClass) validChars.

Definition createCharClassNFA (charClass : list ascii) : M NFAPtr :=
  s ← createState;
  e ← createState;
  validChars ← lift_outcome (parseCharacterClass charClass ∅);
  add_class_transitions s e validChars;;
  mret (mkNFAPtr s e).

Definition zeroOrOne (a : NFAPtr) : M NFAPtr :=
  s ← createState;
  e ← createState;
  add_transition s epsilon (start a);;
  add_transition s epsilon e;;
  add_transition (end_ a) epsilon e;;
  set_isFinal (end_ a) false;;
  set_isFinal e true;;
  mret (mkNFAPtr s e).

Definition createIdentifierNFA : M NFAPtr :=
  firstChar ← createCharClassNFA (str "[a-zA-Z_]");
  subsequentChars ← createCharClassNFA (str "[a-zA-Z0-9_]");
  zeroOrMoreSubsequent ← kleeneStar subsequentChars;
  concatenate firstChar zeroOrMoreSubsequent.

Definition createNumberNFA : M NFAPtr :=
  integerPart ← createCharClassNFA (str "[0-9]");
  oneOrMoreDigits ← oneOrMore integerPart;
  dot ← createCharNFA "."%char;
  decimalDigits ← createCharClassNFA (str "[0-9]");
  oneOrMoreDecimal ← oneOrMore decimalDigits;
  decimalPart ← concatenate dot oneOrMoreDecimal;
  optionalDecimal ← zeroOrOne decimalPart;
  concatenate oneOrMoreDigits optionalDecimal.

(** ** Tokens and the lexer *)

Inductive TokenType :=
  | IDENTIFIER | NUMBER | OPERATOR | LPAREN | RPAREN | ASSIGN
  | END_OF_INPUT | INVALID.

Global Instance TokenType_eq_dec : EqDecision TokenType.
Proof. solve_decision. Defined.

Record Token := mkToken {
  type : TokenType;
  value : list ascii;
  position : Z
}.

(** The data members of [Lexer]; [builder] holds [states] and
    [stateCounter]. *)
Record Lexer := mkLexer {
  identifierDFA : DFA;
  numberDFA : DFA;
  singleCharTokens : gmap ascii TokenType;
  builder : Builder
}.

Definition initializeSingleCharTokens : gmap ascii TokenType :=
  <[")"%char := RPAREN]> (<["("%char := LPAREN]> (<["="%char := ASSIGN]>
  (<["/"%char := OPERATOR]> (<["*"%char := OPERATOR]>
  (<["-"%char := OPERATOR]> (<["+"%char := OPERATOR]> ∅)))))).

(** The constructor: [initializeTokenDFAs] then
    [initializeSingleCharTokens].  [None] when a pattern throws or the
    fuel does not suffice. *)
Definition new_Lexer (fuel : nat) : option Lexer :=
  match createIdentifierNFA newBuilder with
  | (b, Ok identifierNFA) =>
    identifierDFA ← convertToDFA fuel b identifierNFA;
    match createNumberNFA b with
    | (b, Ok numberNFA) =>
      numberDFA ← convertToDFA fuel b numberNFA;
      Some (mkLexer identifierDFA numberDFA initializeSingleCharTokens b)
    | _ => None
    end
  | _ => None
  end.

(** The loop of [tryMatchDFA].  [rest] is [input] from index [pos] on, so
    [pos < input.length()] reads [rest ≠ []] and [input[pos]] is its head.
    The result is [(lastAcceptPos, matchedValue)]. *)
Fixpoint tryMatch_loop (G : list DFAState) (input : list ascii) (startPos : nat)
    (rest : list ascii) (currentState pos : nat)
    (lastAcceptPos : Z) (matchedValue : list ascii) : Z * list ascii :=
  match rest with
  | [] => (lastAcceptPos, matchedValue)
  | c :: rest =>
    match G !! currentState ≫= λ d, dfa_transitions d !! c with
    | None => (lastAcceptPos, matchedValue)
    | Some currentState =>
      let pos := S pos in
      if from_option dfa_isFinal false (G !! currentState)
      then tryMatch_loop G input startPos rest currentState pos
                         (Z.of_nat pos) (substr input startPos (pos - startPos))
      else tryMatch_loop G input startPos rest currentState pos
                         lastAcceptPos matchedValue
    end
  end.

Definition tryMatchDFA (dfa : DFA) (input : list ascii) (startPos : nat)
    (type : TokenType) : Token :=
  let r := tryMatch_loop (dfaStates dfa) input startPos (drop startPos input)
                         (startDFA dfa) startPos (-1) [] in
  if decide (r.1 ≠ (-1)%Z) then mkToken type r.2 (Z.of_nat startPos)
  else mkToken INVALID [] (Z.of_nat startPos).

Definition getNextToken (lx : Lexer) (input : list ascii) (startPos : nat) : Token :=
  let firstChar := default epsilon (input !! startPos) in
  match singleCharTokens lx !! firstChar with
  | Some t => mkToken t [firstChar] (Z.of_nat startPos)
  | None =>
    let identifierToken := tryMatchDFA (identifierDFA lx) input startPos IDENTIFIER in
    if decide (type identifierToken ≠ INVALID) then identifierToken
    else
      let numberToken := tryMatchDFA (numberDFA lx) input startPos NUMBER in
      if decide (type numberToken ≠ INVALID) then numberToken
      else mkToken INVALID [firstChar] (Z.of_nat startPos)
  end.

(** The [while (pos < length)] loop of [tokenize]; returns [tokens] and
    the final [pos]. *)
Fixpoint tokenize_loop (fuel : nat) (lx : Lexer) (input : list ascii)
    (pos : nat) (tokens : list Token) : option (list Token * nat) :=
  if decide (pos < length input) then
    match fuel with
    | 0 => None
    | S fuel =>
      if isspace (default epsilon (input !! pos))
      then tokenize_loop fuel lx input (S pos) tokens
      else
        let token := getNextToken lx input pos in
        tokenize_loop fuel lx input (pos + length (value token)) (tokens ++ [token])
    end
  else Some (tokens, pos).

Definition tokenize (fuel : nat) (lx : Lexer) (input : list ascii)
  : option (list Token) :=
  r ← tokenize_loop fuel lx input 0 [];
  Some (r.1 ++ [mkToken END_OF_INPUT [] (Z.of_nat r.2)]).

(** ** The expression PDA *)

Inductive PDAState :=
  | START | EXPECT_ASSIGNMENT | AFTER_ASSIGNMENT | EXPECT_EXPR
  | IN_EXPR | AFTER_OPERATOR | ACCEPT | REJECT.

Global Instance PDAState_eq_dec : EqDecision PDAState.
Proof. solve_decision. Defined.

(** The locals of [parse] together with the member [stackVar] (top of the
    stack first). *)
Record Config := mkConfig {
  currentState : PDAState;
  stackVar : list string;
  tokenIndex : nat
}.

(** What [parse] writes to [cout]: one row per loop round (the columns of
    [displayState] and the action text), the loop-guard line, and the
    closing result line. *)
Inductive Out :=
  | Row (state : PDAState) (stackTop : string) (token : Token) (action : string)
  | InfiniteLoopDetected
  | SyntaxResult (valid : bool).

Definition push (x : string) (cfg : Config) : Config :=
  mkConfig (currentState cfg) (x :: stackVar cfg) (tokenIndex cfg).
Definition pop (cfg : Config) : Config :=
  mkConfig (currentState cfg) (tail (stackVar cfg)) (tokenIndex cfg).
Definition goto (s : PDAState) (cfg : Config) : Config :=
  mkConfig s (stackVar cfg) (tokenIndex cfg).
Definition consume (cfg : Config) : Config :=
  mkConfig (currentState cfg) (stackVar cfg) (S (tokenIndex cfg)).

Definition token_at (tokens : list Token) (i : nat) : Token :=
  default (mkToken END_OF_INPUT [] (-1)) (tokens !! i).

(** The [switch (currentState)] of one loop round: the next configuration
    and the action text. *)
Definition step (tokens : list Token) (cfg : Config) : Config * string :=
  let currentToken := token_at tokens (tokenIndex cfg) in
  let stackTop := default ""%string (head (stackVar cfg)) in
  match currentState cfg with
  | START =>
    if decide (type currentToken = IDENTIFIER) then
      if decide (tokenIndex cfg + 1 < length tokens
                 ∧ type (token_at tokens (tokenIndex cfg + 1)) = ASSIGN)
      then (consume (goto EXPECT_ASSIGNMENT cfg),
            "goto EXPECT_ASSIGNMENT, consume identifier"%string)
      else (goto EXPECT_EXPR (push "E" cfg), "Push E, goto EXPECT_EXPR"%string)
    else if decide (type currentToken = NUMBER ∨ type currentToken = LPAREN)
    then (goto EXPECT_EXPR (push "E" cfg), "Push E, goto EXPECT_EXPR"%string)
    else (goto REJECT cfg, "REJECT: Expected identifier, number, or '('"%string)
  | EXPECT_ASSIGNMENT =>
    if decide (type currentToken = ASSIGN)
    then (consume (goto AFTER_ASSIGNMENT cfg), "goto AFTER_ASSIGNMENT, consume '='"%string)
    else (goto REJECT cfg, "REJECT: Expected '=' after identifier"%string)
  | AFTER_ASSIGNMENT =>
    (goto EXPECT_EXPR (push "E" cfg), "Push E, goto EXPECT_EXPR"%string)
  | EXPECT_EXPR =>
    if decide (type currentToken = IDENTIFIER ∨ type currentToken = NUMBER)
    then (consume (goto IN_EXPR (pop cfg)), "Pop E, goto IN_EXPR, consume token"%string)
    else if decide (type currentToken = LPAREN)
    then (consume (goto EXPECT_EXPR (push "E" (push ")" (pop cfg)))),
          "Pop E, push ') E', goto EXPECT_EXPR, consume '('"%string)
    else (goto REJECT cfg, "REJECT: Expected expression after '='"%string)
  | IN_EXPR =>
    if decide (type currentToken = OPERATOR)
    then (consume (goto AFTER_OPERATOR (push "E" cfg)),
          "Push E, goto AFTER_OPERATOR, consume operator"%string)
    else if decide (type currentToken = RPAREN ∧ stackTop = ")"%string)
    then (consume (goto IN_EXPR (pop cfg)), "Pop ')', goto IN_EXPR, consume ')'"%string)
    else if decide (type currentToken = END_OF_INPUT ∧ stackTop = "$"%string)
    then (goto ACCEPT (pop cfg), "Pop '$', ACCEPT"%string)
    else if decide (type currentToken = END_OF_INPUT)
    then (goto REJECT cfg,
          "REJECT: Unmatched parentheses or incomplete expression"%string)
    else (goto REJECT cfg, "REJECT: Unexpected token in expression"%string)
  | AFTER_OPERATOR =>
    if decide (type currentToken = IDENTIFIER ∨ type currentToken = NUMBER)
    then (consume (goto IN_EXPR (pop cfg)), "Pop E, goto IN_EXPR, consume token"%string)
    else if decide (type currentToken = LPAREN)
    then (consume (goto EXPECT_EXPR (push "E" (push ")" (pop cfg)))),
          "Pop E, push ') E', goto EXPECT_EXPR, consume '('"%string)
    else (goto REJECT cfg, "REJECT: Expected expression after operator"%string)
  | _ => (goto REJECT cfg, "REJECT: Invalid state"%string)
  end.

Definition halted (cfg : Config) : bool :=
  bool_decide (currentState cfg = ACCEPT ∨ currentState cfg = REJECT).

(** The [while] loop of [parse], started in any configuration; the result
    is the returned [bool] and the text written. *)
Fixpoint parse_loop (fuel : nat) (tokens : list Token) (cfg : Config)
    (out : list Out) : option (bool * list Out) :=
  if halted cfg then
    let result := bool_decide (currentState cfg = ACCEPT) in
    Some (result, out ++ [SyntaxResult result])
  else
    match fuel with
    | 0 => None
    | S fuel =>
      let row := Row (currentState cfg) (default ""%string (head (stackVar cfg)))
                     (token_at tokens (tokenIndex cfg)) in
      let r := step tokens cfg in
      if decide (length tokens + 5 < tokenIndex r.1)
      then Some (false, out ++ [row r.2; InfiniteLoopDetected])
      else parse_loop fuel tokens r.1 (out ++ [row r.2])
    end.

Definition parse (fuel : nat) (tokens : list Token) : option (bool * list Out) :=
  parse_loop fuel tokens (mkConfig START ["$"%string] 0) [].

End Final.

(** * chessNot.cpp: the NFA builder *)
Module Chess.

Definition createCharNFA (c : ascii) : M NFAPtr :=
  s ← createState;
  e ← createState;
  add_transition s c e;;
  set_isFinal e true;;
  mret (mkNFAPtr s e).

(** A malformed class is reported on [cerr] and the function returns. *)
Definition parseCharacterClass (charClass : list ascii) (validChars : gset ascii)
  : outcome (gset ascii) :=
  if bad_format charClass then Ok validChars
  else parse_content (class_content charClass) validChars.

Definition createCharClassNFA (charClass : list ascii) : M NFAPtr :=
  s ← createState;
  e ← createState;
  validChars ← lift_outcome (parseCharacterClass charClass ∅);
  add_class_transitions s e validChars;;
  set_isFinal e true;;
  mret (mkNFAPtr s e).

Definition createMoveNumberNFA : M NFAPtr :=
  digit ← createCharClassNFA (str "[0-9]");
  oneOrMoreDigits ← oneOrMore digit;
  dot ← createCharNFA "."%char;
  concatenate oneOrMoreDigits dot.

Definition createPawnMoveNFA : M NFAPtr :=
  alphabet ← createCharClassNFA (str "[a-h]");
  number ← createCharClassNFA (str "[1-8]");
  concatenate alphabet number.

Definition createPieceMoveNFA : M NFAPtr :=
  alphabet ← createCharClassNFA (str "[a-h]");
  number ← createCharClassNFA (str "[1-8]");
  square ← concatenate alphabet number;
  piece ← createCharClassNFA (str "[KQRBN]");
  concatenate piece square.

Definition createTwinPieceMoveNFA : M NFAPtr :=
  alphabet ← createCharClassNFA (str "[a-h]");
  number ← createCharClassNFA (str "[1-8]");
  square ← concatenate alphabet number;
  file ← createCharClassNFA (str "[a-h]");
  rank ← createCharClassNFA (str "[1-8]");
  fileOrRank ← unionNFA file rank;
  piece ← createCharClassNFA (str "[QRBN]");
  pieceWithFileOrRank ← concatenate piece fileOrRank;
  concatenate pieceWithFileOrRank square.

Definition createPawnCaptureNFA : M NFAPtr :=
  alphabet ← createCharClassNFA (str "[a-h]");
  number ← createCharClassNFA (str "[1-8]");
  square ← concatenate alphabet number;
  pawn ← createCharClassNFA (str "[a-h]");
  capture ← createCharNFA "x"%char;
  captureSquare ← concatenate capture square;
  concatenate pawn captureSquare.

Definition createPieceCaptureNFA : M NFAPtr :=
  alphabet ← createCharClassNFA (str "[a-h]");
  number ← createCharClassNFA (str "[1-8]");
  square ← concatenate alphabet number;
  piece ← createCharClassNFA (str "[KQRBN]");
  capture ← createCharNFA "x"%char;
  captureSquare ← concatenate capture square;
  concatenate piece captureSquare.

Definition createTwinPieceCaptureNFA : M NFAPtr :=
  alphabet ← createCharClassNFA (str "[a-h]");
  number ← createCharClassNFA (str "[1-8]");
  square ← concatenate alphabet number;
  file ← createCharClassNFA (str "[a-h]");
  rank ← createCharClassNFA (str "[1-8]");
  fileOrRank ← unionNFA file rank;
  piece ← createCharClassNFA (str "[QRBN]");
  pieceWithFileOrRank ← concatenate piece fileOrRank;
  capture ← createCharNFA "x"%char;
  captureSquare ← concatenate capture square;
  concatenate pieceWithFileOrRank captureSquare.

Definition createCastlingNFA : M NFAPtr :=
  o1 ← createCharNFA "O"%char;
  dash1 ← createCharNFA "-"%char;
  o2 ← createCharNFA "O"%char;
  k1 ← concatenate dash1 o2;
  kingside ← concatenate o1 k1;
  o3 ← createCharNFA "O"%char;
  dash2 ← createCharNFA "-"%char;
  o4 ← createCharNFA "O"%char;
  dash3 ← createCharNFA "-"%char;
  o5 ← createCharNFA "O"%char;
  q1 ← concatenate dash3 o5;
  q2 ← concatenate o4 q1;
  q3 ← concatenate dash2 q2;
  queenside ← concatenate o3 q3;
  unionNFA kingside queenside.

Definition createPromotionNFA : M NFAPtr :=
  alphabet ← createCharClassNFA (str "[a-h]");
  number ← createCharClassNFA (str "[1-8]");
  pawn ← concatenate alphabet number;
  promote ← createCharNFA "="%char;
  pieceToPromote ← createCharClassNFA (str "[QRBN]");
  p1 ← concatenate promote pieceToPromote;
  concatenate pawn p1.

Definition createPromotionViaCaptureNFA : M NFAPtr :=
  alphabet ← createCharClassNFA (str "[a-h]");
  number ← createCharClassNFA (str "[1-8]");
  sqaure ← concatenate alphabet number;
  pawn ← createCharClassNFA (str "[a-h]");
  capture ← createCharNFA "x"%char;
  promote ← createCharNFA "="%char;
  pieceToPromote ← createCharClassNFA (str "[QRBN]");
  p1 ← concatenate promote pieceToPromote;
  p2 ← concatenate sqaure p1;
  p3 ← concatenate capture p2;
  concatenate pawn p3.

(** The operands of a call are built here from left to right; C++ leaves
    their order open, which changes state numbers only. *)
Definition createBaseMovesNFA : M NFAPtr :=
  m1 ← createPawnMoveNFA;
  m2 ← createPieceMoveNFA;
  m3 ← createTwinPieceMoveNFA;
  m4 ← createPawnCaptureNFA;
  m5 ← createPieceCaptureNFA;
  m6 ← createTwinPieceCaptureNFA;
  m7 ← createCastlingNFA;
  m8 ← createPromotionNFA;
  m9 ← createPromotionViaCaptureNFA;
  u8 ← unionNFA m8 m9;
  u7 ← unionNFA m7 u8;
  u6 ← unionNFA m6 u7;
  u5 ← unionNFA m5 u6;
  u4 ← unionNFA m4 u5;
  u3 ← unionNFA m3 u4;
  u2 ← unionNFA m2 u3;
  unionNFA m1 u2.

Definition createCheckNFA : M NFAPtr :=
  moves ← createBaseMovesNFA;
  check ← createCharNFA "+"%char;
  concatenate moves check.

Definition createCheckmateNFA : M NFAPtr :=
  moves ← createBaseMovesNFA;
  checkmate ← createCharNFA "#"%char;
  concatenate moves checkmate.

Definition createResultNFA : M NFAPtr :=
  zero1 ← createCharNFA "0"%char;
  one1 ← createCharNFA "1"%char;
  dash1 ← createCharNFA "-"%char;
  w1 ← concatenate dash1 zero1;
  whiteWins ← concatenate one1 w1;
  zero2 ← createCharNFA "0"%char;
  one2 ← createCharNFA "1"%char;
  dash2 ← createCharNFA "-"%char;
  b1 ← concatenate dash2 one2;
  blackWins ← concatenate zero2 b1;
  simpleResults ← unionNFA whiteWins blackWins;
  half1 ← createCharNFA "1"%char;
  slash1 ← createCharNFA "/"%char;
  two1 ← createCharNFA "2"%char;
  dash3 ← createCharNFA "-"%char;
  half2 ← createCharNFA "1"%char;
  slash2 ← createCharNFA "/"%char;
  two2 ← createCharNFA "2"%char;
  d1 ← concatenate slash2 two2;
  d2 ← concatenate half2 d1;
  d3 ← concatenate dash3 d2;
  d4 ← concatenate two1 d3;
  d5 ← concatenate slash1 d4;
  draw ← concatenate half1 d5;
  unionNFA simpleResults draw.

(** ** Tokens and the lexer *)

Inductive ChessTokenType :=
  | MOVE_NUMBER | PAWN_MOVE | PIECE_MOVE | TWIN_PIECE_MOVE
  | PAWN_CAPTURE | PIECE_CAPTURE | TWIN_PIECE_CAPTURE | CASTLING
  | PROMOTION | PROMOTION_VIA_CAPTURE | CHECK | CHECKMATE | RESULT
  | END_OF_INPUT | INVALID.

Global Instance ChessTokenType_eq_dec : EqDecision ChessTokenType.
Proof. solve_decision. Defined.

Record ChessToken := mkChessToken {
  type : ChessTokenType;
  value : list ascii;
  position : Z
}.

Record ChessLexer := mkChessLexer {
  moveNumberDFA : DFA;
  pawnMoveDFA : DFA;
  pieceMoveDFA : DFA;
  twinPieceMoveDFA : DFA;
  pawnCaptureDFA : DFA;
  pieceCaptureDFA : DFA;
  twinPieceCaptureDFA : DFA;
  castlingDFA : DFA;
  promotionDFA : DFA;
  promotionViaCaptureDFA : DFA;
  checkDFA : DFA;
  checkmateDFA : DFA;
  resultDFA : DFA
}.

(** [nfaBuilder.convertToDFA(nfaBuilder.createXNFA())] on the one
    [nfaBuilder] of [initializeTokenDFAs]. *)
Definition compile (fuel : nat) (create : M NFAPtr) (nfaBuilder : Builder)
  : option (Builder * DFA) :=
  match create nfaBuilder with
  | (nfaBuilder, Ok nfa) =>
    dfa ← convertToDFA fuel nfaBuilder nfa;
    Some (nfaBuilder, dfa)
  | _ => None
  end.

(** The constructor, that is [initializeTokenDFAs]. *)
Definition new_ChessLexer (fuel : nat) : option ChessLexer :=
  r1 ← compile fuel createMoveNumberNFA newBuilder;
  r2 ← compile fuel createPawnMoveNFA r1.1;
  r3 ← compile fuel createPieceMoveNFA r2.1;
  r4 ← compile fuel createTwinPieceMoveNFA r3.1;
  r5 ← compile fuel createPawnCaptureNFA r4.1;
  r6 ← compile fuel createPieceCaptureNFA r5.1;
  r7 ← compile fuel createTwinPieceCaptureNFA r6.1;
  r8 ← compile fuel createCastlingNFA r7.1;
  r9 ← compile fuel createPromotionNFA r8.1;
  r10 ← compile fuel createPromotionViaCaptureNFA r9.1;
  r11 ← compile fuel createCheckNFA r10.1;
  r12 ← compile fuel createCheckmateNFA r11.1;
  r13 ← compile fuel createResultNFA r12.1;
  Some (mkChessLexer r1.2 r2.2 r3.2 r4.2 r5.2 r6.2 r7.2 r8.2 r9.2 r10.2
                     r11.2 r12.2 r13.2).

(** The loop of [tryMatchDFA].  [rest] is [input] from index [pos] on.
    The result is [(lastAcceptPos, matchedValue)]. *)
Fixpoint tryMatch_loop (G : list DFAState) (input : list ascii) (startPos : nat)
    (rest : list ascii) (currentState pos : nat)
    (lastAcceptPos : Z) (matchedValue : list ascii) : Z * list ascii :=
  match rest with
  | [] => (lastAcceptPos, matchedValue)
  | c :: rest =>
    match G !! currentState ≫= λ d, dfa_transitions d !! c with
    | None => (lastAcceptPos, matchedValue)
    | Some currentState =>
      let pos := S pos in
      let currentMatch := substr input startPos (pos - startPos) in
      if from_option dfa_isFinal false (G !! currentState)
      then tryMatch_loop G input startPos rest currentState pos
                         (Z.of_nat pos) currentMatch
      else tryMatch_loop G input startPos rest currentState pos
                         lastAcceptPos matchedValue
    end
  end.

(** Returns the [bool] and the final content of the reference parameter
    [matchedValue]. *)
Definition tryMatchDFA (dfa : DFA) (input : list ascii) (startPos : nat)
    (matchedValue : list ascii) : bool * list ascii :=
  let r := tryMatch_loop (dfaStates dfa) input startPos (drop startPos input)
                         (startDFA dfa) startPos (-1) matchedValue in
  (bool_decide (r.1 ≠ (-1)%Z), r.2).

Definition testDFAPattern (dfa : DFA) (input : list ascii) (startPos : nat)
    (type : ChessTokenType) (candidates : list (ChessTokenType * list ascii))
  : list (ChessTokenType * list ascii) :=
  let r := tryMatchDFA dfa input startPos [] in
  if r.1 then candidates ++ [(type, r.2)] else candidates.

(** [longest = candidates[0]; for (candidate : candidates) if (longer) ...] *)
Definition pick_longest (candidates : list (ChessTokenType * list ascii))
    (first : ChessTokenType * list ascii) : ChessTokenType * list ascii :=
  foldl (λ longest candidate,
           if decide (length longest.2 < length candidate.2) then candidate
           else longest)
        first candidates.

(** The thirteen [testDFAPattern] calls, in the order of the source. *)
Definition all_candidates (lx : ChessLexer) (input : list ascii) (startPos : nat)
  : list (ChessTokenType * list ascii) :=
  let candidates := [] in
  let candidates := testDFAPattern (moveNumberDFA lx) input startPos MOVE_NUMBER candidates in
  let candidates := testDFAPattern (resultDFA lx) input startPos RESULT candidates in
  let candidates := testDFAPattern (castlingDFA lx) input startPos CASTLING candidates in
  let candidates := testDFAPattern (pawnMoveDFA lx) input startPos PAWN_MOVE candidates in
  let candidates := testDFAPattern (pieceMoveDFA lx) input startPos PIECE_MOVE candidates in
  let candidates := testDFAPattern (pawnCaptureDFA lx) input startPos PAWN_CAPTURE candidates in
  let candidates := testDFAPattern (pieceCaptureDFA lx) input startPos PIECE_CAPTURE candidates in
  let candidates := testDFAPattern (promotionDFA lx) input startPos PROMOTION candidates in
  let candidates := testDFAPattern (twinPieceMoveDFA lx) input startPos TWIN_PIECE_MOVE candidates in
  let candidates := testDFAPattern (twinPieceCaptureDFA lx) input startPos TWIN_PIECE_CAPTURE candidates in
  let candidates := testDFAPattern (promotionViaCaptureDFA lx) input startPos PROMOTION_VIA_CAPTURE candidates in
  let candidates := testDFAPattern (checkmateDFA lx) input startPos CHECKMATE candidates in
  testDFAPattern (checkDFA lx) input startPos CHECK candidates.

Definition tryMatchLongest (lx : ChessLexer) (input : list ascii) (startPos : nat)
  : ChessToken :=
  let candidates := all_candidates lx input startPos in
  match candidates with
  | first :: _ =>
    let longest := pick_longest candidates first in
    mkChessToken longest.1 longest.2 (Z.of_nat startPos)
  | [] => mkChessToken INVALID [] (Z.of_nat startPos)
  end.

Definition getNextToken (lx : ChessLexer) (input : list ascii) (startPos : nat)
  : ChessToken :=
  let token := tryMatchLongest lx input startPos in
  if decide (type token ≠ INVALID) then token
  else mkChessToken INVALID [default epsilon (input !! startPos)] (Z.of_nat startPos).

(** The [while (pos < length)] loop of [tokenize]: [tokens],
    [hadLexicalError] and the final [pos].  The [LEXER ERROR] line written
    for an unrecognised character is left out. *)
Fixpoint tokenize_loop (fuel : nat) (lx : ChessLexer) (input : list ascii)
    (pos : nat) (tokens : list ChessToken) (hadLexicalError : bool)
  : option (list ChessToken * bool * nat) :=
  if decide (pos < length input) then
    match fuel with
    | 0 => None
    | S fuel =>
      if isspace (default epsilon (input !! pos))
      then tokenize_loop fuel lx input (S pos) tokens hadLexicalError
      else
        let token := getNextToken lx input pos in
        if decide (type token = INVALID)
        then tokenize_loop fuel lx input (S pos) tokens true
        else tokenize_loop fuel lx input (pos + length (value token))
                           (tokens ++ [token]) hadLexicalError
    end
  else Some (tokens, hadLexicalError, pos).

Definition tokenize (fuel : nat) (lx : ChessLexer) (input : list ascii)
  : option (list ChessToken * bool) :=
  r ← tokenize_loop fuel lx input 0 [] false;
  Some (r.1.1 ++ [mkChessToken END_OF_INPUT [] (Z.of_nat r.2)], r.1.2).

(** ** The move-sequence validator *)

Definition is_digit (c : ascii) : bool :=
  ((48 <=? char_val c) && (char_val c <=? 57))%Z.

Fixpoint skip_spaces (s : list ascii) : list ascii :=
  match s with
  | c :: s' => if isspace c then skip_spaces s' else s
  | [] => []
  end.

(** The digits at the front of [s]: their value and whether there were any. *)
Fixpoint read_digits (s : list ascii) (acc : Z) (seen : bool) : Z * bool :=
  match s with
  | c :: s' =>
    if is_digit c then read_digits s' (acc * 10 + (char_val c - 48))%Z true
    else (acc, seen)
  | [] => (acc, seen)
  end.

(** [std::stoi(s)]: leading white space, an optional sign, decimal digits.
    [None] stands for both exceptions, [invalid_argument] (no digits) and
    [out_of_range] (not an [int]). *)
Definition stoi (s : list ascii) : option Z :=
  let s := skip_spaces s in
  let signed :=
    match s with
    | c :: s' =>
      if decide (c = "-"%char) then (true, s')
      else if decide (c = "+"%char) then (false, s') else (false, s)
    | [] => (false, s)
    end in
  let r := read_digits signed.2 0 false in
  if r.2 then
    let v := if signed.1 then (- r.1)%Z else r.1 in
    if decide (-2147483648 ≤ v ≤ 2147483647)%Z then Some v else None
  else None.

Inductive MoveState :=
  | EXPECT_NUMBER | EXPECT_WHITE_MOVE | EXPECT_BLACK_MOVE | GAME_OVER.

Global Instance MoveState_eq_dec : EqDecision MoveState.
Proof. solve_decision. Defined.

Record ChessPDA := mkChessPDA {
  expectedMoveNumber : Z;
  currentState : MoveState
}.

Definition resetPDA : ChessPDA := mkChessPDA 1 EXPECT_NUMBER.

Definition isMoveToken (t : ChessTokenType) : bool :=
  bool_decide (t = PAWN_MOVE ∨ t = PIECE_MOVE ∨ t = TWIN_PIECE_MOVE
               ∨ t = PAWN_CAPTURE ∨ t = PIECE_CAPTURE ∨ t = TWIN_PIECE_CAPTURE
               ∨ t = CASTLING ∨ t = PROMOTION ∨ t = PROMOTION_VIA_CAPTURE
               ∨ t = CHECK ∨ t = CHECKMATE).

(** The lines [validateMoveSequence] writes to [cout], with the values
    they print. *)
Inductive SeqOut :=
  | TokensAfterTermination (value : list ascii)
      (* SEQUENCE ERROR: Tokens found after game termination *)
  | EndedAbruptly (turn : Z)
      (* SEQUENCE ERROR: Game ended abruptly. Expected White's move *)
  | HalfMoveWarning (turn : Z)
      (* SEQUENCE WARNING: ... Black's move is missing (Half-move) *)
  | UnexpectedMoveNumber (value : list ascii)
      (* SEQUENCE ERROR: Found MOVE_NUMBER but expected a move or result *)
  | ExpectedButFound (expected found : Z)
      (* SEQUENCE ERROR: Expected move number .. but found .. *)
  | CheckmateWithoutResult (value : list ascii)
      (* SEQUENCE ERROR: Checkmate must be followed immediately by a RESULT *)
  | UnexpectedMove (value : list ascii)
      (* SEQUENCE ERROR: Found an unexpected move *)
  | SuccessfullyParsed.
      (* PGN sequence successfully parsed. *)

(** The [for (size_t i = 0; i + 1 < tokens.size(); ++i)] loop, on the
    tokens from index [i] on: the body runs while a token follows
    [tokens[i]].  Leaving the loop ([break] or its end) reaches the
    closing [return true]. *)
Fixpoint validate_loop (tokens : list ChessToken) (pda : ChessPDA)
    (out : list SeqOut) : bool * list SeqOut :=
  match tokens with
  | token :: ((next :: _) as rest) =>
    if decide (currentState pda = GAME_OVER) then
      if decide (type token = END_OF_INPUT) then (true, out ++ [SuccessfullyParsed])
      else (false, out ++ [TokensAfterTermination (value token)])
    else if decide (type token = END_OF_INPUT) then
      if decide (currentState pda = EXPECT_WHITE_MOVE)
      then (false, out ++ [EndedAbruptly (expectedMoveNumber pda)])
      else if decide (currentState pda = EXPECT_BLACK_MOVE)
      then (true, out ++ [HalfMoveWarning (expectedMoveNumber pda); SuccessfullyParsed])
      else (true, out ++ [SuccessfullyParsed])
    else if decide (type token = RESULT) then
      validate_loop rest (mkChessPDA (expectedMoveNumber pda) GAME_OVER) out
    else if decide (type token = MOVE_NUMBER) then
      if decide (currentState pda ≠ EXPECT_NUMBER)
      then (false, out ++ [UnexpectedMoveNumber (value token)])
      else
        let numberStr := substr (value token) 0 (length (value token) - 1) in
        match stoi numberStr with
        | None => (false, out)
        | Some moveNumber =>
          if decide (moveNumber ≠ expectedMoveNumber pda)
          then (false, out ++ [ExpectedButFound (expectedMoveNumber pda) moveNumber])
          else validate_loop rest
                 (mkChessPDA (expectedMoveNumber pda + 1)%Z EXPECT_WHITE_MOVE) out
        end
    else if isMoveToken (type token) then
      if decide (type token = CHECKMATE ∧ type next ≠ RESULT)
      then (false, out ++ [CheckmateWithoutResult (value token)])
      else if decide (currentState pda = EXPECT_WHITE_MOVE)
      then validate_loop rest (mkChessPDA (expectedMoveNumber pda) EXPECT_BLACK_MOVE) out
      else if decide (currentState pda = EXPECT_BLACK_MOVE)
      then validate_loop rest (mkChessPDA (expectedMoveNumber pda) EXPECT_NUMBER) out
      else (false, out ++ [UnexpectedMove (value token)])
    else validate_loop rest pda out
  | _ => (true, out ++ [SuccessfullyParsed])
  end.

Definition validateMoveSequence (tokens : list ChessToken) : bool * list SeqOut :=
  validate_loop tokens resetPDA [].

End Chess.

(** * Acceptance, and the fragments a builder can hold *)

(** The NFA side of the equivalence, in the words of the specification:
    "the original NFA (simulated via the closure algorithm)".  A run keeps
    the set of current states, closed under epsilon moves by
    [epsilonClosure]; reading an ordinary character [c] takes the
    [c]-successors of the set and closes them.  The sentinel ['\0'] labels
    epsilon moves only, so no move reads it from the input. *)
Definition simulate_step (fuel : nat) (h : list State) (S : gset nat) (c : ascii)
  : option (gset nat) :=
  if decide (c = epsilon) then Some ∅
  else epsilonClosure fuel h (move h S c) ∅.

Fixpoint simulate_run (fuel : nat) (h : list State) (S : gset nat) (w : list ascii)
  : option (gset nat) :=
  match w with
  | [] => Some S
  | c :: w => S ← simulate_step fuel h S c; simulate_run fuel h S w
  end.

Definition simulateNFA (fuel : nat) (b : Builder) (nfa : NFAPtr) (w : list ascii)
  : option bool :=
  S ← epsilonClosure fuel (states b) {[start nfa]} ∅;
  S ← simulate_run fuel (states b) S w;
  Some (any_final (states b) S).

(** The DFA side: follow [transitions] from the start state, as the loop of
    [tryMatchDFA] does, and accept when the whole input was read and the
    state reached is final. *)
Fixpoint dfa_run (G : list DFAState) (p : nat) (w : list ascii) : option nat :=
  match w with
  | [] => Some p
  | c :: w =>
    p ← G !! p ≫= λ d, dfa_transitions d !! c;
    dfa_run G p w
  end.

Definition acceptsDFA (dfa : DFA) (w : list ascii) : bool :=
  match dfa_run (dfaStates dfa) (startDFA dfa) w with
  | Some p => from_option dfa_isFinal false (dfaStates dfa !! p)
  | None => false
  end.

(** Which file's leaf builders are meant. *)
Inductive source := FinalCpp | ChessNotCpp.

Definition createCharNFA_of (src : source) : ascii → M NFAPtr :=
  match src with
  | FinalCpp => Final.createCharNFA
  | ChessNotCpp => Chess.createCharNFA
  end.

Definition createCharClassNFA_of (src : source) : list ascii → M NFAPtr :=
  match src with
  | FinalCpp => Final.createCharClassNFA
  | ChessNotCpp => Chess.createCharClassNFA
  end.

(** [Built src b fs]: the builder [b] is what a fresh builder becomes after
    some sequence of combinator calls, and [fs] are the fragments those
    calls returned.  A combinator takes its operands among the fragments
    returned so far; a class that throws leaves its two states behind and
    returns nothing. *)
Inductive Built (src : source) : Builder → list NFAPtr → Prop :=
  | Built_new : Built src newBuilder []
  | Built_char b fs c b' f :
      Built src b fs →
      createCharNFA_of src c b = (b', Ok f) →
      Built src b' (f :: fs)
  | Built_class b fs cls b' f :
      Built src b fs →
      createCharClassNFA_of src cls b = (b', Ok f) →
      Built src b' (f :: fs)
  | Built_class_throw b fs cls b' what :
      Built src b fs →
      createCharClassNFA_of src cls b = (b', Throw what) →
      Built src b' fs
  | Built_concatenate b fs x y b' f :
      Built src b fs → x ∈ fs → y ∈ fs →
      concatenate x y b = (b', Ok f) →
      Built src b' (f :: fs)
  | Built_unionNFA b fs x y b' f :
      Built src b fs → x ∈ fs → y ∈ fs →
      unionNFA x y b = (b', Ok f) →
      Built src b' (f :: fs)
  | Built_kleeneStar b fs x b' f :
      Built src b fs → x ∈ fs →
      kleeneStar x b = (b', Ok f) →
      Built src b' (f :: fs)
  | Built_oneOrMore b fs x b' f :
      Built src b fs → x ∈ fs →
      oneOrMore x b = (b', Ok f) →
      Built src b' (f :: fs)
  | Built_zeroOrOne b fs x b' f :
      src = FinalCpp →
      Built src b fs → x ∈ fs →
      Final.zeroOrOne x b = (b', Ok f) →
      Built src b' (f :: fs).

(** The shape every builder keeps: the state at index [i] carries id [i],
    the counter is the number of states, and every successor is a state of
    the vector. *)
Definition wf_heap (h : list State) : Prop :=
  ∀ i st, h !! i = Some st →
    id st = i ∧ ∀ c q, q ∈ default [] (transitions st !! c) → q < length h.

Definition wf_builder (b : Builder) : Prop :=
  stateCounter b = length (states b) ∧ wf_heap (states b).

(** [okb ps b]: [b] is well formed and the pointers [ps] are states of it. *)
Definition okb (ps : list nat) (b : Builder) : Prop :=
  wf_builder b ∧ ∀ p, p ∈ ps → p < length (states b).

(** Partial-correctness triples for builder operations; [E] is what holds
    when the operation throws. *)
Definition hoare {A} (P : Builder → Prop) (m : M A)
    (Q : A → Builder → Prop) (E : Builder → Prop) : Prop :=
  ∀ b, P b →
    match m b with
    | (b', Ok a) => Q a b'
    | (b', Throw _) => E b'
    | (_, Hang) => True
    end.

(** The state numbers a heap of [n] states can hold, and every set of them. *)
Definition universe (n : nat) : gset nat := list_to_set (seq 0 n).

Fixpoint subsets (l : list nat) : list (gset nat) :=
  match l with
  | [] => [∅]
  | x :: l => subsets l ++ ((λ s, {[x]} ∪ s) <$> subsets l)
  end.

Definition all_subsets (n : nat) : gset (gset nat) := list_to_set (subsets (seq 0 n)).

(** States reachable from [p] along transitions of any label. *)
Inductive reachable (h : list State) (p : nat) : nat → Prop :=
  | reachable_refl : reachable h p p
  | reachable_step q c r :
      reachable h p q → r ∈ targets h q c → reachable h p r.

(** ** Invariants of the traversals *)

(** [covered h acc v]: the traversal has entered every successor of [v] and
    noted every ordinary symbol that labels a transition of [v]. *)
Definition covered (h : list State) (acc : gset ascii * gset nat) (v : nat) : Prop :=
  ∀ c q, q ∈ targets h v c → q ∈ acc.2 ∧ (c ≠ epsilon → c ∈ acc.1).

(** What one call of [collectAlphabet] adds to [(alphabet, visited)]: both
    sets grow, and each state the call has newly visited is covered. *)
Definition dfs_post (h : list State) (acc acc' : gset ascii * gset nat) : Prop :=
  acc.1 ⊆ acc'.1 ∧ acc.2 ⊆ acc'.2
  ∧ ∀ v, v ∈ acc'.2 → v ∉ acc.2 → covered h acc' v.

(** The invariant of the work loop of [convertToDFA], for the NFA heap [h],
    closure fuel [n], alphabet [al] and fragment start [s0].  While the
    symbols of [currentDFA = cur] are being processed, [done] lists those
    already handled. *)
Record subset_inv (h : list State) (n : nat) (al : list ascii) (s0 : nat)
    (cur : nat) (done : list ascii) (w : Work) : Prop := mkSubsetInv {
  inv_map : ∀ K i,
    dfaStateMap w !! K = Some i ↔
    ∃ d, w_dfaStates w !! i = Some d ∧ nfaStates d = K;
  inv_final : ∀ i d,
    w_dfaStates w !! i = Some d → dfa_isFinal d = any_final h (nfaStates d);
  inv_trans : ∀ i d c j,
    w_dfaStates w !! i = Some d → dfa_transitions d !! c = Some j →
    c ≠ epsilon ∧ move h (nfaStates d) c ≠ ∅ ∧
    ∃ d', w_dfaStates w !! j = Some d' ∧
          epsilonClosure n h (move h (nfaStates d) c) ∅ = Some (nfaStates d');
  inv_complete : ∀ i d,
    w_dfaStates w !! i = Some d →
    i ∈ unprocessed w ∨
    ∀ c, c ∈ al → c ≠ epsilon → move h (nfaStates d) c ≠ ∅ →
         (i = cur → c ∈ done) → is_Some (dfa_transitions d !! c);
  inv_states : ∀ i d,
    w_dfaStates w !! i = Some d →
    ∀ q, q ∈ nfaStates d → q < length h ∧ reachable h s0 q;
  inv_pending : ∀ i, i ∈ unprocessed w → i < length (w_dfaStates w)
}.

(** The work left: subsets not yet in the memo map, plus the stack. *)
Definition subset_measure (h : list State) (w : Work) : nat :=
  size (all_subsets (length h) ∖ dom (dfaStateMap w)) + length (unprocessed w).

(** ** The token classes of the notation lexer, and the PDA's progress *)

(** The DFAs that [tryMatchLongest] tries, with their token types, in the
    order of its [testDFAPattern] calls. *)
Definition chess_patterns (lx : Chess.ChessLexer)
  : list (DFA * Chess.ChessTokenType) :=
  [ (Chess.moveNumberDFA lx, Chess.MOVE_NUMBER);
    (Chess.resultDFA lx, Chess.RESULT);
    (Chess.castlingDFA lx, Chess.CASTLING);
    (Chess.pawnMoveDFA lx, Chess.PAWN_MOVE);
    (Chess.pieceMoveDFA lx, Chess.PIECE_MOVE);
    (Chess.pawnCaptureDFA lx, Chess.PAWN_CAPTURE);
    (Chess.pieceCaptureDFA lx, Chess.PIECE_CAPTURE);
    (Chess.promotionDFA lx, Chess.PROMOTION);
    (Chess.twinPieceMoveDFA lx, Chess.TWIN_PIECE_MOVE);
    (Chess.twinPieceCaptureDFA lx, Chess.TWIN_PIECE_CAPTURE);
    (Chess.promotionViaCaptureDFA lx, Chess.PROMOTION_VIA_CAPTURE);
    (Chess.checkmateDFA lx, Chess.CHECKMATE);
    (Chess.checkDFA lx, Chess.CHECK) ].

(** What one [testDFAPattern] call contributes: the class and the text it
    matched at [startPos], if its DFA reached a final state. *)
Definition chess_candidate (input : list ascii) (startPos : nat)
    (p : DFA * Chess.ChessTokenType) : option (Chess.ChessTokenType * list ascii) :=
  let r := Chess.tryMatchDFA p.1 input startPos [] in
  if r.1 then Some (p.2, r.2) else None.

(** A bound on the loop rounds [PDA::parse] still has to make: a round
    either consumes a token or moves to a state of lower rank. *)
Definition pda_rank (s : Final.PDAState) : nat :=
  match s with
  | Final.START | Final.AFTER_ASSIGNMENT => 2
  | Final.ACCEPT | Final.REJECT => 0
  | _ => 1
  end.

Definition pda_measure (tokens : list Final.Token) (cfg : Final.Config) : nat :=
  3 * (length tokens - Final.tokenIndex cfg) + pda_rank (Final.currentState cfg).

(** The transitions of a DFA's start state: the characters a match of that
    DFA can begin with. *)
Definition start_transitions (dfa : DFA) : gmap ascii nat :=
  from_option dfa_transitions ∅ (dfaStates dfa !! startDFA dfa).

(** No key of [m1] is a key of [m2]. *)
Definition disjoint_keys {A B} (m1 : gmap ascii A) (m2 : gmap ascii B) : bool :=
  forallb (λ kv, match m2 !! kv.1 with None => true | Some _ => false end)
          (map_to_list m1).

(** * Reference notions for the remaining properties *)

(** Acceptance by a DFA graph from the state [p]: the whole word is read
    along [transitions] and the state reached is final. *)
Definition accepts_from (G : list DFAState) (p : nat) (w : list ascii) : bool :=
  match dfa_run G p w with
  | Some q => from_option dfa_isFinal false (G !! q)
  | None => false
  end.

(** States reachable from [p] by epsilon moves alone. *)
Inductive eps_reach (h : list State) (p : nat) : nat → Prop :=
  | eps_reach_refl : eps_reach h p p
  | eps_reach_step q r :
      eps_reach h p q → r ∈ targets h q epsilon → eps_reach h p r.

(** [nfa_path h p w r]: a path of the NFA from [p] to [r] that reads [w];
    epsilon edges read nothing, and an edge labelled with an ordinary
    character reads that character. *)
Inductive nfa_path (h : list State) : nat → list ascii → nat → Prop :=
  | nfa_path_nil p : nfa_path h p [] p
  | nfa_path_eps p q r w :
      q ∈ targets h p epsilon → nfa_path h q w r → nfa_path h p w r
  | nfa_path_sym p c q r w :
      c ≠ epsilon → q ∈ targets h p c → nfa_path h q w r →
      nfa_path h p (c :: w) r.

(** The language of a fragment, by paths: some path from its start state
    reads the word and ends in a state marked final. *)
Definition nfa_accepts (b : Builder) (nfa : NFAPtr) (w : list ascii) : Prop :=
  ∃ r st, nfa_path (states b) (start nfa) w r
          ∧ states b !! r = Some st ∧ isFinal st = true.

(** A small builder used to instantiate the general statements: the
    fragment of [a*] in chessNot.cpp, four states with epsilon edges. *)
Definition star_example : Builder * outcome NFAPtr :=
  (a ← Chess.createCharNFA "a"; kleeneStar a) newBuilder.

(** ** The expression grammar and the runs of the PDA *)

(** The expressions over token types: an identifier or a number, an
    expression in parentheses, two expressions around an operator. *)
Inductive expr : list Final.TokenType → Prop :=
  | expr_atom t :
      t = Final.IDENTIFIER ∨ t = Final.NUMBER → expr [t]
  | expr_paren e :
      expr e → expr (Final.LPAREN :: e ++ [Final.RPAREN])
  | expr_binop e1 e2 :
      expr e1 → expr e2 → expr (e1 ++ Final.OPERATOR :: e2).

(** An input line: an expression, or an assignment of one to an
    identifier. *)
Definition statement (ts : list Final.TokenType) : Prop :=
  expr ts ∨ ∃ e, expr e ∧ ts = Final.IDENTIFIER :: Final.ASSIGN :: e.

(** [pda_reaches tokens c c']: the loop of [PDA::parse] goes from the
    configuration [c] to [c'] in some number of rounds, none of which trips
    the loop guard. *)
Inductive pda_reaches (tokens : list Final.Token)
  : Final.Config → Final.Config → Prop :=
  | pda_reaches_refl c : pda_reaches tokens c c
  | pda_reaches_step c c' :
      Final.halted c = false →
      Final.tokenIndex (Final.step tokens c).1 ≤ length tokens + 5 →
      pda_reaches tokens (Final.step tokens c).1 c' →
      pda_reaches tokens c c'.

(** The stack of the PDA under [k] open parentheses. *)
Definition paren_stack (k : nat) : list string :=
  replicate k ")"%string ++ ["$"%string].

(** The shape of the stack in each state, [k] parentheses being open. *)
Definition pda_inv (cfg : Final.Config) (k : nat) : Prop :=
  match Final.currentState cfg with
  | Final.START | Final.EXPECT_ASSIGNMENT | Final.AFTER_ASSIGNMENT =>
    k = 0 ∧ Final.stackVar cfg = ["$"%string]
  | Final.EXPECT_EXPR | Final.AFTER_OPERATOR =>
    Final.stackVar cfg = "E"%string :: paren_stack k
  | Final.IN_EXPR => Final.stackVar cfg = paren_stack k
  | Final.ACCEPT | Final.REJECT => True
  end.

(** What the PDA still accepts, read off its transitions: [pda_ok true k l]
    when an operand is due ([EXPECT_EXPR], [AFTER_OPERATOR]) and
    [pda_ok false k l] after an operand ([IN_EXPR]), with [k] parentheses
    open and [l] the types of the tokens not yet consumed.  Past the end of
    the vector the current token counts as [END_OF_INPUT]. *)
Inductive pda_ok : bool → nat → list Final.TokenType → Prop :=
  | pda_ok_end l : head l = Some Final.END_OF_INPUT ∨ l = [] → pda_ok false 0 l
  | pda_ok_close k l : pda_ok false k l → pda_ok false (S k) (Final.RPAREN :: l)
  | pda_ok_operator k l : pda_ok true k l → pda_ok false k (Final.OPERATOR :: l)
  | pda_ok_atom k t l :
      t = Final.IDENTIFIER ∨ t = Final.NUMBER →
      pda_ok false k l → pda_ok true k (t :: l)
  | pda_ok_open k l : pda_ok true (S k) l → pda_ok true k (Final.LPAREN :: l).

(** A partly read operand list: nothing yet, or an expression and the
    operator after it. *)
Definition framep (pre : list Final.TokenType) : Prop :=
  pre = [] ∨ ∃ e, expr e ∧ pre = e ++ [Final.OPERATOR].

(** The text read so far, from the partly read lists of the enclosing
    parentheses (innermost first) and the text [e] read inside the
    innermost one. *)
Fixpoint consumed (fs : list (list Final.TokenType)) (e : list Final.TokenType)
  : list Final.TokenType :=
  match fs with
  | [] => e
  | pre :: fs => consumed fs (pre ++ Final.LPAREN :: e)
  end.

(** What an accepting run from [cfg] says about the token types [tys] not
    yet consumed. *)
Definition pda_accepting (tys : list Final.TokenType) (cfg : Final.Config)
    (k : nat) : Prop :=
  let l := drop (Final.tokenIndex cfg) tys in
  match Final.currentState cfg with
  | Final.START =>
    pda_ok true 0 l
    ∨ ∃ l', l = Final.IDENTIFIER :: Final.ASSIGN :: l' ∧ pda_ok true 0 l'
  | Final.EXPECT_ASSIGNMENT => ∃ l', l = Final.ASSIGN :: l' ∧ pda_ok true 0 l'
  | Final.AFTER_ASSIGNMENT => pda_ok true 0 l
  | Final.EXPECT_EXPR | Final.AFTER_OPERATOR => pda_ok true k l
  | Final.IN_EXPR => pda_ok false k l
  | Final.ACCEPT => True
  | Final.REJECT => False
  end.

(** The transitions of [PDA::parse] as a table: the configuration after one
    round, from the state, the type of the current token, whether an
    [ASSIGN] token follows it, the stack and the token index. *)
Definition pda_table (st : Final.PDAState) (ty : Final.TokenType)
    (assignFollows : bool) (stk : list string) (idx : nat) : Final.Config :=
  let reject := Final.mkConfig Final.REJECT stk idx in
  let operand :=
    match ty with
    | Final.IDENTIFIER | Final.NUMBER =>
      Final.mkConfig Final.IN_EXPR (tail stk) (S idx)
    | Final.LPAREN =>
      Final.mkConfig Final.EXPECT_EXPR
                     ("E"%string :: ")"%string :: tail stk) (S idx)
    | _ => reject
    end in
  match st with
  | Final.START =>
    match ty with
    | Final.IDENTIFIER =>
      if assignFollows
      then Final.mkConfig Final.EXPECT_ASSIGNMENT stk (S idx)
      else Final.mkConfig Final.EXPECT_EXPR ("E"%string :: stk) idx
    | Final.NUMBER | Final.LPAREN =>
      Final.mkConfig Final.EXPECT_EXPR ("E"%string :: stk) idx
    | _ => reject
    end
  | Final.EXPECT_ASSIGNMENT =>
    match ty with
    | Final.ASSIGN => Final.mkConfig Final.AFTER_ASSIGNMENT stk (S idx)
    | _ => reject
    end
  | Final.AFTER_ASSIGNMENT =>
    Final.mkConfig Final.EXPECT_EXPR ("E"%string :: stk) idx
  | Final.EXPECT_EXPR | Final.AFTER_OPERATOR => operand
  | Final.IN_EXPR =>
    match ty with
    | Final.OPERATOR =>
      Final.mkConfig Final.AFTER_OPERATOR ("E"%string :: stk) (S idx)
    | Final.RPAREN =>
      if decide (head stk = Some ")"%string)
      then Final.mkConfig Final.IN_EXPR (tail stk) (S idx) else reject
    | Final.END_OF_INPUT =>
      if decide (head stk = Some "$"%string)
      then Final.mkConfig Final.ACCEPT (tail stk) idx else reject
    | _ => reject
    end
  | _ => reject
  end.

(** The tokens of ["7+"], an incomplete expression. *)
Definition tokens_incomplete : list Final.Token :=
  [Final.mkToken Final.NUMBER (str "7") 0;
   Final.mkToken Final.OPERATOR (str "+") 1;
   Final.mkToken Final.END_OF_INPUT [] 2].

(** The stack symbol a row of the parse trace may show in each state. *)
Definition row_top_ok (o : Final.Out) : Prop :=
  match o with
  | Final.Row s top _ _ =>
    match s with
    | Final.START | Final.EXPECT_ASSIGNMENT | Final.AFTER_ASSIGNMENT =>
      top = "$"%string
    | Final.EXPECT_EXPR | Final.AFTER_OPERATOR => top = "E"%string
    | Final.IN_EXPR => top = "$"%string ∨ top = ")"%string
    | Final.ACCEPT | Final.REJECT => False
    end
  | _ => True
  end.

(** ** Tokens as slices of the input *)

(** [slice_of input lo p len v]: the text [v] of length [len] is the part
    of [input] that starts at [p], and [p] is at or after [lo]. *)
Definition slice_of (input : list ascii) (lo p : nat) (v : list ascii) : Prop :=
  lo ≤ p ∧ 0 < length v ∧ p + length v ≤ length input
  ∧ v = substr input p (length v).

Definition final_slice (input : list ascii) (lo : nat) (t : Final.Token) : Prop :=
  ∃ p, Final.position t = Z.of_nat p ∧ slice_of input lo p (Final.value t).

Definition chess_slice (input : list ascii) (lo : nat) (t : Chess.ChessToken)
  : Prop :=
  ∃ p, Chess.position t = Z.of_nat p ∧ slice_of input lo p (Chess.value t).

(** The index [i] of the input lies inside one of the tokens. *)
Definition final_covered (toks : list Final.Token) (i : nat) : Prop :=
  ∃ t, t ∈ toks
       ∧ (Final.position t ≤ Z.of_nat i
          < Final.position t + Z.of_nat (length (Final.value t)))%Z.

Definition chess_covered (toks : list Chess.ChessToken) (i : nat) : Prop :=
  ∃ t, t ∈ toks
       ∧ (Chess.position t ≤ Z.of_nat i
          < Chess.position t + Z.of_nat (length (Chess.value t)))%Z.

(** ** The drivers *)

(** [CompilerFrontEnd::analyzeInput]: the two verdicts it prints, "Lexical
    Analysis: COMPLETED" (or FAILED) and the syntactic one. *)
Definition analyzeInput (fuel : nat) (lexer : Final.Lexer) (input : list ascii)
  : option (bool * bool) :=
  tokens ← Final.tokenize fuel lexer input;
  r ← Final.parse fuel tokens;
  let syntaxValid := r.1 in
  Some (bool_decide (0 < length tokens), syntaxValid).

(** ** ChessSyntaxValidator *)

Definition isPrimaryMove (token : Chess.ChessToken) : bool :=
  bool_decide (Chess.type token = Chess.MOVE_NUMBER
               ∨ Chess.type token = Chess.PAWN_MOVE
               ∨ Chess.type token = Chess.PIECE_MOVE
               ∨ Chess.type token = Chess.TWIN_PIECE_MOVE
               ∨ Chess.type token = Chess.PAWN_CAPTURE
               ∨ Chess.type token = Chess.PIECE_CAPTURE
               ∨ Chess.type token = Chess.TWIN_PIECE_CAPTURE
               ∨ Chess.type token = Chess.CASTLING
               ∨ Chess.type token = Chess.PROMOTION
               ∨ Chess.type token = Chess.PROMOTION_VIA_CAPTURE
               ∨ Chess.type token = Chess.CHECK
               ∨ Chess.type token = Chess.CHECKMATE
               ∨ Chess.type token = Chess.RESULT).

(** [current.position + current.value.length() == next.position]: the sum
    is made in [size_t], and [next.position] is converted to it. *)
Definition touching (current next : Chess.ChessToken) : bool :=
  bool_decide (((Chess.position current
                 + Z.of_nat (length (Chess.value current))) mod 2 ^ 64
                = Chess.position next mod 2 ^ 64)%Z).

(** The lines [validateMoveSyntax] writes. *)
Inductive SyntaxOut :=
  | TouchingTokens (current next : Chess.ChessToken)
      (* SYNTAX ERROR: Primary move tokens found physically touching *)
  | StructureValid.
      (* Token stream structure appears lexically valid. *)

(** The [for (size_t i = 0; i < tokens.size() - 1; ++i)] loop on the
    tokens from index [i] on, for a vector that is not empty: the first
    pair of neighbours that are both primary and touch, if any. *)
Fixpoint syntax_loop (tokens : list Chess.ChessToken)
  : option (Chess.ChessToken * Chess.ChessToken) :=
  match tokens with
  | current :: ((next :: _) as rest) =>
    if isPrimaryMove current && isPrimaryMove next && touching current next
    then Some (current, next)
    else syntax_loop rest
  | _ => None
  end.

(** [validateMoveSyntax].  On an empty vector [tokens.size() - 1] wraps
    around and [tokens[0]] is read out of bounds: no result ([None]). *)
Definition validateMoveSyntax (tokens : list Chess.ChessToken)
  : option (bool * list SyntaxOut) :=
  match tokens with
  | [] => None
  | _ =>
    match syntax_loop tokens with
    | Some (current, next) => Some (false, [TouchingTokens current next])
    | None => Some (true, [StructureValid])
    end
  end.

(** ** ChessParserSimulator *)

(** What [processInput] reports. *)
Record Diagnostic := mkDiagnostic {
  hadLexicalError : bool;
  syntaxValid : bool;
  pdaValid : bool;
  overallValid : bool
}.

Definition processInput (fuel : nat) (lexer : Chess.ChessLexer)
    (input : list ascii) : option Diagnostic :=
  r ← Chess.tokenize fuel lexer input;
  s ← validateMoveSyntax r.1;
  let p := Chess.validateMoveSequence r.1 in
  Some (mkDiagnostic r.2 s.1 p.1 (s.1 && p.1 && negb r.2)).

(** The number a MOVE_NUMBER token carries: [stoi] of its text without the
    last character. *)
Definition move_number (token : Chess.ChessToken) : option Z :=
  Chess.stoi (substr (Chess.value token) 0 (length (Chess.value token) - 1)).

(** How many of the tokens are MOVE_NUMBER tokens. *)
Definition count_move_numbers (tokens : list Chess.ChessToken) : nat :=
  length (filter (λ t, Chess.type t = Chess.MOVE_NUMBER) tokens).

(** Complete turns numbered from [n]: a MOVE_NUMBER token that reads [n],
    White's move and Black's move (neither a checkmate), and so on. *)
Inductive turns : Z → list Chess.ChessToken → Prop :=
  | turns_nil n : turns n []
  | turns_cons n number white black rest :
      Chess.type number = Chess.MOVE_NUMBER →
      move_number number = Some n →
      Chess.isMoveToken (Chess.type white) = true →
      Chess.type white ≠ Chess.CHECKMATE →
      Chess.isMoveToken (Chess.type black) = true →
      Chess.type black ≠ Chess.CHECKMATE →
      turns (n + 1) rest →
      turns n (number :: white :: black :: rest).

(** The two lines of [validateMoveSequence] that belong to the branch for
    an END_OF_INPUT token. *)
Definition end_of_input_line (o : Chess.SeqOut) : bool :=
  match o with
  | Chess.EndedAbruptly _ | Chess.HalfMoveWarning _ => true
  | _ => false
  end.

(** Consecutive tokens with at least one character of the input between
    them. *)
Definition separated (toks : list Chess.ChessToken) : Prop :=
  ∀ pre t1 t2 suf, toks = pre ++ t1 :: t2 :: suf →
    (Chess.position t1 + Z.of_nat (length (Chess.value t1))
     < Chess.position t2)%Z.

(** ** The textbook subset construction *)

(** The epsilon closure of a set of states, as a predicate. *)
Definition eps_closure_of (h : list State) (S : gset nat) (q : nat) : Prop :=
  ∃ p, p ∈ S ∧ eps_reach h p q.

(** What the work loop of [convertToDFA] keeps besides [subset_inv]: the
    state at index [i] has id [i], the counter is the number of states, and
    no state carries the empty set. *)
Definition dfa_ids_ok (w : Work) : Prop :=
  dfaStateCounter w = length (w_dfaStates w)
  ∧ ∀ i d, w_dfaStates w !! i = Some d → dfa_id d = i ∧ nfaStates d ≠ ∅.

(** ** The languages of the token classes *)

Definition is_letter (c : ascii) : bool :=
  ((65 <=? char_val c) && (char_val c <=? 90)
   || (97 <=? char_val c) && (char_val c <=? 122))%Z.

Definition is_identifier_start (c : ascii) : bool :=
  is_letter c || (char_val c =? 95)%Z.

Definition is_identifier_char (c : ascii) : bool :=
  is_identifier_start c || Chess.is_digit c.

(** [[a-zA-Z_][a-zA-Z0-9_]*] *)
Definition is_identifier (w : list ascii) : bool :=
  match w with
  | c :: cs => is_identifier_start c && forallb is_identifier_char cs
  | [] => false
  end.

(** [[0-9]+] *)
Definition is_digits (w : list ascii) : bool :=
  match w with
  | [] => false
  | _ => forallb Chess.is_digit w
  end.

(** [[0-9]+(\.[0-9]+)?] *)
Definition number_shape (w : list ascii) : Prop :=
  is_digits w = true
  ∨ ∃ ds fs, w = ds ++ "."%char :: fs
             ∧ is_digits ds = true ∧ is_digits fs = true.

(** [[0-9]+\.] *)
Definition move_number_shape (w : list ascii) : Prop :=
  ∃ ds, w = ds ++ ["."%char] ∧ is_digits ds = true.

(** A DFA graph checked against a transition table [T] and a set of final
    states [F], on its first [n] states and all 256 characters. *)
Definition dfa_table_ok (G : list DFAState) (n : nat)
    (T : nat → ascii → option nat) (F : nat → bool) : bool :=
  forallb (λ p,
             bool_decide (from_option dfa_isFinal false (G !! p) = F p)
             && forallb (λ k,
                           bool_decide
                             ((G !! p ≫= λ d, dfa_transitions d !! ascii_of_nat k)
                              = T p (ascii_of_nat k)))
                        (seq 0 256))
          (seq 0 n).

Definition identifier_table (p : nat) (c : ascii) : option nat :=
  match p with
  | 0 => if is_identifier_start c then Some 1 else None
  | 1 | 2 => if is_identifier_char c then Some 2 else None
  | _ => None
  end.

Definition identifier_final (p : nat) : bool :=
  match p with 1 | 2 => true | _ => false end.

Definition number_table (p : nat) (c : ascii) : option nat :=
  match p with
  | 0 => if Chess.is_digit c then Some 1 else None
  | 1 => if Chess.is_digit c then Some 1
         else if decide (c = "."%char) then Some 2 else None
  | 2 | 3 => if Chess.is_digit c then Some 3 else None
  | _ => None
  end.

Definition number_final (p : nat) : bool :=
  match p with 1 | 3 => true | _ => false end.

Definition move_number_table (p : nat) (c : ascii) : option nat :=
  match p with
  | 0 => if Chess.is_digit c then Some 1 else None
  | 1 => if Chess.is_digit c then Some 1
         else if decide (c = "."%char) then Some 2 else None
  | _ => None
  end.

Definition move_number_final (p : nat) : bool :=
  match p with 2 => true | _ => false end.

(** The number a string of decimal digits denotes. *)
Definition digits_value (ds : list ascii) : Z :=
  foldl (λ acc c, acc * 10 + (char_val c - 48))%Z 0%Z ds.

(** The symbols [getAlphabet] may return: ordinary characters that are keys
    of the transition map of a state reachable from [s0]. *)
Definition labels_reachable (h : list State) (s0 : nat) (c : ascii) : Prop :=
  c ≠ epsilon
  ∧ ∃ q st, reachable h s0 q ∧ h !! q = Some st
            ∧ is_Some (transitions st !! c).

(** ** Example inputs *)

(** A chess lexer none of whose patterns matches anything. *)
Definition no_pattern_lexer : Chess.ChessLexer :=
  let none := mkDFA [] 0 in
  Chess.mkChessLexer none none none none none none none none none none none
    none none.

(** The lexer of chessNot.cpp. *)
Definition chess_lexer : Chess.ChessLexer :=
  default no_pattern_lexer (Chess.new_ChessLexer 100).

(** An arithmetic lexer with the table of single-character tokens only. *)
Definition symbols_lexer : Final.Lexer :=
  Final.mkLexer (mkDFA [] 0) (mkDFA [] 0) Final.initializeSingleCharTokens
    newBuilder.

(** The tokens of ["1. e4 e5"] before END_OF_INPUT. *)
Definition opening_tokens : list Chess.ChessToken :=
  [Chess.mkChessToken Chess.MOVE_NUMBER (str "1.") 0;
   Chess.mkChessToken Chess.PAWN_MOVE (str "e4") 3;
   Chess.mkChessToken Chess.PAWN_MOVE (str "e5") 6].

Definition opening_end : Chess.ChessToken :=
  Chess.mkChessToken Chess.END_OF_INPUT [] 8.

(** ** Classes that cannot compete *)

(** The thirteen DFAs of [ChessLexer] in the order of their declarations,
    each with the token type [tryMatchLongest] gives its matches. *)
Definition chess_declared (lx : Chess.ChessLexer)
  : list (DFA * Chess.ChessTokenType) :=
  [ (Chess.moveNumberDFA lx, Chess.MOVE_NUMBER);
    (Chess.pawnMoveDFA lx, Chess.PAWN_MOVE);
    (Chess.pieceMoveDFA lx, Chess.PIECE_MOVE);
    (Chess.twinPieceMoveDFA lx, Chess.TWIN_PIECE_MOVE);
    (Chess.pawnCaptureDFA lx, Chess.PAWN_CAPTURE);
    (Chess.pieceCaptureDFA lx, Chess.PIECE_CAPTURE);
    (Chess.twinPieceCaptureDFA lx, Chess.TWIN_PIECE_CAPTURE);
    (Chess.castlingDFA lx, Chess.CASTLING);
    (Chess.promotionDFA lx, Chess.PROMOTION);
    (Chess.promotionViaCaptureDFA lx, Chess.PROMOTION_VIA_CAPTURE);
    (Chess.checkDFA lx, Chess.CHECK);
    (Chess.checkmateDFA lx, Chess.CHECKMATE);
    (Chess.resultDFA lx, Chess.RESULT) ].

(** Two DFAs read the same character side by side. *)
Definition pair_step (G1 G2 : list DFAState) (pq : nat * nat) (c : ascii)
  : option (nat * nat) :=
  p ← G1 !! pq.1 ≫= λ d, dfa_transitions d !! c;
  q ← G2 !! pq.2 ≫= λ d, dfa_transitions d !! c;
  Some (p, q).

Definition pair_final (G1 G2 : list DFAState) (pq : nat * nat) : bool :=
  from_option dfa_isFinal false (G1 !! pq.1)
  && from_option dfa_isFinal false (G2 !! pq.2).

Definition pair_mem (pq : nat * nat) (l : list (nat * nat)) : bool :=
  existsb (λ r, (r.1 =? pq.1) && (r.2 =? pq.2)) l.

(** The pairs of states that some common word leads to. *)
Fixpoint pair_closure (fuel : nat) (G1 G2 : list DFAState)
    (todo seen : list (nat * nat)) : list (nat * nat) :=
  match fuel with
  | 0 => seen
  | S fuel =>
    match todo with
    | [] => seen
    | pq :: todo =>
      if pair_mem pq seen then pair_closure fuel G1 G2 todo seen
      else pair_closure fuel G1 G2
             (omap (λ k, pair_step G1 G2 pq (ascii_of_nat k)) (seq 0 256) ++ todo)
             (pq :: seen)
    end
  end.

(** [I] holds the start pair, is closed under reading a character, and has
    no pair of two final states. *)
Definition pairs_closed (G1 G2 : list DFAState) (start : nat * nat)
    (I : list (nat * nat)) : bool :=
  pair_mem start I
  && forallb (λ pq,
                negb (pair_final G1 G2 pq)
                && forallb (λ k,
                              match pair_step G1 G2 pq (ascii_of_nat k) with
                              | Some r => pair_mem r I
                              | None => true
                              end) (seq 0 256)) I.

(** A check that no word is accepted by both DFAs. *)
Definition dfa_disjoint (d1 d2 : DFA) : bool :=
  pairs_closed (dfaStates d1) (dfaStates d2) (startDFA d1, startDFA d2)
    (pair_closure 4096 (dfaStates d1) (dfaStates d2)
       [(startDFA d1, startDFA d2)] []).

(** Every two classes of different type pass the check. *)
Definition classes_disjoint (ps : list (DFA * Chess.ChessTokenType)) : bool :=
  forallb (λ p, forallb (λ q, bool_decide (p.2 = q.2) || dfa_disjoint p.1 q.1) ps)
          ps.

(** ** The ranges of a character class *)

(** What the scan of [parseCharacterClass] reads from the content of a
    class: a character followed by a dash and one more character is a
    range, any other character is a literal. *)
Inductive class_item :=
  | Range (x y : ascii)
  | Literal (c : ascii).

Fixpoint class_items (content : list ascii) : list class_item :=
  match content with
  | [] => []
  | x :: rest =>
    match rest with
    | dash :: y :: rest' =>
      if decide (dash = "-"%char) then Range x y :: class_items rest'
      else Literal x :: class_items rest
    | _ => Literal x :: class_items rest
    end
  end.

(** * Properties of the shared engine *)

(** ** Sets of states and ordered iteration *)

Lemma elem_of_universe n x : x ∈ universe n ↔ x < n.
Proof.
  unfold universe. rewrite elem_of_list_to_set, elem_of_seq. lia.
Qed.

Lemma size_universe n : size (universe n) = n.
Proof.
  unfold universe. rewrite size_list_to_set by apply NoDup_seq.
  apply length_seq.
Qed.

Lemma size_difference_new `{Countable A} (U X : gset A) x :
  x ∈ U → x ∉ X → S (size (U ∖ ({[x]} ∪ X))) = size (U ∖ X).
Proof.
  intros HU Hx.
  assert (U ∖ X = {[x]} ∪ U ∖ ({[x]} ∪ X)) as ->.
  { apply set_eq. intros y. destruct (decide (y = x)); set_solver. }
  pose proof (size_union ({[x]} : gset A) (U ∖ ({[x]} ∪ X))) as Hsz.
  rewrite Hsz by set_solver. by rewrite size_singleton.
Qed.

Lemma elem_of_subsets (l : list nat) (K : gset nat) :
  K ⊆ list_to_set l → K ∈ subsets l.
Proof.
  revert K. induction l as [|x l IH]; intros K HK; simpl in *.
  - apply list_elem_of_singleton. set_solver.
  - apply elem_of_app. destruct (decide (x ∈ K)) as [Hx|Hx].
    + right. apply list_elem_of_fmap. exists (K ∖ {[x]}). split.
      * apply set_eq. intros y. destruct (decide (y = x)); set_solver.
      * apply IH. set_solver.
    + left. apply IH. set_solver.
Qed.

Lemma elem_of_all_subsets n (K : gset nat) :
  (∀ q, q ∈ K → q < n) → K ∈ all_subsets n.
Proof.
  intros HK. unfold all_subsets. apply elem_of_list_to_set, elem_of_subsets.
  intros q Hq. apply elem_of_list_to_set, elem_of_seq. specialize (HK q Hq). lia.
Qed.

Lemma map_in_order_elem {V} (m : gmap ascii V) c v :
  (c, v) ∈ map_in_order m ↔ m !! c = Some v.
Proof.
  unfold map_in_order. rewrite merge_sort_Permutation.
  apply elem_of_map_to_list.
Qed.

Lemma chars_in_order_elem (s : gset ascii) c : c ∈ chars_in_order s ↔ c ∈ s.
Proof.
  unfold chars_in_order. rewrite merge_sort_Permutation.
  apply elem_of_elements.
Qed.

Lemma size_unvisited_mono (V V' : gset nat) n :
  V ⊆ V' → size (universe n ∖ V') ≤ size (universe n ∖ V).
Proof. intros HV. apply subseteq_size. set_solver. Qed.

Lemma lookup_set_transition (G : list DFAState) (cur : nat) c t (i : nat) d :
  alter (set_dfa_transition c t) cur G !! i = Some d →
  ∃ d0, G !! i = Some d0
        ∧ nfaStates d = nfaStates d0 ∧ dfa_isFinal d = dfa_isFinal d0
        ∧ dfa_transitions d =
            if decide (i = cur) then <[c := t]> (dfa_transitions d0)
            else dfa_transitions d0.
Proof.
  destruct (decide (i = cur)) as [->|Hne].
  - rewrite list_lookup_alter_eq. destruct (G !! cur) as [d0|]; [|done].
    intros [= <-]. by exists d0.
  - rewrite list_lookup_alter_ne by done. intros Hd. by exists d.
Qed.

Lemma lookup_set_transition_inv (G : list DFAState) (cur : nat) c t (i : nat) d0 :
  G !! i = Some d0 →
  ∃ d, alter (set_dfa_transition c t) cur G !! i = Some d
       ∧ nfaStates d = nfaStates d0.
Proof.
  intros Hd0. destruct (decide (i = cur)) as [->|Hne].
  - rewrite list_lookup_alter_eq, Hd0. by eexists.
  - rewrite list_lookup_alter_ne by done. by exists d0.
Qed.

(** ** Epsilon closure *)

Section closure.
Context (h : list State).

Lemma foldl_closure_visit_closure stack cl l :
  (foldl closure_visit (stack, cl) l).2 = cl ∪ list_to_set l.
Proof.
  revert stack cl. induction l as [|q l IH]; intros stack cl; simpl.
  - set_solver.
  - unfold closure_visit at 2. simpl. destruct (decide (q ∈ cl)).
    + rewrite IH. set_solver.
    + rewrite IH. set_solver.
Qed.

Lemma foldl_closure_visit_stack (P : nat → Prop) stack cl l :
  Forall P stack → Forall P l →
  Forall P (foldl closure_visit (stack, cl) l).1.
Proof.
  revert stack cl. induction l as [|q l IH]; intros stack cl Hs Hl; simpl.
  - done.
  - inversion Hl; subst. unfold closure_visit at 2. simpl.
    destruct (decide (q ∈ cl)); apply IH; auto.
Qed.

Lemma foldl_closure_visit_measure (U : gset nat) stack cl l :
  (∀ q, q ∈ l → q ∈ U) →
  length (foldl closure_visit (stack, cl) l).1
    + size (U ∖ (foldl closure_visit (stack, cl) l).2)
  = length stack + size (U ∖ cl).
Proof.
  revert stack cl. induction l as [|q l IH]; intros stack cl Hl; simpl.
  - done.
  - unfold closure_visit at 2 4. simpl. destruct (decide (q ∈ cl)).
    + apply IH. intros; apply Hl; set_solver.
    + rewrite IH by (intros; apply Hl; set_solver). simpl.
      rewrite <- (size_difference_new U cl q); [lia| |done].
      apply Hl. set_solver.
Qed.

Lemma targets_wf p c q :
  wf_heap h → q ∈ targets h p c → q < length h.
Proof.
  intros Hwf. unfold targets. destruct (h !! p) as [st|] eqn:E.
  - intros Hq. by eapply (Hwf p st E).
  - intros Hq. by apply elem_of_nil in Hq.
Qed.

(** Any property that epsilon moves preserve holds of the whole result. *)
Lemma closure_loop_inv (P : nat → Prop) :
  (∀ p q, P p → q ∈ targets h p epsilon → P q) →
  ∀ fuel stack cl R,
    closure_loop fuel h stack cl = Some R →
    Forall P stack → (∀ x, x ∈ cl → P x) → ∀ x, x ∈ R → P x.
Proof.
  intros HP. induction fuel as [|fuel IH]; intros stack cl R Hrun Hs Hcl.
  - destruct stack; simpl in Hrun; [|done]. by inversion Hrun; subst.
  - destruct stack as [|cur stack]; simpl in Hrun.
    { by inversion Hrun; subst. }
    inversion Hs as [|? ? Hcur Hs']; subst.
    assert (Forall P (targets h cur epsilon)) as Ht.
    { apply Forall_forall. intros q Hq. by eapply HP. }
    eapply IH; [exact Hrun| |].
    + by apply foldl_closure_visit_stack.
    + intros x. rewrite foldl_closure_visit_closure.
      rewrite elem_of_union, elem_of_list_to_set.
      intros [?|Hx]; [auto|]. by eapply Forall_forall in Ht.
Qed.

Lemma closure_loop_extends fuel stack cl R :
  closure_loop fuel h stack cl = Some R → cl ⊆ R.
Proof.
  revert stack cl. induction fuel as [|fuel IH]; intros stack cl Hrun.
  - destruct stack; simpl in Hrun; [|done]. by inversion Hrun.
  - destruct stack as [|cur stack]; simpl in Hrun.
    { by inversion Hrun. }
    apply IH in Hrun. rewrite foldl_closure_visit_closure in Hrun.
    set_solver.
Qed.

Lemma closure_loop_total fuel stack cl :
  wf_heap h →
  length stack + size (universe (length h) ∖ cl) ≤ fuel →
  is_Some (closure_loop fuel h stack cl).
Proof.
  intros Hwf. revert stack cl.
  induction fuel as [|fuel IH]; intros stack cl Hm.
  - destruct stack; simpl in *; [eauto|lia].
  - destruct stack as [|cur stack]; simpl; [eauto|].
    apply IH.
    rewrite (foldl_closure_visit_measure (universe (length h))).
    + simpl in Hm. lia.
    + intros q Hq. apply elem_of_universe. by eapply targets_wf.
Qed.

Lemma foldl_closure_seed stack cl l :
  foldl closure_seed (stack, cl) l = (reverse l ++ stack, list_to_set l ∪ cl).
Proof.
  revert stack cl. induction l as [|q l IH]; intros stack cl; simpl.
  - f_equal. set_solver.
  - change (closure_seed (stack, cl) q) with (q :: stack, {[q]} ∪ cl).
    rewrite IH, reverse_cons, <- app_assoc. simpl. f_equal. set_solver.
Qed.

Lemma epsilonClosure_unfold fuel (S : gset nat) :
  epsilonClosure fuel h S ∅ = closure_loop fuel h (reverse (elements S)) S.
Proof.
  unfold epsilonClosure. rewrite foldl_closure_seed. simpl.
  rewrite app_nil_r. f_equal.
  apply set_eq. intros x. rewrite elem_of_union, elem_of_list_to_set, elem_of_elements.
  set_solver.
Qed.

Lemma epsilonClosure_empty fuel : epsilonClosure fuel h ∅ ∅ = Some ∅.
Proof.
  rewrite epsilonClosure_unfold, elements_empty. by destruct fuel.
Qed.

Lemma epsilonClosure_total fuel (S : gset nat) :
  wf_heap h → S ⊆ universe (length h) → length h ≤ fuel →
  is_Some (epsilonClosure fuel h S ∅).
Proof.
  intros Hwf HS Hfuel. rewrite epsilonClosure_unfold.
  apply closure_loop_total; [done|].
  rewrite length_reverse.
  change (length (elements S)) with (size S).
  rewrite <- size_union_alt.
  assert (S ∪ universe (length h) = universe (length h)) as -> by set_solver.
  by rewrite size_universe.
Qed.

Lemma epsilonClosure_inv (P : nat → Prop) fuel (S R : gset nat) :
  (∀ p q, P p → q ∈ targets h p epsilon → P q) →
  epsilonClosure fuel h S ∅ = Some R →
  (∀ x, x ∈ S → P x) → ∀ x, x ∈ R → P x.
Proof.
  intros HP. rewrite epsilonClosure_unfold. intros Hrun HS.
  eapply closure_loop_inv; eauto.
  apply Forall_forall. intros x Hx. apply HS.
  by rewrite elem_of_reverse, elem_of_elements in Hx.
Qed.

Lemma epsilonClosure_extends fuel (S R : gset nat) :
  epsilonClosure fuel h S ∅ = Some R → S ⊆ R.
Proof. rewrite epsilonClosure_unfold. apply closure_loop_extends. Qed.

End closure.

Section alphabet.
Context (h : list State).

Lemma dfs_post_refl acc : dfs_post h acc acc.
Proof. split; [done|]. split; [done|]. intros x Hx Hnx. done. Qed.

Lemma dfs_post_trans a1 a2 a3 :
  dfs_post h a1 a2 → dfs_post h a2 a3 → dfs_post h a1 a3.
Proof.
  intros (HA1 & HV1 & HC1) (HA2 & HV2 & HC2). split; [|split].
  - set_solver.
  - set_solver.
  - intros x Hv3 Hv1. destruct (decide (x ∈ a2.2)) as [Hv2|Hv2].
    + intros c q Hq. destruct (HC1 x Hv2 Hv1 c q Hq) as [? ?].
      split; [set_solver|]. intros Hc. set_solver.
    + by apply HC2.
Qed.

Section children.
Context (fuel : nat).
Context (IH : ∀ state acc,
  size (universe (length h) ∖ acc.2) < fuel → state < length h →
  ∃ acc', collectAlphabet fuel h state acc = Some acc'
          ∧ dfs_post h acc acc' ∧ state ∈ acc'.2).

Lemma dfs_children l a :
  (∀ q, q ∈ l → q < length h) →
  size (universe (length h) ∖ a.2) < fuel →
  ∃ a', foldl (λ oacc nextState, acc ← oacc; collectAlphabet fuel h nextState acc)
              (Some a) l = Some a'
        ∧ dfs_post h a a' ∧ ∀ q, q ∈ l → q ∈ a'.2.
Proof.
  revert a. induction l as [|q l IHl]; intros a Hl Hm; simpl.
  - exists a. split; [done|]. split; [apply dfs_post_refl|].
    intros q Hq. by apply elem_of_nil in Hq.
  - destruct (IH q a Hm) as (a1 & -> & Hp1 & Hq1).
    { apply Hl. set_solver. }
    destruct (IHl a1) as (a' & Hrun & Hp & Hall).
    { intros; apply Hl; set_solver. }
    { destruct Hp1 as (_ & HV & _).
      pose proof (size_unvisited_mono _ _ (length h) HV). lia. }
    exists a'. split; [done|]. split; [by eapply dfs_post_trans|].
    intros q' Hq'. apply elem_of_cons in Hq' as [->|Hq']; [|auto].
    destruct Hp as (_ & HV & _). set_solver.
Qed.

Lemma dfs_transitions (ts : list (ascii * list nat)) a :
  (∀ c l q, (c, l) ∈ ts → q ∈ l → q < length h) →
  size (universe (length h) ∖ a.2) < fuel →
  ∃ a',
    foldl (λ oacc (transition : ascii * list nat),
             acc ← oacc;
             foldl (λ oacc nextState,
                      acc ← oacc; collectAlphabet fuel h nextState acc)
                   (Some (note_symbol transition.1 acc.1, acc.2))
                   transition.2)
          (Some a) ts = Some a'
    ∧ dfs_post h a a'
    ∧ ∀ c l q, (c, l) ∈ ts → q ∈ l → q ∈ a'.2 ∧ (c ≠ epsilon → c ∈ a'.1).
Proof.
  revert a. induction ts as [|[c l] ts IHts]; intros a Hts Hm; simpl.
  - exists a. split; [done|]. split; [apply dfs_post_refl|].
    intros c l q Hin. by apply elem_of_nil in Hin.
  - destruct (dfs_children l (note_symbol c a.1, a.2)) as (a1 & -> & Hp1 & Hl1).
    { intros q Hq. eapply (Hts c l); [|done]. apply elem_of_cons; by left. }
    { done. }
    assert (dfs_post h a (note_symbol c a.1, a.2)) as Hp0.
    { split; [|split]; simpl.
      - unfold note_symbol. case_decide; set_solver.
      - done.
      - intros x Hv Hnv. done. }
    destruct (IHts a1) as (a' & Hrun & Hp & Hall).
    { intros c' l' q' Hin. eapply Hts. apply elem_of_cons; by right. }
    { destruct Hp1 as (_ & HV & _). simpl in HV.
      pose proof (size_unvisited_mono _ _ (length h) HV). lia. }
    exists a'. split; [done|].
    split; [eapply dfs_post_trans; [|done]; by eapply dfs_post_trans|].
    intros c' l' q' Hin Hq'.
    apply elem_of_cons in Hin as [[= -> ->]|Hin]; [|by eapply Hall].
    destruct Hp as (HA & HV & _). destruct Hp1 as (HA1 & _ & _).
    split; [set_solver|]. intros Hc. apply HA, HA1. simpl.
    unfold note_symbol. rewrite decide_True by done. set_solver.
Qed.
End children.

Lemma collectAlphabet_spec fuel :
  wf_heap h →
  ∀ state acc,
    size (universe (length h) ∖ acc.2) < fuel → state < length h →
    ∃ acc', collectAlphabet fuel h state acc = Some acc'
            ∧ dfs_post h acc acc' ∧ state ∈ acc'.2.
Proof.
  intros Hwf. induction fuel as [|fuel IH]; intros state acc Hm Hstate; [lia|].
  simpl. destruct (lookup_lt_is_Some_2 h state Hstate) as [st Hst].
  rewrite Hst. destruct (Hwf state st Hst) as [Hid Htg]. rewrite Hid.
  destruct (decide (state ∈ acc.2)) as [Hin|Hin].
  { exists acc. split; [done|]. split; [apply dfs_post_refl|done]. }
  destruct (dfs_transitions fuel IH (map_in_order (transitions st))
              (acc.1, {[state]} ∪ acc.2)) as (a' & Hrun & Hp & Hall).
  { intros c l q Hin' Hq. apply map_in_order_elem in Hin'.
    apply (Htg c). by rewrite Hin'. }
  { simpl. rewrite <- (size_difference_new _ _ state) in Hm;
      [lia| |done]. by apply elem_of_universe. }
  exists a'. split; [done|]. destruct Hp as (HA & HV & HC). simpl in *.
  split; [|set_solver]. split; [done|]. split; [set_solver|].
  intros x Hv Hnv. destruct (decide (x = state)) as [->|Hne].
  - intros c q Hq. unfold targets in Hq. rewrite Hst in Hq.
    destruct (transitions st !! c) as [l|] eqn:El; simpl in Hq.
    + eapply Hall; [|done]. by apply map_in_order_elem.
    + by apply elem_of_nil in Hq.
  - apply HC; [done|]. set_solver.
Qed.

(** The alphabet holds every ordinary symbol on a transition of a state
    reachable from the start. *)
Lemma getAlphabet_spec fuel nfa :
  wf_heap h → start nfa < length h → length h < fuel →
  ∃ A, getAlphabet fuel h nfa = Some A
       ∧ ∀ q c r, reachable h (start nfa) q → r ∈ targets h q c →
                  c ≠ epsilon → c ∈ A.
Proof.
  intros Hwf Hs Hfuel. unfold getAlphabet.
  destruct (collectAlphabet_spec fuel Hwf (start nfa) (∅, ∅)) as (acc' & -> & Hp & Hin).
  { simpl. rewrite difference_empty_L, size_universe. lia. }
  { done. }
  simpl. exists acc'.1. split; [done|].
  destruct Hp as (_ & _ & HC). simpl in HC.
  assert (∀ q, reachable h (start nfa) q → q ∈ acc'.2) as Hreach.
  { induction 1 as [|q c r Hq IHq Hr]; [done|].
    by apply (HC q IHq (not_elem_of_empty q) c r). }
  intros q c r Hq Hr Hc.
  by apply (HC q (Hreach q Hq) (not_elem_of_empty q) c r).
Qed.

End alphabet.

Section subset_construction.
Context (h : list State).

Lemma elem_of_move (S : gset nat) c q :
  q ∈ move h S c ↔ ∃ s, s ∈ S ∧ q ∈ targets h s c.
Proof.
  unfold move.
  assert (∀ l (acc : gset nat),
    q ∈ foldl (λ next nextState, {[nextState]} ∪ next) acc l
    ↔ q ∈ acc ∨ q ∈ l) as Hinner.
  { induction l as [|x l IH]; intros acc; simpl.
    - rewrite elem_of_nil. tauto.
    - rewrite IH, elem_of_cons. set_solver. }
  assert (∀ l (acc : gset nat),
    q ∈ foldl (λ next nfaState,
                 foldl (λ next nextState, {[nextState]} ∪ next) next
                       (targets h nfaState c)) acc l
    ↔ q ∈ acc ∨ ∃ s, s ∈ l ∧ q ∈ targets h s c) as Houter.
  { induction l as [|x l IH]; intros acc; simpl.
    - split; [auto|]. intros [?|(s & Hs & _)]; [done|].
      by apply elem_of_nil in Hs.
    - rewrite IH, Hinner. split.
      + intros [[?|?]|(s & Hs & Hq)]; [by left| |].
        * right. exists x. split; [apply elem_of_cons; by left|done].
        * right. exists s. split; [apply elem_of_cons; by right|done].
      + intros [?|(s & Hs & Hq)]; [by left; left|].
        apply elem_of_cons in Hs as [->|Hs]; [by left; right|].
        right. by exists s. }
  rewrite Houter. split.
  - intros [Hq|(s & Hs & Hq)]; [by apply not_elem_of_empty in Hq|].
    exists s. by rewrite <- elem_of_elements.
  - intros (s & Hs & Hq). right. exists s. by rewrite elem_of_elements.
Qed.

Lemma move_empty c : move h ∅ c = ∅.
Proof.
  apply set_eq. intros q. rewrite elem_of_move. set_solver.
Qed.

Lemma move_valid (S : gset nat) c q :
  wf_heap h → q ∈ move h S c → q < length h.
Proof.
  intros Hwf. rewrite elem_of_move. intros (s & _ & Hq). by eapply targets_wf.
Qed.

Lemma reachable_targets s0 p q c :
  reachable h s0 p → q ∈ targets h p c → reachable h s0 q.
Proof. intros. by eapply reachable_step. Qed.

(** A closure of states that are valid and reachable is made of such states. *)
Lemma epsilonClosure_states fuel s0 (S R : gset nat) :
  wf_heap h →
  epsilonClosure fuel h S ∅ = Some R →
  (∀ q, q ∈ S → q < length h ∧ reachable h s0 q) →
  ∀ q, q ∈ R → q < length h ∧ reachable h s0 q.
Proof.
  intros Hwf Hrun HS.
  apply (epsilonClosure_inv h (λ q, q < length h ∧ reachable h s0 q) fuel S R);
    [|done|done].
  intros p q [Hp Hr] Hq. split; [by eapply targets_wf|by eapply reachable_step].
Qed.

Lemma move_states s0 (S : gset nat) c :
  wf_heap h →
  (∀ q, q ∈ S → q < length h ∧ reachable h s0 q) →
  ∀ q, q ∈ move h S c → q < length h ∧ reachable h s0 q.
Proof.
  intros Hwf HS q Hq. split; [by eapply move_valid|].
  apply elem_of_move in Hq as (s & Hs & Hq).
  eapply reachable_step; [|done]. by apply HS.
Qed.

End subset_construction.

Section work_loop.
Context (h : list State).
Context (n : nat) (al : list ascii) (s0 : nat).

Lemma inv_add_state cur done w K :
  subset_inv h n al s0 cur done w →
  dfaStateMap w !! K = None →
  (∀ q, q ∈ K → q < length h ∧ reachable h s0 q) →
  subset_inv h n al s0 cur done
    (mkWork (<[K := length (w_dfaStates w)]> (dfaStateMap w))
            (w_dfaStates w ++ [mkDFAState (dfaStateCounter w) K ∅ (any_final h K)])
            (S (dfaStateCounter w))
            (length (w_dfaStates w) :: unprocessed w)).
Proof.
  intros [Hmap Hfin Htr Hcomp Hst Hpend] HK HKs.
  set (G := w_dfaStates w) in *.
  set (dnew := mkDFAState (dfaStateCounter w) K ∅ (any_final h K)).
  assert (∀ i d, (G ++ [dnew]) !! i = Some d →
            (G !! i = Some d) ∨ (i = length G ∧ d = dnew)) as Hlook.
  { intros i d Hd. apply lookup_app_Some in Hd as [?|[? Hd]]; [by left|].
    right. apply list_lookup_singleton_Some in Hd as [? ?]. split; [lia|done]. }
  constructor; simpl.
  - intros K' i. split.
    + destruct (decide (K = K')) as [<-|Hne].
      * rewrite lookup_insert_eq. intros [= <-]. exists dnew.
        split; [|done]. rewrite lookup_app_r by done.
        by rewrite Nat.sub_diag.
      * rewrite lookup_insert_ne by done. intros Hi.
        apply Hmap in Hi as (d & Hd & HdK). exists d. split; [|done].
        by apply lookup_app_l_Some.
    + intros (d & Hd & HdK). apply Hlook in Hd as [Hd|[-> ->]].
      * assert (dfaStateMap w !! K' = Some i) as Hi by (apply Hmap; eauto).
        rewrite lookup_insert_ne; [done|]. intros ->. congruence.
      * simpl in HdK. subst K'. by rewrite lookup_insert_eq.
  - intros i d Hd. apply Hlook in Hd as [Hd|[-> ->]]; [by eapply Hfin|done].
  - intros i d c j Hd Hj. apply Hlook in Hd as [Hd|[-> ->]]; [|done].
    destruct (Htr i d c j Hd Hj) as (Hc & Hmv & d' & Hd' & Hcl).
    split; [done|]. split; [done|]. exists d'. split; [|done].
    by apply lookup_app_l_Some.
  - intros i d Hd. apply Hlook in Hd as [Hd|[-> ->]].
    + destruct (Hcomp i d Hd) as [Hin|Hall]; [|by right].
      left. apply elem_of_cons. by right.
    + left. apply elem_of_cons. by left.
  - intros i d Hd. apply Hlook in Hd as [Hd|[-> ->]]; [by eapply Hst|done].
  - intros i Hi. rewrite length_app. simpl.
    apply elem_of_cons in Hi as [->|Hi]; [lia|]. apply Hpend in Hi. lia.
Qed.

Lemma inv_set_transition cur done w c target dcur dt :
  subset_inv h n al s0 cur done w →
  w_dfaStates w !! cur = Some dcur →
  c ≠ epsilon → move h (nfaStates dcur) c ≠ ∅ →
  w_dfaStates w !! target = Some dt →
  epsilonClosure n h (move h (nfaStates dcur) c) ∅ = Some (nfaStates dt) →
  subset_inv h n al s0 cur (c :: done)
    (mkWork (dfaStateMap w)
            (alter (set_dfa_transition c target) cur (w_dfaStates w))
            (dfaStateCounter w) (unprocessed w)).
Proof.
  intros [Hmap Hfin Htr Hcomp Hst Hpend] Hcur Hc Hmv Htarget Hcl.
  set (G := w_dfaStates w) in *.
  constructor; simpl.
  - intros K i. rewrite Hmap. split.
    + intros (d0 & Hd0 & HK).
      destruct (lookup_set_transition_inv G cur c target i d0 Hd0) as (d & Hd & Hn).
      exists d. split; [done|congruence].
    + intros (d & Hd & HK).
      apply lookup_set_transition in Hd as (d0 & Hd0 & Hn & _).
      exists d0. split; [done|congruence].
  - intros i d Hd. apply lookup_set_transition in Hd as (d0 & Hd0 & Hn & Hf & _).
    rewrite Hf, Hn. by eapply Hfin.
  - intros i d c' j Hd Hj.
    apply lookup_set_transition in Hd as (d0 & Hd0 & Hn & _ & Ht).
    rewrite Hn. rewrite Ht in Hj.
    assert (∀ d1, G !! j = Some d1 →
              ∃ d', alter (set_dfa_transition c target) cur G !! j = Some d'
                    ∧ nfaStates d' = nfaStates d1) as Hback.
    { intros d1 Hd1. by apply lookup_set_transition_inv. }
    destruct (decide (i = cur)) as [->|Hne].
    + assert (d0 = dcur) as -> by congruence.
      destruct (decide (c = c')) as [<-|Hcc].
      * rewrite lookup_insert_eq in Hj. injection Hj as <-.
        split; [done|]. split; [done|].
        destruct (Hback dt Htarget) as (d' & Hd' & Hn').
        exists d'. split; [done|]. by rewrite Hn'.
      * rewrite lookup_insert_ne in Hj by done.
        destruct (Htr cur dcur c' j Hd0 Hj) as (? & ? & d1 & Hd1 & Hcl1).
        split; [done|]. split; [done|].
        destruct (Hback d1 Hd1) as (d' & Hd' & Hn').
        exists d'. split; [done|]. by rewrite Hn'.
    + destruct (Htr i d0 c' j Hd0 Hj) as (? & ? & d1 & Hd1 & Hcl1).
      split; [done|]. split; [done|].
      destruct (Hback d1 Hd1) as (d' & Hd' & Hn').
      exists d'. split; [done|]. by rewrite Hn'.
  - intros i d Hd.
    apply lookup_set_transition in Hd as (d0 & Hd0 & Hn & _ & Ht).
    destruct (Hcomp i d0 Hd0) as [Hin|Hall]; [by left|]. right.
    intros c' Hal Hc' Hmv' Hdone. rewrite Hn in Hmv'. rewrite Ht.
    destruct (decide (i = cur)) as [->|Hne].
    + destruct (decide (c = c')) as [<-|Hcc].
      * rewrite lookup_insert_eq. by eexists.
      * rewrite lookup_insert_ne by done. apply Hall; try done.
        intros _. specialize (Hdone eq_refl).
        apply elem_of_cons in Hdone as [?|?]; [congruence|done].
    + apply Hall; try done.
  - intros i d Hd. apply lookup_set_transition in Hd as (d0 & Hd0 & Hn & _).
    rewrite Hn. by eapply Hst.
  - intros i Hi. rewrite length_alter. by apply Hpend.
Qed.

Lemma inv_skip cur done w c dcur :
  subset_inv h n al s0 cur done w →
  w_dfaStates w !! cur = Some dcur →
  c = epsilon ∨ move h (nfaStates dcur) c = ∅ →
  subset_inv h n al s0 cur (c :: done) w.
Proof.
  intros [Hmap Hfin Htr Hcomp Hst Hpend] Hcur Hskip.
  constructor; try done.
  intros i d Hd. destruct (Hcomp i d Hd) as [Hin|Hall]; [by left|]. right.
  intros c' Hal Hc' Hmv' Hdone. apply Hall; try done.
  intros ->. specialize (Hdone eq_refl).
  apply elem_of_cons in Hdone as [->|?]; [|done].
  assert (d = dcur) as -> by congruence. by destruct Hskip.
Qed.

Lemma measure_add_state w K i l :
  dfaStateMap w !! K = None → K ∈ all_subsets (length h) →
  subset_measure h (mkWork (<[K := i]> (dfaStateMap w)) l
                           (S (dfaStateCounter w)) (i :: unprocessed w))
  = subset_measure h w.
Proof.
  intros HK HU. unfold subset_measure. simpl. rewrite dom_insert_L.
  rewrite <- (size_difference_new (all_subsets (length h)) (dom (dfaStateMap w)) K);
    [lia|done|]. by apply not_elem_of_dom.
Qed.

End work_loop.

Section work_loop_run.
Context (h : list State) (Hwf : wf_heap h).
Context (n : nat) (Hn : length h ≤ n) (al : list ascii) (s0 : nat).

(** One symbol: the invariant is kept, the measure is unchanged, and the
    memo map and the state vector only grow. *)
Lemma process_symbol_spec cur done w c :
  subset_inv h n al s0 cur done w →
  cur < length (w_dfaStates w) →
  ∃ w', process_symbol n h cur (Some w) c = Some w'
        ∧ subset_inv h n al s0 cur (c :: done) w'
        ∧ subset_measure h w' = subset_measure h w
        ∧ cur < length (w_dfaStates w')
        ∧ ∀ K i, dfaStateMap w !! K = Some i → dfaStateMap w' !! K = Some i.
Proof.
  intros Hinv Hcur.
  destruct (lookup_lt_is_Some_2 _ _ Hcur) as [dcur Hdcur].
  unfold process_symbol. simpl.
  destruct (decide (c = epsilon)) as [Hc|Hc].
  { exists w. split; [done|]. split; [|done]. eapply inv_skip; eauto. }
  unfold nfaStates_of. rewrite Hdcur. simpl.
  destruct (decide (move h (nfaStates dcur) c = ∅)) as [Hmv|Hmv].
  { exists w. split; [done|]. split; [|done]. eapply inv_skip; eauto. }
  assert (∀ q, q ∈ move h (nfaStates dcur) c → q < length h ∧ reachable h s0 q)
    as Hmoved.
  { apply move_states; [done|]. by eapply (inv_states _ _ _ _ _ _ _ Hinv). }
  destruct (epsilonClosure_total h n (move h (nfaStates dcur) c)) as [K HK];
    [done| |done|].
  { intros q Hq. apply elem_of_universe. by apply Hmoved. }
  rewrite HK. simpl.
  assert (∀ q, q ∈ K → q < length h ∧ reachable h s0 q) as HKs.
  { by eapply epsilonClosure_states. }
  destruct (dfaStateMap w !! K) as [known|] eqn:Hknown.
  - apply (inv_map _ _ _ _ _ _ _ Hinv) in Hknown as Hd.
    destruct Hd as (dt & Hdt & HdtK). subst K.
    eexists. split; [done|]. split; [by eapply inv_set_transition|].
    split; [done|]. simpl. by rewrite length_alter.
  - eexists. split; [done|].
    pose proof (inv_add_state h n al s0 cur done w K Hinv Hknown HKs) as Hinv1.
    split.
    { eapply inv_set_transition; [exact Hinv1| | | | |]; simpl.
      - by apply lookup_app_l_Some.
      - done.
      - done.
      - rewrite lookup_app_r by done. by rewrite Nat.sub_diag.
      - done. }
    split.
    { unfold subset_measure at 1. simpl.
      apply (measure_add_state h w K (length (w_dfaStates w)) []); [done|].
      apply elem_of_all_subsets. intros q Hq. by apply HKs. }
    split.
    { simpl. rewrite length_alter, length_app. lia. }
    intros K' i HK'. simpl. rewrite lookup_insert_ne; [done|]. congruence.
Qed.

Lemma process_alphabet_spec cur l : ∀ done w,
  subset_inv h n al s0 cur done w →
  cur < length (w_dfaStates w) →
  ∃ w', foldl (process_symbol n h cur) (Some w) l = Some w'
        ∧ subset_inv h n al s0 cur (reverse l ++ done) w'
        ∧ subset_measure h w' = subset_measure h w
        ∧ ∀ K i, dfaStateMap w !! K = Some i → dfaStateMap w' !! K = Some i.
Proof.
  induction l as [|c l IH]; intros done w Hinv Hcur; cbn [foldl].
  - by exists w.
  - destruct (process_symbol_spec cur done w c Hinv Hcur)
      as (w1 & -> & Hinv1 & Hm1 & Hcur1 & Hmap1).
    destruct (IH (c :: done) w1 Hinv1 Hcur1) as (w' & Hrun & Hinv' & Hm' & Hmap').
    exists w'. split; [done|]. rewrite reverse_cons, <- app_assoc. simpl.
    split; [done|]. split; [congruence|]. auto.
Qed.

Lemma subset_loop_spec fuel : ∀ w,
  subset_inv h n al s0 0 al w →
  subset_measure h w ≤ fuel →
  ∃ w', subset_loop fuel n h al w = Some w'
        ∧ subset_inv h n al s0 0 al w'
        ∧ unprocessed w' = []
        ∧ ∀ K i, dfaStateMap w !! K = Some i → dfaStateMap w' !! K = Some i.
Proof.
  induction fuel as [|fuel IH]; intros w Hinv Hm.
  - destruct w as [m G k [|cur rest]]; simpl.
    + by exists (mkWork m G k []).
    + unfold subset_measure in Hm. simpl in Hm. lia.
  - destruct w as [m G k [|cur rest]]; simpl.
    { by exists (mkWork m G k []). }
    destruct Hinv as [Hmap Hfin Htr Hcomp Hst Hpend]. simpl in *.
    assert (subset_inv h n al s0 cur [] (mkWork m G k rest)) as Hpop.
    { constructor; simpl; try done.
      - intros i d Hd. destruct (Hcomp i d Hd) as [Hin|Hall].
        + apply elem_of_cons in Hin as [->|Hin]; [|by left].
          right. intros c _ _ _ Hdone. specialize (Hdone eq_refl).
          by apply elem_of_nil in Hdone.
        + right. intros c Hal Hc Hmv _. by apply Hall.
      - intros i Hi. apply Hpend. apply elem_of_cons. by right. }
    destruct (process_alphabet_spec cur al [] (mkWork m G k rest) Hpop)
      as (w1 & -> & Hinv1 & Hm1 & Hmap1).
    { simpl. apply Hpend. apply elem_of_cons. by left. }
    simpl. rewrite app_nil_r in Hinv1.
    destruct (IH w1) as (w' & Hrun & Hinv' & Hnil & Hmap').
    + destruct Hinv1 as [Hmap' Hfin' Htr' Hcomp' Hst' Hpend'].
      constructor; try done.
      intros i d Hd. destruct (Hcomp' i d Hd) as [Hin|Hall]; [by left|].
      right. intros c Hal Hc Hmv _. apply Hall; try done.
      intros _. by apply elem_of_reverse.
    + unfold subset_measure in *. simpl in *. lia.
    + exists w'. split; [done|]. split; [done|]. split; [done|].
      intros K i HK. apply Hmap', Hmap1. done.
Qed.

End work_loop_run.

Section convert.
Context (b : Builder) (nfa : NFAPtr).
Context (Hwf : wf_heap (states b)) (Hstart : start nfa < length (states b)).

(** With enough fuel [convertToDFA] returns; the work loop ends with an
    empty stack in a state that satisfies the invariant, the start subset
    is the closure of the fragment's start, and the alphabet is complete
    for the reachable states. *)
Lemma convertToDFA_spec fuel :
  length (states b) + size (all_subsets (length (states b))) + 1 ≤ fuel →
  ∃ A K0 w,
    epsilonClosure fuel (states b) {[start nfa]} ∅ = Some K0
    ∧ convertToDFA fuel b nfa = Some (mkDFA (w_dfaStates w) 0)
    ∧ subset_inv (states b) fuel (chars_in_order A) (start nfa) 0
                 (chars_in_order A) w
    ∧ unprocessed w = []
    ∧ (∃ d0, w_dfaStates w !! 0 = Some d0 ∧ nfaStates d0 = K0)
    ∧ ∀ q c r, reachable (states b) (start nfa) q →
               r ∈ targets (states b) q c → c ≠ epsilon →
               c ∈ chars_in_order A.
Proof.
  intros Hfuel. set (h := states b) in *.
  destruct (getAlphabet_spec h fuel nfa Hwf) as (A & HA & Hcomplete);
    [done|lia|].
  assert (∀ q, q ∈ ({[start nfa]} : gset nat) →
               q < length h ∧ reachable h (start nfa) q) as Hs0.
  { intros q Hq. apply elem_of_singleton in Hq as ->.
    split; [done|constructor]. }
  destruct (epsilonClosure_total h fuel {[start nfa]}) as [K0 HK0];
    [done| |lia|].
  { intros q Hq. apply elem_of_universe. by apply Hs0. }
  assert (∀ q, q ∈ K0 → q < length h ∧ reachable h (start nfa) q) as HK0s.
  { by eapply epsilonClosure_states. }
  set (d0 := mkDFAState 0 K0 ∅ (any_final h K0)).
  set (w0 := mkWork {[K0 := 0]} [d0] 1 [0]).
  assert (subset_inv h fuel (chars_in_order A) (start nfa) 0
                     (chars_in_order A) w0) as Hinv0.
  { constructor; simpl.
    - intros K i. rewrite lookup_singleton_Some. split.
      + intros [<- <-]. by exists d0.
      + intros (d & Hd & HK). apply list_lookup_singleton_Some in Hd as [-> <-].
        done.
    - intros i d Hd. by apply list_lookup_singleton_Some in Hd as [-> <-].
    - intros i d c j Hd. apply list_lookup_singleton_Some in Hd as [-> <-].
      done.
    - intros i d Hd. apply list_lookup_singleton_Some in Hd as [-> <-].
      left. apply elem_of_cons. by left.
    - intros i d Hd. by apply list_lookup_singleton_Some in Hd as [-> <-].
    - intros i Hi. apply list_elem_of_singleton in Hi as ->. lia. }
  destruct (subset_loop_spec h Hwf fuel ltac:(lia) (chars_in_order A)
              (start nfa) fuel w0 Hinv0) as (w & Hrun & Hinv & Hnil & Hmap).
  { unfold subset_measure. simpl.
    pose proof (subseteq_size
      (all_subsets (length h) ∖ dom ({[K0 := 0]} : gmap (gset nat) nat))
      (all_subsets (length h)) ltac:(set_solver)). lia. }
  exists A, K0, w. split; [done|]. split.
  { unfold convertToDFA. fold h. rewrite HA. simpl. rewrite HK0. simpl.
    fold d0 w0. by rewrite Hrun. }
  split; [done|]. split; [done|]. split.
  { apply (inv_map _ _ _ _ _ _ _ Hinv). apply Hmap. simpl.
    by rewrite lookup_singleton_eq. }
  intros q c r Hq Hr Hc. rewrite chars_in_order_elem. by eapply Hcomplete.
Qed.

End convert.

Lemma simulate_run_dead n h word : simulate_run n h ∅ word = Some ∅.
Proof.
  induction word as [|c word IH]; simpl; [done|].
  unfold simulate_step. destruct (decide (c = epsilon)); simpl; [done|].
  by rewrite move_empty, epsilonClosure_empty.
Qed.

Section equivalence.
Context (h : list State) (n : nat) (al : list ascii) (s0 : nat) (w : Work).
Context (Hinv : subset_inv h n al s0 0 al w) (Hnil : unprocessed w = []).
Context (Hal : ∀ q c r, reachable h s0 q → r ∈ targets h q c →
                        c ≠ epsilon → c ∈ al).

Lemma no_transition_no_move i d c :
  w_dfaStates w !! i = Some d → dfa_transitions d !! c = None →
  c ≠ epsilon → move h (nfaStates d) c = ∅.
Proof.
  intros Hd Hnone Hc.
  destruct (decide (move h (nfaStates d) c = ∅)) as [|Hmv]; [done|].
  exfalso.
  assert (c ∈ al) as Hin.
  { apply set_choose_L in Hmv as [q Hq].
    apply elem_of_move in Hq as (s & Hs & Hq).
    eapply Hal; [|done|done].
    by eapply (inv_states _ _ _ _ _ _ _ Hinv). }
  destruct (inv_complete _ _ _ _ _ _ _ Hinv i d Hd) as [Hpend|Hall].
  - rewrite Hnil in Hpend. by apply elem_of_nil in Hpend.
  - destruct (Hall c Hin Hc Hmv) as [j Hj]; [done|]. congruence.
Qed.

(** The DFA state reached on a word carries the set of NFA states the
    simulation reaches; where the DFA has no transition the simulation has
    run empty. *)
Lemma dfa_run_simulates word : ∀ i d,
  w_dfaStates w !! i = Some d →
  match dfa_run (w_dfaStates w) i word with
  | Some j => ∃ d', w_dfaStates w !! j = Some d'
                    ∧ simulate_run n h (nfaStates d) word = Some (nfaStates d')
  | None => simulate_run n h (nfaStates d) word = Some ∅
  end.
Proof.
  induction word as [|c word IH]; intros i d Hd; simpl.
  - by exists d.
  - rewrite Hd. simpl. unfold simulate_step.
    destruct (dfa_transitions d !! c) as [j|] eqn:Hj; simpl.
    + destruct (inv_trans _ _ _ _ _ _ _ Hinv i d c j Hd Hj)
        as (Hc & Hmv & d' & Hd' & Hcl).
      rewrite decide_False by done. rewrite Hcl. simpl. by apply IH.
    + destruct (decide (c = epsilon)); simpl; [apply simulate_run_dead|].
      rewrite (no_transition_no_move i d c) by done.
      rewrite epsilonClosure_empty. simpl. apply simulate_run_dead.
Qed.

End equivalence.

(** ** Builder operations keep the builder well formed *)

Lemma hoare_ret {A} (P : Builder → Prop) (a : A) (Q : A → Builder → Prop) E :
  (∀ b, P b → Q a b) → hoare P (mret a) Q E.
Proof. intros HPQ b Hb. by apply HPQ. Qed.

Lemma hoare_bind {A B} P (m : M A) (f : A → M B) Q R E :
  hoare P m Q E → (∀ a, hoare (Q a) (f a) R E) → hoare P (m ≫= f) R E.
Proof.
  intros Hm Hf b Hb. specialize (Hm b Hb).
  unfold mbind, M_bind. destruct (m b) as [b' [a|what|]]; [|done|done].
  by apply Hf.
Qed.

Lemma hoare_post {A} P (m : M A) (Q Q' : A → Builder → Prop) E :
  hoare P m Q E → (∀ a b, Q a b → Q' a b) → hoare P m Q' E.
Proof.
  intros Hm HQ b Hb. specialize (Hm b Hb).
  destruct (m b) as [b' [a|what|]]; auto.
Qed.

Lemma hoare_run {A} P (m : M A) Q E b b' a :
  hoare P m Q E → P b → m b = (b', Ok a) → Q a b'.
Proof. intros Hm Hb Hrun. specialize (Hm b Hb). by rewrite Hrun in Hm. Qed.

Lemma hoare_run_throw {A} P (m : M A) Q E b b' what :
  hoare P m Q E → P b → m b = (b', Throw what) → E b'.
Proof. intros Hm Hb Hrun. specialize (Hm b Hb). by rewrite Hrun in Hm. Qed.

Lemma okb_weaken ps ps' b : (∀ p, p ∈ ps' → p ∈ ps) → okb ps b → okb ps' b.
Proof. intros Hsub [Hwf Hps]. split; [done|]. intros p Hp. by apply Hps, Hsub. Qed.

Lemma createState_hoare ps E :
  hoare (okb ps) createState (λ p, okb (p :: ps)) E.
Proof.
  intros b [[Hcnt Hwf] Hps]. unfold createState. simpl.
  split; [split|]; simpl.
  - rewrite length_app. simpl. lia.
  - intros i st Hst. rewrite length_app. simpl.
    apply lookup_app_Some in Hst as [Hst|[Hi Hst]].
    + destruct (Hwf i st Hst) as [Hid Htg]. split; [done|].
      intros c q Hq. specialize (Htg c q Hq). lia.
    + apply list_lookup_singleton_Some in Hst as [Hz <-]. simpl.
      split; [lia|]. intros c q Hq. rewrite lookup_empty in Hq.
      by apply elem_of_nil in Hq.
  - intros p Hp. rewrite length_app. simpl.
    apply elem_of_cons in Hp as [->|Hp]; [lia|]. specialize (Hps p Hp). lia.
Qed.

Lemma add_transition_hoare ps p c q E :
  q ∈ ps → hoare (okb ps) (add_transition p c q) (λ _, okb ps) E.
Proof.
  intros Hq b [[Hcnt Hwf] Hps]. unfold add_transition. simpl.
  split; [split|]; simpl.
  - by rewrite length_alter.
  - intros i st Hst. rewrite length_alter.
    destruct (decide (p = i)) as [->|Hne].
    + rewrite list_lookup_alter_eq in Hst.
      destruct (states b !! i) as [st0|] eqn:Hst0; [|done].
      injection Hst as <-. destruct (Hwf i st0 Hst0) as [Hid Htg].
      split; [done|]. intros c' q'. simpl.
      destruct (decide (c = c')) as [<-|Hcc].
      * rewrite lookup_insert_eq. simpl. intros Hin.
        apply elem_of_app in Hin as [Hin|Hin]; [by apply (Htg c)|].
        apply list_elem_of_singleton in Hin as ->. by apply Hps.
      * rewrite lookup_insert_ne by done. apply Htg.
    + rewrite list_lookup_alter_ne in Hst by done. by apply Hwf.
  - intros p' Hp'. rewrite length_alter. by apply Hps.
Qed.

Lemma set_isFinal_hoare ps p v E :
  hoare (okb ps) (set_isFinal p v) (λ _, okb ps) E.
Proof.
  intros b [[Hcnt Hwf] Hps]. unfold set_isFinal. simpl.
  split; [split|]; simpl.
  - by rewrite length_alter.
  - intros i st Hst. rewrite length_alter.
    destruct (decide (p = i)) as [->|Hne].
    + rewrite list_lookup_alter_eq in Hst.
      destruct (states b !! i) as [st0|] eqn:Hst0; [|done].
      injection Hst as <-. simpl. by apply (Hwf i st0).
    + rewrite list_lookup_alter_ne in Hst by done. by apply Hwf.
  - intros p' Hp'. rewrite length_alter. by apply Hps.
Qed.

Lemma lift_outcome_hoare {A} (P E : Builder → Prop) (o : outcome A) :
  (∀ b, P b → E b) → hoare P (lift_outcome o) (λ _, P) E.
Proof. intros HPE b Hb. unfold lift_outcome. destruct o; auto. Qed.

Lemma add_class_transitions_hoare ps s e validChars E :
  e ∈ ps →
  hoare (okb ps) (add_class_transitions s e validChars) (λ _, okb ps) E.
Proof.
  intros He. unfold add_class_transitions.
  assert (∀ l (m : M unit),
    hoare (okb ps) m (λ _, okb ps) E →
    hoare (okb ps) (foldl (λ (m : M unit) c, m;; add_transition s c e) m l)
          (λ _, okb ps) E) as Hfold.
  { induction l as [|c l IH]; intros m Hm; simpl; [done|].
    apply IH. eapply hoare_bind; [exact Hm|]. intros [].
    by apply add_transition_hoare. }
  apply Hfold. by apply hoare_ret.
Qed.

(** One step of a builder function: bind, then the fact about the
    operation at its head. *)
Ltac in_list :=
  repeat first [ apply list_elem_of_here | apply list_elem_of_further ];
  try assumption.

Ltac hoare_step :=
  eapply hoare_bind;
  [ first [ apply createState_hoare
          | apply add_transition_hoare; in_list
          | apply set_isFinal_hoare
          | apply lift_outcome_hoare; intros ?; apply okb_weaken; intros ? ?; in_list
          | apply add_class_transitions_hoare; in_list ]
  | intros ? ].

Ltac hoare_done :=
  apply hoare_ret; intros ?; apply okb_weaken; simpl; intros ? Hin;
  repeat (apply elem_of_cons in Hin as [->|Hin]; [in_list|]);
  in_list.

Lemma concatenate_hoare ps x y E :
  start x ∈ ps → end_ x ∈ ps → start y ∈ ps → end_ y ∈ ps →
  hoare (okb ps) (concatenate x y) (λ f, okb (start f :: end_ f :: ps)) E.
Proof.
  intros ????. unfold concatenate. do 2 hoare_step. hoare_done.
Qed.

Lemma unionNFA_hoare ps x y E :
  start x ∈ ps → end_ x ∈ ps → start y ∈ ps → end_ y ∈ ps →
  hoare (okb ps) (unionNFA x y) (λ f, okb (start f :: end_ f :: ps)) E.
Proof.
  intros ????. unfold unionNFA. do 9 hoare_step. hoare_done.
Qed.

Lemma kleeneStar_hoare ps x E :
  start x ∈ ps → end_ x ∈ ps →
  hoare (okb ps) (kleeneStar x) (λ f, okb (start f :: end_ f :: ps)) E.
Proof.
  intros ??. unfold kleeneStar. do 8 hoare_step. hoare_done.
Qed.

Lemma oneOrMore_hoare ps x E :
  start x ∈ ps → end_ x ∈ ps →
  hoare (okb ps) (oneOrMore x) (λ f, okb (start f :: end_ f :: ps)) E.
Proof.
  intros ??. unfold oneOrMore.
  eapply hoare_bind; [by apply kleeneStar_hoare|]. intros star.
  eapply hoare_post.
  - apply concatenate_hoare; in_list.
  - intros f b. apply okb_weaken. intros p Hp.
    repeat (apply elem_of_cons in Hp as [->|Hp]; [in_list|]). in_list.
Qed.

Lemma zeroOrOne_hoare ps x E :
  start x ∈ ps → end_ x ∈ ps →
  hoare (okb ps) (Final.zeroOrOne x) (λ f, okb (start f :: end_ f :: ps)) E.
Proof.
  intros ??. unfold Final.zeroOrOne. do 7 hoare_step. hoare_done.
Qed.

Lemma createCharNFA_hoare src ps c :
  hoare (okb ps) (createCharNFA_of src c)
        (λ f, okb (start f :: end_ f :: ps)) (okb ps).
Proof.
  destruct src; simpl.
  - unfold Final.createCharNFA. do 3 hoare_step. hoare_done.
  - unfold Chess.createCharNFA. do 4 hoare_step. hoare_done.
Qed.

Lemma createCharClassNFA_hoare src ps cls :
  hoare (okb ps) (createCharClassNFA_of src cls)
        (λ f, okb (start f :: end_ f :: ps)) (okb ps).
Proof.
  destruct src; simpl.
  - unfold Final.createCharClassNFA. do 4 hoare_step. hoare_done.
  - unfold Chess.createCharClassNFA. do 5 hoare_step. hoare_done.
Qed.

(** Every builder reached by combinator calls is well formed, and the
    fragments it returned point into it. *)
Lemma Built_okb src b fs :
  Built src b fs → okb (fs ≫= λ f, [start f; end_ f]) b.
Proof.
  assert (∀ (x : NFAPtr) fs, x ∈ fs →
            start x ∈ (fs ≫= λ f, [start f; end_ f])
            ∧ end_ x ∈ (fs ≫= λ f, [start f; end_ f])) as Hin.
  { intros x fs0 Hx. split; apply list_elem_of_bind; exists x;
      (split; [|done]); in_list. }
  induction 1 as [|b fs c b' f _ IH Hrun|b fs cls b' f _ IH Hrun
                  |b fs cls b' what _ IH Hrun
                  |b fs x y b' f _ IH Hx Hy Hrun|b fs x y b' f _ IH Hx Hy Hrun
                  |b fs x b' f _ IH Hx Hrun|b fs x b' f _ IH Hx Hrun
                  |b fs x b' f _ _ IH Hx Hrun].
  - split; [split; [done|]|]; simpl.
    + intros i st Hst. by rewrite lookup_nil in Hst.
    + intros p Hp. by apply elem_of_nil in Hp.
  - exact (hoare_run _ _ _ _ _ _ _ (createCharNFA_hoare src _ c) IH Hrun).
  - exact (hoare_run _ _ _ _ _ _ _ (createCharClassNFA_hoare src _ cls) IH Hrun).
  - exact (hoare_run_throw _ _ _ _ _ _ _ (createCharClassNFA_hoare src _ cls) IH Hrun).
  - destruct (Hin x fs Hx), (Hin y fs Hy).
    exact (hoare_run _ _ _ _ _ _ _ (concatenate_hoare _ x y (λ _, True) ltac:(done)
             ltac:(done) ltac:(done) ltac:(done)) IH Hrun).
  - destruct (Hin x fs Hx), (Hin y fs Hy).
    exact (hoare_run _ _ _ _ _ _ _ (unionNFA_hoare _ x y (λ _, True) ltac:(done)
             ltac:(done) ltac:(done) ltac:(done)) IH Hrun).
  - destruct (Hin x fs Hx).
    exact (hoare_run _ _ _ _ _ _ _ (kleeneStar_hoare _ x (λ _, True) ltac:(done)
             ltac:(done)) IH Hrun).
  - destruct (Hin x fs Hx).
    exact (hoare_run _ _ _ _ _ _ _ (oneOrMore_hoare _ x (λ _, True) ltac:(done)
             ltac:(done)) IH Hrun).
  - destruct (Hin x fs Hx).
    exact (hoare_run _ _ _ _ _ _ _ (zeroOrOne_hoare _ x (λ _, True) ltac:(done)
             ltac:(done)) IH Hrun).
Qed.

Lemma Built_valid src b fs nfa :
  Built src b fs → nfa ∈ fs →
  wf_heap (states b) ∧ start nfa < length (states b).
Proof.
  intros Hb Hin. destruct (Built_okb src b fs Hb) as [[_ Hwf] Hps].
  split; [done|]. apply Hps. apply list_elem_of_bind. exists nfa.
  split; [|done]. in_list.
Qed.

(** ** The DFA of a fragment *)

Lemma any_final_empty h : any_final h ∅ = false.
Proof. unfold any_final. by rewrite elements_empty. Qed.

(** C1.  For every fragment built by the combinators, [convertToDFA] returns
    a DFA (given enough fuel), and on every input string the NFA, simulated
    with [epsilonClosure], accepts exactly when that DFA accepts. *)
Theorem convertToDFA_equivalent src b fs nfa :
  Built src b fs → nfa ∈ fs →
  ∃ fuel0, ∀ fuel, fuel0 ≤ fuel →
    ∃ dfa, convertToDFA fuel b nfa = Some dfa
           ∧ ∀ w, simulateNFA fuel b nfa w = Some (acceptsDFA dfa w).
Proof.
  intros Hb Hin. destruct (Built_valid src b fs nfa Hb Hin) as [Hwf Hstart].
  exists (length (states b) + size (all_subsets (length (states b))) + 1).
  intros fuel Hfuel.
  destruct (convertToDFA_spec b nfa Hwf Hstart fuel Hfuel)
    as (A & K0 & w & HK0 & Hrun & Hinv & Hnil & (d0 & Hd0 & HdK) & Hal).
  eexists. split; [exact Hrun|]. intros word.
  unfold simulateNFA, acceptsDFA. rewrite HK0. simpl. subst K0.
  pose proof (dfa_run_simulates _ _ _ _ _ Hinv Hnil Hal word 0 d0 Hd0) as Hsim.
  destruct (dfa_run (w_dfaStates w) 0 word) as [j|].
  - destruct Hsim as (d' & Hd' & ->). simpl. rewrite Hd'. simpl.
    f_equal. symmetry. by eapply (inv_final _ _ _ _ _ _ _ Hinv).
  - rewrite Hsim. simpl. by rewrite any_final_empty.
Qed.

Lemma convertToDFA_equivalent_witness :
  ∃ fuel0, ∀ fuel, fuel0 ≤ fuel →
    ∃ dfa,
      convertToDFA fuel (Chess.createCharNFA "a" newBuilder).1 (mkNFAPtr 0 1)
        = Some dfa
      ∧ ∀ w, simulateNFA fuel (Chess.createCharNFA "a" newBuilder).1
                         (mkNFAPtr 0 1) w
             = Some (acceptsDFA dfa w).
Proof.
  apply (convertToDFA_equivalent ChessNotCpp _ [mkNFAPtr 0 1]).
  - apply (Built_char ChessNotCpp newBuilder [] "a"%char).
    + apply Built_new.
    + reflexivity.
  - apply list_elem_of_here.
Defined.

(** C5.  The DFA that [convertToDFA] returns for a fragment built by the
    combinators has at most one successor per state and symbol, no
    transition on the epsilon sentinel, and no two states with the same set
    of NFA states. *)
Theorem convertToDFA_deterministic src b fs nfa :
  Built src b fs → nfa ∈ fs →
  ∃ fuel0, ∀ fuel, fuel0 ≤ fuel →
    ∃ dfa, convertToDFA fuel b nfa = Some dfa
      ∧ (∀ i d c j1 j2,
           dfaStates dfa !! i = Some d →
           dfa_transitions d !! c = Some j1 → dfa_transitions d !! c = Some j2 →
           j1 = j2)
      ∧ (∀ i d c j,
           dfaStates dfa !! i = Some d → dfa_transitions d !! c = Some j →
           c ≠ epsilon ∧ j < length (dfaStates dfa))
      ∧ (∀ i j di dj,
           dfaStates dfa !! i = Some di → dfaStates dfa !! j = Some dj →
           nfaStates di = nfaStates dj → i = j).
Proof.
  intros Hb Hin. destruct (Built_valid src b fs nfa Hb Hin) as [Hwf Hstart].
  exists (length (states b) + size (all_subsets (length (states b))) + 1).
  intros fuel Hfuel.
  destruct (convertToDFA_spec b nfa Hwf Hstart fuel Hfuel)
    as (A & K0 & w & HK0 & Hrun & Hinv & Hnil & _ & _).
  eexists. split; [exact Hrun|]. simpl. split; [|split].
  - intros i d c j1 j2 _ H1 H2. congruence.
  - intros i d c j Hd Hj.
    destruct (inv_trans _ _ _ _ _ _ _ Hinv i d c j Hd Hj) as (Hc & _ & d' & Hd' & _).
    split; [done|]. by eapply lookup_lt_Some.
  - intros i j di dj Hi Hj Heq.
    assert (dfaStateMap w !! nfaStates di = Some i) as Hmi.
    { apply (inv_map _ _ _ _ _ _ _ Hinv). eauto. }
    assert (dfaStateMap w !! nfaStates di = Some j) as Hmj.
    { apply (inv_map _ _ _ _ _ _ _ Hinv). exists dj. split; [done|]. done. }
    congruence.
Qed.

Lemma convertToDFA_deterministic_witness :
  ∃ fuel0, ∀ fuel, fuel0 ≤ fuel →
    ∃ dfa,
      convertToDFA fuel (Chess.createCharNFA "a" newBuilder).1 (mkNFAPtr 0 1)
        = Some dfa
      ∧ (∀ i d c j1 j2,
           dfaStates dfa !! i = Some d →
           dfa_transitions d !! c = Some j1 → dfa_transitions d !! c = Some j2 →
           j1 = j2)
      ∧ (∀ i d c j,
           dfaStates dfa !! i = Some d → dfa_transitions d !! c = Some j →
           c ≠ epsilon ∧ j < length (dfaStates dfa))
      ∧ (∀ i j di dj,
           dfaStates dfa !! i = Some di → dfaStates dfa !! j = Some dj →
           nfaStates di = nfaStates dj → i = j).
Proof.
  apply (convertToDFA_deterministic ChessNotCpp _ [mkNFAPtr 0 1]).
  - apply (Built_char ChessNotCpp newBuilder [] "a"%char).
    + apply Built_new.
    + reflexivity.
  - apply list_elem_of_here.
Defined.

(** ** Character classes *)

Lemma any_final_true h (S : gset nat) p st :
  p ∈ S → h !! p = Some st → isFinal st = true → any_final h S = true.
Proof.
  intros Hp Hst Hfin. unfold any_final. apply existsb_exists.
  exists p. split; [|by rewrite Hst].
  apply list_elem_of_In. by apply elem_of_elements.
Qed.

(** The loop over [validChars] as a function on the vector of states. *)
Lemma add_class_transitions_run s e (V : gset ascii) b :
  add_class_transitions s e V b
  = (mkBuilder (foldl (λ h c, alter (push_transition c e) s h) (states b)
                      (chars_in_order V))
               (stateCounter b), Ok ()).
Proof.
  unfold add_class_transitions.
  assert (∀ l (m : M unit) (g : list State → list State),
    (∀ b, m b = (mkBuilder (g (states b)) (stateCounter b), Ok ())) →
    ∀ b, foldl (λ (m : M unit) c, m;; add_transition s c e) m l b
         = (mkBuilder (foldl (λ h c, alter (push_transition c e) s h)
                             (g (states b)) l)
                      (stateCounter b), Ok ())) as Hfold.
  { induction l as [|x l IH]; intros m g Hm b0; simpl; [done|].
    apply (IH _ (λ h, alter (push_transition x e) s (g h))).
    intros b1. unfold mbind, M_bind. by rewrite Hm. }
  apply (Hfold _ _ (λ h, h)). intros b0. by destruct b0.
Qed.

(** Only the state [s] changes, and it gains exactly the transitions
    [c → e] for the characters [c] of the list. *)
Lemma class_transitions_heap s e l : ∀ h,
  length (foldl (λ h c, alter (push_transition c e) s h) h l) = length h
  ∧ (∀ i, i ≠ s →
       foldl (λ h c, alter (push_transition c e) s h) h l !! i = h !! i)
  ∧ ∀ st, h !! s = Some st →
      ∃ st', foldl (λ h c, alter (push_transition c e) s h) h l !! s = Some st'
        ∧ isFinal st' = isFinal st
        ∧ ∀ c q, q ∈ default [] (transitions st' !! c)
                 ↔ q ∈ default [] (transitions st !! c) ∨ (q = e ∧ c ∈ l).
Proof.
  induction l as [|x l IH]; intros h; simpl.
  - split; [done|]. split; [done|]. intros st Hst. exists st.
    split; [done|]. split; [done|]. intros c q. rewrite elem_of_nil. tauto.
  - destruct (IH (alter (push_transition x e) s h)) as (Hlen & Hother & Hs).
    rewrite length_alter in Hlen. split; [done|]. split.
    { intros i Hi. rewrite Hother by done. by rewrite list_lookup_alter_ne. }
    intros st Hst.
    destruct (Hs (push_transition x e st)) as (st' & Hst' & Hfin & Htr).
    { by rewrite list_lookup_alter_eq, Hst. }
    exists st'. split; [done|]. split; [done|]. intros c q.
    rewrite Htr, elem_of_cons. simpl.
    destruct (decide (x = c)) as [<-|Hne].
    + rewrite lookup_insert_eq. simpl. rewrite elem_of_app, list_elem_of_singleton.
      tauto.
    + rewrite lookup_insert_ne by done. split; [tauto|].
      intros [?|[? [?|?]]]; [tauto|congruence|tauto].
Qed.

Section chess_class.
Context (b : Builder) (cls : list ascii) (V : gset ascii).
Context (Hwf : wf_builder b).
Context (Hparse : Chess.parseCharacterClass cls ∅ = Ok V).

Let s := length (states b).
Let e := S (length (states b)).

(** The fragment [Chess.createCharClassNFA] returns and the shape of its
    two states. *)
Lemma chess_class_shape :
  ∃ b', Chess.createCharClassNFA cls b = (b', Ok (mkNFAPtr s e))
    ∧ wf_heap (states b') ∧ length (states b') = S (S (length (states b)))
    ∧ (∀ c q, q ∈ targets (states b') s c ↔ q = e ∧ c ∈ V)
    ∧ (∀ c, targets (states b') e c = [])
    ∧ ∃ st, states b' !! e = Some st ∧ isFinal st = true.
Proof using Hwf Hparse.
  pose proof (createCharClassNFA_hoare ChessNotCpp [] cls b) as Hh.
  assert (okb [] b) as Hok.
  { split; [done|]. intros p Hp. by apply elem_of_nil in Hp. }
  specialize (Hh Hok). simpl in Hh.
  unfold Chess.createCharClassNFA in *. unfold mbind, M_bind in *.
  unfold createState in *. simpl in *. unfold lift_outcome in *.
  rewrite Hparse in *. rewrite add_class_transitions_run in *. simpl in *.
  rewrite !length_app in *. simpl in *.
  replace (length (states b) + 1) with e in * by (unfold e; lia).
  fold s in Hh |- *.
  eexists. split; [reflexivity|]. destruct Hh as [[_ Hwf'] _].
  simpl in *. split; [exact Hwf'|].
  set (h0 := (states b ++ [mkState (stateCounter b) ∅ false])
               ++ [mkState (S (stateCounter b)) ∅ false]) in *.
  destruct (class_transitions_heap s e (chars_in_order V) h0)
    as (Hlen & Hother & Hs).
  assert (h0 !! s = Some (mkState (stateCounter b) ∅ false)) as Hs0.
  { unfold h0. rewrite lookup_app_l by (rewrite length_app; simpl; lia).
    rewrite lookup_app_r by done. by rewrite Nat.sub_diag. }
  assert (h0 !! e = Some (mkState (S (stateCounter b)) ∅ false)) as He0.
  { unfold h0. rewrite lookup_app_r by (rewrite length_app; simpl; lia).
    rewrite length_app. simpl. unfold e.
    by replace (S (length (states b)) - (length (states b) + 1)) with 0 by lia. }
  assert (s ≠ e) as Hse by (unfold s, e; lia).
  split.
  { rewrite length_alter, Hlen. unfold h0. rewrite !length_app. simpl. lia. }
  destruct (Hs _ Hs0) as (st' & Hst' & _ & Htr).
  split; [|split].
  - intros c q. unfold targets. rewrite list_lookup_alter_ne by done.
    rewrite Hst', Htr. simpl. rewrite lookup_empty. simpl.
    rewrite elem_of_nil, chars_in_order_elem. tauto.
  - intros c. unfold targets. rewrite list_lookup_alter_eq.
    rewrite Hother by done. rewrite He0. simpl. by rewrite lookup_empty.
  - rewrite list_lookup_alter_eq, Hother by done. rewrite He0. simpl.
    by eexists.
Qed.
End chess_class.

(** C2, as amended.  In chessNot.cpp, for every class that
    [parseCharacterClass] accepts and every member [c] other than the
    epsilon sentinel, the fragment of [createCharClassNFA] accepts the
    one-character string [c]. *)
Theorem chess_class_accepts_members b cls V :
  wf_builder b →
  Chess.parseCharacterClass cls ∅ = Ok V →
  ∃ b' f, Chess.createCharClassNFA cls b = (b', Ok f)
    ∧ ∃ fuel0, ∀ fuel, fuel0 ≤ fuel →
        ∀ c, c ∈ V → c ≠ epsilon → simulateNFA fuel b' f [c] = Some true.
Proof.
  intros Hwf Hparse.
  destruct (chess_class_shape b cls V Hwf Hparse)
    as (b' & Hrun & Hwf' & Hlen & Hs & He & st & Hst & Hfin).
  set (s := length (states b)) in *. set (e := S (length (states b))) in *.
  exists b', (mkNFAPtr s e). split; [done|].
  exists (length (states b')). intros fuel Hfuel c Hc Hne.
  unfold simulateNFA. simpl.
  destruct (epsilonClosure_total (states b') fuel {[s]} Hwf') as [K0 HK0];
    [|done|].
  { intros q Hq. apply elem_of_singleton in Hq as ->.
    apply elem_of_universe. unfold s. lia. }
  rewrite HK0. simpl. unfold simulate_step. rewrite decide_False by done.
  assert (s ∈ K0) as Hs0.
  { apply (epsilonClosure_extends _ _ _ _ HK0). by apply elem_of_singleton. }
  assert (∀ x, x ∈ K0 → x = s ∨ x = e) as HK0s.
  { apply (epsilonClosure_inv (states b') (λ x, x = s ∨ x = e) fuel {[s]} K0);
      [|done|].
    - intros p q [-> | ->] Hq.
      + apply Hs in Hq as [-> _]. by right.
      + rewrite He in Hq. by apply elem_of_nil in Hq.
    - intros x Hx. apply elem_of_singleton in Hx. by left. }
  assert (move (states b') K0 c = {[e]}) as ->.
  { apply set_eq. intros q. rewrite elem_of_move, elem_of_singleton. split.
    - intros (x & Hx & Hq). destruct (HK0s x Hx) as [-> | ->].
      + by apply Hs in Hq as [-> _].
      + rewrite He in Hq. by apply elem_of_nil in Hq.
    - intros ->. exists s. split; [done|]. by apply Hs. }
  destruct (epsilonClosure_total (states b') fuel {[e]} Hwf') as [K1 HK1];
    [|done|].
  { intros q Hq. apply elem_of_singleton in Hq as ->.
    apply elem_of_universe. unfold e. lia. }
  rewrite HK1. simpl. f_equal. eapply (any_final_true _ _ e); [|done|done].
  apply (epsilonClosure_extends _ _ _ _ HK1). by apply elem_of_singleton.
Qed.

Lemma chess_class_accepts_members_witness :
  wf_builder newBuilder
  ∧ Chess.parseCharacterClass (str "[a-h]") ∅
    = Ok (list_to_set (str "abcdefgh"))
  ∧ ∃ b' f, Chess.createCharClassNFA (str "[a-h]") newBuilder = (b', Ok f)
    ∧ ∃ fuel0, ∀ fuel, fuel0 ≤ fuel →
        ∀ c, c ∈ (list_to_set (str "abcdefgh") : gset ascii) → c ≠ epsilon →
             simulateNFA fuel b' f [c] = Some true.
Proof.
  assert (wf_builder newBuilder) as Hwf.
  { split; [reflexivity|]. intros i st Hst. simpl in Hst. by rewrite lookup_nil in Hst. }
  assert (Chess.parseCharacterClass (str "[a-h]") ∅
          = Ok (list_to_set (str "abcdefgh"))) as Hparse.
  { vm_compute. reflexivity. }
  split; [exact Hwf|]. split; [exact Hparse|].
  exact (chess_class_accepts_members newBuilder (str "[a-h]") _ Hwf Hparse).
Defined.

(** C2 as stated fails.  In chessNot.cpp the class ["[\0]"] has the member
    ['\0'], which becomes an epsilon edge: the fragment and its DFA reject
    the one-character string of it.  In Final.cpp the end state of a class
    is not marked final: the fragment of ["[0-9]"] and its DFA reject the
    member ['5']. *)
Lemma class_member_not_accepted :
  (Chess.parseCharacterClass ["["; epsilon; "]"]%char ∅ = Ok {[epsilon]}
   ∧ let r := Chess.createCharClassNFA ["["; epsilon; "]"]%char newBuilder in
     r.2 = Ok (mkNFAPtr 0 1)
     ∧ simulateNFA 8 r.1 (mkNFAPtr 0 1) [epsilon] = Some false
     ∧ (dfa ← convertToDFA 8 r.1 (mkNFAPtr 0 1); Some (acceptsDFA dfa [epsilon]))
       = Some false)
  ∧ (Final.parseCharacterClass (str "[0-9]") ∅ = Ok (list_to_set (str "0123456789"))
     ∧ let r := Final.createCharClassNFA (str "[0-9]") newBuilder in
       r.2 = Ok (mkNFAPtr 0 1)
       ∧ simulateNFA 8 r.1 (mkNFAPtr 0 1) (str "5") = Some false
       ∧ (dfa ← convertToDFA 8 r.1 (mkNFAPtr 0 1); Some (acceptsDFA dfa (str "5")))
         = Some false).
Proof. vm_compute. repeat split; reflexivity. Qed.

Lemma bad_format_false cls :
  bad_format cls = false ↔ ∃ content, cls = "["%char :: content ++ ["]"%char].
Proof.
  unfold bad_format. rewrite bool_decide_eq_false. split.
  - intros Hok.
    destruct (decide (cls = [])) as [->|Hne]; [by destruct Hok; left|].
    destruct (decide (head cls = Some "["%char)) as [Hh|Hh];
      [|by destruct Hok; right; left].
    destruct (decide (last cls = Some "]"%char)) as [Hl|Hl];
      [|by destruct Hok; right; right].
    apply last_Some in Hl as [l' ->].
    destruct l' as [|c content]; [done|].
    simpl in Hh. injection Hh as ->. by exists content.
  - intros [content ->] [?|[Hh|Hl]]; [done|by apply Hh|].
    apply Hl. change ("["%char :: content ++ ["]"%char])
      with (("["%char :: content) ++ ["]"%char]).
    apply last_snoc.
Qed.

Lemma bad_format_true cls :
  (∀ content, cls ≠ "["%char :: content ++ ["]"%char]) → bad_format cls = true.
Proof.
  intros Hne. destruct (bad_format cls) eqn:E; [done|].
  apply bad_format_false in E as [content ->]. by destruct (Hne content).
Qed.

Lemma class_content_brackets content :
  class_content ("["%char :: content ++ ["]"%char]) = content.
Proof.
  unfold class_content, substr. simpl. rewrite length_app. simpl.
  replace (length content + 1 - 1) with (length content) by lia.
  by rewrite drop_0, take_app_length.
Qed.

Lemma chess_class_returns b cls V :
  Chess.parseCharacterClass cls ∅ = Ok V →
  ∃ b', Chess.createCharClassNFA cls b
        = (b', Ok (mkNFAPtr (length (states b)) (S (length (states b))))).
Proof.
  intros Hparse.
  unfold Chess.createCharClassNFA, mbind, M_bind, createState, lift_outcome.
  simpl. rewrite Hparse, add_class_transitions_run. simpl.
  rewrite length_app. simpl. unfold mret, M_ret. eexists. do 3 f_equal. lia.
Qed.

(** * Tokenizers *)

Lemma length_substr (s : list ascii) pos len :
  pos + len ≤ length s → length (substr s pos len) = len.
Proof.
  intros H. unfold substr. rewrite length_take, length_drop. lia.
Qed.

Lemma drop_cons_lt {A} (l : list A) pos x rest :
  drop pos l = x :: rest → pos < length l ∧ l !! pos = Some x ∧ rest = drop (S pos) l.
Proof.
  intros Hd. split.
  - destruct (decide (pos < length l)); [done|].
    rewrite drop_ge in Hd by lia. done.
  - split.
    + rewrite <- (Nat.add_0_r pos), <- lookup_drop, Hd. done.
    + change (S pos) with (1 + pos). rewrite Nat.add_comm, <- drop_drop, Hd. done.
Qed.

(** chessNot.cpp's loop computes what Final.cpp's does. *)
Lemma chess_tryMatch_loop G input startPos rest :
  ∀ cur pos lap mv,
    Chess.tryMatch_loop G input startPos rest cur pos lap mv
    = Final.tryMatch_loop G input startPos rest cur pos lap mv.
Proof.
  induction rest as [|c rest IH]; intros cur pos lap mv; simpl; [done|].
  destruct (G !! cur ≫= λ d, dfa_transitions d !! c) as [next|]; [|done].
  destruct (from_option dfa_isFinal false (G !! next)); apply IH.
Qed.

(** The loop of [tryMatchDFA] reports a match only with a text that is not
    empty: the text is assigned after a character has been read. *)
Lemma tryMatch_loop_nonempty G input startPos rest :
  ∀ cur pos lap mv,
    rest = drop pos input → startPos ≤ pos →
    (lap = (-1)%Z ∨ 0 < length mv) →
    (Final.tryMatch_loop G input startPos rest cur pos lap mv).1 = (-1)%Z
    ∨ 0 < length (Final.tryMatch_loop G input startPos rest cur pos lap mv).2.
Proof.
  induction rest as [|c rest IH]; intros cur pos lap mv Hrest Hpos Hinv; simpl.
  - done.
  - destruct (G !! cur ≫= λ d, dfa_transitions d !! c) as [next|]; [|done].
    symmetry in Hrest. apply drop_cons_lt in Hrest as (Hlt & _ & Hrest).
    destruct (from_option dfa_isFinal false (G !! next)).
    + apply IH; [done|lia|]. right. rewrite length_substr; lia.
    + apply IH; [done|lia|done].
Qed.

(** A match begins with a transition of the start state on the first
    character. *)
Lemma tryMatch_loop_first G input startPos rest cur pos mv :
  (Final.tryMatch_loop G input startPos rest cur pos (-1) mv).1 ≠ (-1)%Z →
  ∃ c rest' next, rest = c :: rest'
                  ∧ (G !! cur ≫= λ d, dfa_transitions d !! c) = Some next.
Proof.
  destruct rest as [|c rest]; cbn [Final.tryMatch_loop]; [done|].
  destruct (G !! cur ≫= λ d, dfa_transitions d !! c) as [next|] eqn:E; [|done].
  intros _. by exists c, rest, next.
Qed.

Lemma final_tryMatchDFA_value dfa input startPos ty :
  Final.type (Final.tryMatchDFA dfa input startPos ty) ≠ Final.INVALID →
  0 < length (Final.value (Final.tryMatchDFA dfa input startPos ty)).
Proof.
  unfold Final.tryMatchDFA.
  pose proof (tryMatch_loop_nonempty (dfaStates dfa) input startPos
                (drop startPos input) (startDFA dfa) startPos (-1) []
                eq_refl ltac:(lia) ltac:(by left)) as Hloop.
  case_decide as Hm; simpl; [|done]. intros _. by destruct Hloop.
Qed.

Lemma final_getNextToken_value lx input startPos :
  0 < length (Final.value (Final.getNextToken lx input startPos)).
Proof.
  unfold Final.getNextToken.
  destruct (Final.singleCharTokens lx !! _); simpl; [lia|].
  case_decide as Hid; [by apply final_tryMatchDFA_value|].
  case_decide as Hnum; [by apply final_tryMatchDFA_value|]. simpl. lia.
Qed.

Lemma final_getNextToken_position lx input startPos :
  Final.position (Final.getNextToken lx input startPos) = Z.of_nat startPos.
Proof.
  unfold Final.getNextToken, Final.tryMatchDFA.
  destruct (Final.singleCharTokens lx !! _); simpl; [done|].
  repeat (case_decide; simpl; try done).
Qed.

(** A list of tokens in source order: each starts at or after [lo], is not
    empty, and ends where the next one starts or before; the last ends at
    or before [hi]. *)
Lemma final_tokenize_loop_spec lx input fuel : ∀ pos tokens,
  length input - pos ≤ fuel →
  ∃ toks pos',
    Final.tokenize_loop fuel lx input pos tokens = Some (tokens ++ toks, pos')
    ∧ pos ≤ pos'
    ∧ Forall (λ t, 0 < length (Final.value t)
                   ∧ (Z.of_nat pos ≤ Final.position t)%Z
                   ∧ (Final.position t + Z.of_nat (length (Final.value t))
                      ≤ Z.of_nat pos')%Z) toks
    ∧ StronglySorted (λ a b, (Final.position a < Final.position b)%Z) toks.
Proof.
  induction fuel as [|fuel IH]; intros pos tokens Hfuel; cbn [Final.tokenize_loop].
  - rewrite decide_False by lia. exists [], pos. rewrite app_nil_r.
    split; [done|]. split; [done|]. split; constructor.
  - destruct (decide (pos < length input)) as [Hlt|Hge].
    2: { exists [], pos. rewrite app_nil_r.
         split; [done|]. split; [done|]. split; constructor. }
    destruct (isspace (default epsilon (input !! pos))).
    + destruct (IH (S pos) tokens) as (toks & pos' & -> & Hle & Hall & Hsorted);
        [lia|].
      exists toks, pos'. split; [done|]. split; [lia|]. split; [|done].
      eapply Forall_impl; [exact Hall|]. simpl. intros t (? & ? & ?).
      split; [done|]. split; [lia|done].
    + pose proof (final_getNextToken_value lx input pos) as Hval.
      pose proof (final_getNextToken_position lx input pos) as Hposn.
      set (token := Final.getNextToken lx input pos) in *.
      destruct (IH (pos + length (Final.value token)) (tokens ++ [token]))
        as (toks & pos' & -> & Hle & Hall & Hsorted); [lia|].
      exists (token :: toks), pos'. rewrite <- app_assoc. split; [done|].
      split; [lia|]. split.
      * constructor; [lia|].
        eapply Forall_impl; [exact Hall|]. simpl. intros t (? & ? & ?).
        split; [done|]. split; [lia|done].
      * constructor; [done|].
        eapply Forall_impl; [exact Hall|]. simpl. intros t (? & ? & ?). lia.
Qed.

(** ** The notation lexer's candidates *)

Lemma testDFAPattern_candidate dfa input startPos ty candidates :
  Chess.testDFAPattern dfa input startPos ty candidates
  = candidates ++ omap (chess_candidate input startPos) [(dfa, ty)].
Proof.
  unfold Chess.testDFAPattern, chess_candidate. cbn [omap list_omap fst snd].
  destruct (Chess.tryMatchDFA dfa input startPos []).1; [done|].
  by rewrite app_nil_r.
Qed.

Lemma omap_cons_app {A B} (f : A → option B) x l :
  omap f (x :: l) = omap f [x] ++ omap f l.
Proof. simpl. by destruct (f x). Qed.

(** The candidates are the classes that matched, in the order of the calls. *)
Lemma all_candidates_patterns lx input startPos :
  Chess.all_candidates lx input startPos
  = omap (chess_candidate input startPos) (chess_patterns lx).
Proof.
  unfold Chess.all_candidates, chess_patterns.
  rewrite !testDFAPattern_candidate.
  rewrite !(omap_cons_app _ _ (_ :: _)). rewrite app_nil_l.
  by rewrite <- !app_assoc.
Qed.

Lemma chess_candidate_nonempty input startPos p c :
  chess_candidate input startPos p = Some c → c.1 = p.2 ∧ 0 < length c.2.
Proof.
  unfold chess_candidate, Chess.tryMatchDFA. simpl.
  rewrite chess_tryMatch_loop.
  pose proof (tryMatch_loop_nonempty (dfaStates p.1) input startPos
                (drop startPos input) (startDFA p.1) startPos (-1) []
                eq_refl ltac:(lia) ltac:(by left)) as Hloop.
  case_bool_decide as Hm; [|done]. intros [= <-]. simpl.
  split; [done|]. by destruct Hloop.
Qed.

Lemma all_candidates_nonempty lx input startPos c :
  c ∈ Chess.all_candidates lx input startPos →
  c.1 ≠ Chess.INVALID ∧ 0 < length c.2.
Proof.
  rewrite all_candidates_patterns. intros Hc.
  apply list_elem_of_omap in Hc as (p & Hp & Hc).
  apply chess_candidate_nonempty in Hc as [Hty Hlen]. split; [|done].
  rewrite Hty. unfold chess_patterns in Hp.
  repeat (apply elem_of_cons in Hp as [->|Hp]; [done|]).
  by apply elem_of_nil in Hp.
Qed.

(** [pick_longest] returns the first of the longest candidates. *)
Lemma pick_longest_fold (l : list (Chess.ChessTokenType * list ascii)) : ∀ acc r,
  r = Chess.pick_longest l acc →
  length acc.2 ≤ length r.2
  ∧ (∀ c, c ∈ l → length c.2 ≤ length r.2)
  ∧ (r = acc
     ∨ ∃ pre post, l = pre ++ r :: post
                   ∧ (∀ c, c ∈ pre → length c.2 < length r.2)
                   ∧ length acc.2 < length r.2).
Proof.
  unfold Chess.pick_longest.
  induction l as [|x l IH]; intros acc r Hr; cbn [foldl] in Hr.
  - subst r. split; [done|]. split; [|by left].
    intros c Hc. by apply elem_of_nil in Hc.
  - case_decide as Hlt.
    + destruct (IH x r Hr) as (Hle & Hall & Hsel). split; [lia|]. split.
      * intros c Hc. apply elem_of_cons in Hc as [->|Hc]; [done|by apply Hall].
      * right. destruct Hsel as [Hx|(pre & post & Hl & Hpre & Hx)].
        -- exists [], l. rewrite Hx. split; [done|]. split; [|done].
           intros c Hc. by apply elem_of_nil in Hc.
        -- exists (x :: pre), post. rewrite Hl. split; [done|]. split; [|lia].
           intros c Hc. apply elem_of_cons in Hc as [->|Hc]; [done|by apply Hpre].
    + destruct (IH acc r Hr) as (Hle & Hall & Hsel). split; [done|]. split.
      * intros c Hc. apply elem_of_cons in Hc as [->|Hc]; [lia|by apply Hall].
      * destruct Hsel as [Hx|(pre & post & Hl & Hpre & Hacc)]; [by left|].
        right. exists (x :: pre), post. rewrite Hl. split; [done|]. split; [|done].
        intros c Hc. apply elem_of_cons in Hc as [->|Hc]; [lia|by apply Hpre].
Qed.

(** The token of [tryMatchLongest]: the first candidate of greatest length. *)
Lemma tryMatchLongest_first_longest lx input startPos :
  Chess.all_candidates lx input startPos ≠ [] →
  ∃ pre post,
    Chess.all_candidates lx input startPos
    = pre ++ (Chess.type (Chess.tryMatchLongest lx input startPos),
              Chess.value (Chess.tryMatchLongest lx input startPos)) :: post
    ∧ (∀ c, c ∈ pre →
         length c.2 < length (Chess.value (Chess.tryMatchLongest lx input startPos)))
    ∧ (∀ c, c ∈ post →
         length c.2 ≤ length (Chess.value (Chess.tryMatchLongest lx input startPos))).
Proof.
  unfold Chess.tryMatchLongest.
  destruct (Chess.all_candidates lx input startPos) as [|first tl] eqn:Hcs; [done|].
  intros _. cbn [Chess.type Chess.value].
  set (r := Chess.pick_longest (first :: tl) first).
  destruct (pick_longest_fold (first :: tl) first r eq_refl) as (_ & Hall & Hsel).
  assert (∃ pre post, first :: tl = pre ++ r :: post
                      ∧ ∀ c, c ∈ pre → length c.2 < length r.2) as (pre & post & Heq & Hpre).
  { destruct Hsel as [Hr|(pre & post & Heq & Hpre & _)].
    - exists [], tl. rewrite Hr. split; [done|]. intros c Hc.
      by apply elem_of_nil in Hc.
    - by exists pre, post. }
  exists pre, post. rewrite Heq. split; [by destruct r|]. split; [done|].
  intros c Hc. apply Hall. rewrite Heq. apply elem_of_app. right.
  apply elem_of_cons. by right.
Qed.

Lemma chess_tryMatchLongest_value lx input startPos :
  Chess.type (Chess.tryMatchLongest lx input startPos) ≠ Chess.INVALID →
  0 < length (Chess.value (Chess.tryMatchLongest lx input startPos)).
Proof.
  destruct (decide (Chess.all_candidates lx input startPos = [])) as [Hnil|Hne].
  { unfold Chess.tryMatchLongest. by rewrite Hnil. }
  destruct (tryMatchLongest_first_longest lx input startPos Hne)
    as (pre & post & Heq & _). intros _.
  eapply (all_candidates_nonempty lx input startPos (_, _)).
  rewrite Heq. apply elem_of_app. right. apply elem_of_cons. by left.
Qed.

Lemma chess_tryMatchLongest_position lx input startPos :
  Chess.position (Chess.tryMatchLongest lx input startPos) = Z.of_nat startPos.
Proof.
  unfold Chess.tryMatchLongest.
  by destruct (Chess.all_candidates lx input startPos).
Qed.

Lemma chess_tokenize_loop_spec lx input fuel : ∀ pos tokens err,
  length input - pos ≤ fuel →
  ∃ toks err' pos',
    Chess.tokenize_loop fuel lx input pos tokens err
    = Some (tokens ++ toks, err', pos')
    ∧ pos ≤ pos'
    ∧ Forall (λ t, 0 < length (Chess.value t)
                   ∧ (Z.of_nat pos ≤ Chess.position t)%Z
                   ∧ (Chess.position t + Z.of_nat (length (Chess.value t))
                      ≤ Z.of_nat pos')%Z) toks
    ∧ StronglySorted (λ a b, (Chess.position a < Chess.position b)%Z) toks.
Proof.
  induction fuel as [|fuel IH]; intros pos tokens err Hfuel;
    cbn [Chess.tokenize_loop].
  - rewrite decide_False by lia. exists [], err, pos. rewrite app_nil_r.
    split; [done|]. split; [done|]. split; constructor.
  - destruct (decide (pos < length input)) as [Hlt|Hge].
    2: { exists [], err, pos. rewrite app_nil_r.
         split; [done|]. split; [done|]. split; constructor. }
    assert (∀ tokens err,
      ∃ toks err' pos',
        Chess.tokenize_loop fuel lx input (S pos) tokens err
        = Some (tokens ++ toks, err', pos')
        ∧ pos ≤ pos'
        ∧ Forall (λ t, 0 < length (Chess.value t)
                       ∧ (Z.of_nat pos ≤ Chess.position t)%Z
                       ∧ (Chess.position t + Z.of_nat (length (Chess.value t))
                          ≤ Z.of_nat pos')%Z) toks
        ∧ StronglySorted (λ a b, (Chess.position a < Chess.position b)%Z) toks)
      as Hskip.
    { intros tokens' err0.
      destruct (IH (S pos) tokens' err0) as (toks & err' & pos' & -> & Hle & Hall & Hs);
        [lia|].
      exists toks, err', pos'. split; [done|]. split; [lia|]. split; [|done].
      eapply Forall_impl; [exact Hall|]. simpl. intros t (? & ? & ?).
      split; [done|]. split; [lia|done]. }
    destruct (isspace (default epsilon (input !! pos))); [apply Hskip|].
    unfold Chess.getNextToken.
    pose proof (chess_tryMatchLongest_value lx input pos) as Hval.
    pose proof (chess_tryMatchLongest_position lx input pos) as Hposn.
    set (token := Chess.tryMatchLongest lx input pos) in *.
    destruct (decide (Chess.type token ≠ Chess.INVALID)) as [Hty|Hty].
    + rewrite decide_False by done. specialize (Hval Hty).
      destruct (IH (pos + length (Chess.value token)) (tokens ++ [token]) err)
        as (toks & err' & pos' & -> & Hle & Hall & Hsorted); [lia|].
      exists (token :: toks), err', pos'. rewrite <- app_assoc.
      split; [done|]. split; [lia|]. split.
      * constructor; [lia|].
        eapply Forall_impl; [exact Hall|]. simpl. intros t (? & ? & ?).
        split; [done|]. split; [lia|done].
      * constructor; [done|].
        eapply Forall_impl; [exact Hall|]. simpl. intros t (? & ? & ?). lia.
    + cbn [Chess.type]. rewrite decide_True by done. apply Hskip.
Qed.

(** C10.  Both tokenizers end on every input once the fuel is at least the
    input length; every token before the closing [END_OF_INPUT] has a text
    that is not empty; source positions increase strictly along the token
    list; and each round of either loop moves the position forward. *)
Theorem tokenize_progress :
  (∀ lx input fuel, length input ≤ fuel →
     ∃ toks, Final.tokenize fuel lx input = Some toks
       ∧ (∃ body pos, toks = body ++ [Final.mkToken Final.END_OF_INPUT [] pos]
                      ∧ Forall (λ t, 0 < length (Final.value t)) body)
       ∧ StronglySorted (λ a b, (Final.position a < Final.position b)%Z) toks)
  ∧ (∀ lx input fuel, length input ≤ fuel →
       ∃ toks err, Chess.tokenize fuel lx input = Some (toks, err)
         ∧ (∃ body pos, toks = body ++ [Chess.mkChessToken Chess.END_OF_INPUT [] pos]
                        ∧ Forall (λ t, 0 < length (Chess.value t)) body)
         ∧ StronglySorted (λ a b, (Chess.position a < Chess.position b)%Z) toks)
  ∧ (∀ lx input pos fuel tokens, pos < length input →
       ∃ pos' tokens', pos < pos'
         ∧ Final.tokenize_loop (S fuel) lx input pos tokens
           = Final.tokenize_loop fuel lx input pos' tokens')
  ∧ (∀ lx input pos fuel tokens err, pos < length input →
       ∃ pos' tokens' err', pos < pos'
         ∧ Chess.tokenize_loop (S fuel) lx input pos tokens err
           = Chess.tokenize_loop fuel lx input pos' tokens' err').
Proof.
  split; [|split; [|split]].
  - intros lx input fuel Hfuel. unfold Final.tokenize.
    destruct (final_tokenize_loop_spec lx input fuel 0 []) as
      (toks & pos' & -> & _ & Hall & Hsorted); [lia|].
    simpl. eexists. split; [done|]. split.
    + exists toks, (Z.of_nat pos'). split; [done|].
      eapply Forall_impl; [exact Hall|]. by intros t (? & _).
    + apply StronglySorted_app_2; [|done|repeat constructor].
      intros t1 t2 Ht1 Ht2. apply list_elem_of_singleton in Ht2 as ->. simpl.
      rewrite Forall_forall in Hall. destruct (Hall t1 Ht1) as (? & _ & ?). lia.
  - intros lx input fuel Hfuel. unfold Chess.tokenize.
    destruct (chess_tokenize_loop_spec lx input fuel 0 [] false) as
      (toks & err' & pos' & -> & _ & Hall & Hsorted); [lia|].
    simpl. eexists _, _. split; [done|]. split.
    + exists toks, (Z.of_nat pos'). split; [done|].
      eapply Forall_impl; [exact Hall|]. by intros t (? & _).
    + apply StronglySorted_app_2; [|done|repeat constructor].
      intros t1 t2 Ht1 Ht2. apply list_elem_of_singleton in Ht2 as ->. simpl.
      rewrite Forall_forall in Hall. destruct (Hall t1 Ht1) as (? & _ & ?). lia.
  - intros lx input pos fuel tokens Hlt. cbn [Final.tokenize_loop].
    rewrite decide_True by done.
    destruct (isspace (default epsilon (input !! pos))).
    + exists (S pos), tokens. split; [lia|done].
    + eexists _, _. split; [|done].
      pose proof (final_getNextToken_value lx input pos). lia.
  - intros lx input pos fuel tokens err Hlt. cbn [Chess.tokenize_loop].
    rewrite decide_True by done.
    destruct (isspace (default epsilon (input !! pos))).
    + exists (S pos), tokens, err. split; [lia|done].
    + case_decide as Hinv.
      * exists (S pos), tokens, true. split; [lia|done].
      * eexists _, _, _. split; [|done].
        unfold Chess.getNextToken in *.
        pose proof (chess_tryMatchLongest_value lx input pos) as Hval.
        destruct (decide (Chess.type (Chess.tryMatchLongest lx input pos)
                          ≠ Chess.INVALID)) as [Hty|Hty]; [|done].
        specialize (Hval Hty). lia.
Qed.

(** ** Longest match *)

Lemma final_tryMatchDFA_first dfa input startPos ty :
  Final.type (Final.tryMatchDFA dfa input startPos ty) ≠ Final.INVALID →
  ∃ c next, input !! startPos = Some c ∧ start_transitions dfa !! c = Some next.
Proof.
  unfold Final.tryMatchDFA. case_decide as Hm; [|done]. intros _.
  apply tryMatch_loop_first in Hm as (c & rest' & next & Hrest & Hnext).
  apply drop_cons_lt in Hrest as (_ & Hc & _).
  exists c, next. split; [done|]. unfold start_transitions.
  destruct (dfaStates dfa !! startDFA dfa); [done|done].
Qed.

Lemma disjoint_keys_spec {A B} (m1 : gmap ascii A) (m2 : gmap ascii B) c a :
  disjoint_keys m1 m2 = true → m1 !! c = Some a → m2 !! c = None.
Proof.
  unfold disjoint_keys. rewrite forallb_forall. intros Hall Hc.
  specialize (Hall (c, a)). simpl in Hall.
  destruct (m2 !! c); [|done].
  discriminate Hall. apply list_elem_of_In. by apply elem_of_map_to_list.
Qed.

(** In the lexer Final.cpp builds, an identifier starts with a letter or
    an underscore, a number with a digit, and neither with a character of
    the single-character table. *)
Lemma final_lexer_classes_disjoint lx :
  Final.new_Lexer 64 = Some lx →
  disjoint_keys (start_transitions (Final.identifierDFA lx))
                (start_transitions (Final.numberDFA lx)) = true
  ∧ disjoint_keys (start_transitions (Final.identifierDFA lx))
                  (Final.singleCharTokens lx) = true
  ∧ disjoint_keys (start_transitions (Final.numberDFA lx))
                  (Final.singleCharTokens lx) = true.
Proof.
  intros Hlx.
  assert ((lx ← Final.new_Lexer 64;
           Some (disjoint_keys (start_transitions (Final.identifierDFA lx))
                               (start_transitions (Final.numberDFA lx))
                 && disjoint_keys (start_transitions (Final.identifierDFA lx))
                                  (Final.singleCharTokens lx)
                 && disjoint_keys (start_transitions (Final.numberDFA lx))
                                  (Final.singleCharTokens lx)))
          = Some true) as Hall.
  { vm_compute. reflexivity. }
  rewrite Hlx in Hall. cbn [mbind option_bind] in Hall.
  injection Hall as Hall.
  apply andb_prop in Hall as [Hall H3]. apply andb_prop in Hall as [H1 H2].
  split; [exact H1|split; [exact H2|exact H3]].
Qed.

(** At a position where one of its two DFAs matches, Final.cpp's lexer emits
    that match: no other class can match there. *)
Lemma final_getNextToken_match lx input startPos dfa ty :
  Final.new_Lexer 64 = Some lx →
  (dfa, ty) ∈ [(Final.identifierDFA lx, Final.IDENTIFIER);
               (Final.numberDFA lx, Final.NUMBER)] →
  Final.type (Final.tryMatchDFA dfa input startPos ty) ≠ Final.INVALID →
  Final.getNextToken lx input startPos = Final.tryMatchDFA dfa input startPos ty.
Proof.
  intros Hlx Hin Hmatch.
  destruct (final_lexer_classes_disjoint lx Hlx) as (Hidnum & Hidsc & Hnumsc).
  destruct (final_tryMatchDFA_first dfa input startPos ty Hmatch)
    as (c & next & Hc & Hnext).
  unfold Final.getNextToken. rewrite Hc.
  change (default epsilon (Some c)) with c.
  apply elem_of_cons in Hin as [[= -> ->]|Hin].
  - rewrite (disjoint_keys_spec _ _ c next Hidsc Hnext).
    by rewrite decide_True.
  - apply list_elem_of_singleton in Hin as [= -> ->].
    rewrite (disjoint_keys_spec _ _ c next Hnumsc Hnext).
    destruct (decide (Final.type (Final.tryMatchDFA (Final.identifierDFA lx)
                                    input startPos Final.IDENTIFIER)
                      ≠ Final.INVALID)) as [Hid|Hid].
    + destruct (final_tryMatchDFA_first _ _ _ _ Hid) as (c' & next' & Hc' & Hnext').
      assert (c' = c) as -> by congruence.
      rewrite (disjoint_keys_spec _ _ c next' Hidnum Hnext') in Hnext. done.
    + by rewrite decide_True.
Qed.

Lemma final_lexer_built : ∃ lx, Final.new_Lexer 64 = Some lx.
Proof.
  assert (match Final.new_Lexer 64 with Some _ => true | None => false end
          = true) as Hsome.
  { vm_compute. reflexivity. }
  destruct (Final.new_Lexer 64) as [lx|]; [|discriminate Hsome].
  exists lx. reflexivity.
Qed.

(** C7.  The arithmetic lexer turns ["x = 1 + (2 * y)"] into the ten tokens
    IDENTIFIER, ASSIGN, NUMBER, OPERATOR, LPAREN, NUMBER, OPERATOR,
    IDENTIFIER, RPAREN, END_OF_INPUT, and [PDA::parse] returns [true] on
    them. *)
Theorem expression_example_accepted :
  ∃ lx toks out,
    Final.new_Lexer 64 = Some lx
    ∧ Final.tokenize 64 lx (str "x = 1 + (2 * y)") = Some toks
    ∧ Final.type <$> toks
      = [Final.IDENTIFIER; Final.ASSIGN; Final.NUMBER; Final.OPERATOR;
         Final.LPAREN; Final.NUMBER; Final.OPERATOR; Final.IDENTIFIER;
         Final.RPAREN; Final.END_OF_INPUT]
    ∧ Final.parse 64 toks = Some (true, out).
Proof.
  assert ((lx ← Final.new_Lexer 64;
           toks ← Final.tokenize 64 lx (str "x = 1 + (2 * y)");
           r ← Final.parse 64 toks;
           Some (Final.type <$> toks, r.1))
          = Some ([Final.IDENTIFIER; Final.ASSIGN; Final.NUMBER; Final.OPERATOR;
                   Final.LPAREN; Final.NUMBER; Final.OPERATOR; Final.IDENTIFIER;
                   Final.RPAREN; Final.END_OF_INPUT], true)) as Hex.
  { vm_compute. reflexivity. }
  apply bind_Some in Hex as (lx & Hlx & Hex).
  apply bind_Some in Hex as (toks & Htoks & Hex).
  apply bind_Some in Hex as ([result out] & Hparse & Hex).
  injection Hex as Hty Hres. simpl in Hres. subst result.
  exists lx, toks, out.
  split; [exact Hlx|]. split; [exact Htoks|]. split; [exact Hty|exact Hparse].
Qed.

Lemma tokenize_progress_witness :
  length (str "a+b") ≤ 3
  ∧ ∃ toks,
      Final.tokenize 3
        (Final.mkLexer (mkDFA [] 0) (mkDFA [] 0)
           Final.initializeSingleCharTokens newBuilder) (str "a+b") = Some toks
      ∧ (∃ body pos, toks = body ++ [Final.mkToken Final.END_OF_INPUT [] pos]
                     ∧ Forall (λ t, 0 < length (Final.value t)) body)
      ∧ StronglySorted (λ a b, (Final.position a < Final.position b)%Z) toks.
Proof.
  assert (length (str "a+b") ≤ 3) as Hlen by (vm_compute; lia).
  split; [exact Hlen|].
  exact (proj1 tokenize_progress _ _ _ Hlen).
Defined.

(** C3.  What [validateMoveSequence] does on token lists that end while a
    move is owed.  The text ["1."] stops where White's move is expected and
    ["1. e4 e5 2."] does so in the second turn: both are accepted, with no
    line about the abrupt end.  ["1. e4"] stops where Black's move is
    expected: it is accepted, with no half-move warning. *)
Theorem validateMoveSequence_at_end_of_input :
  (lx ← Chess.new_ChessLexer 100;
   r ← Chess.tokenize 100 lx (str "1.");
   Some (Chess.type <$> r.1, Chess.validateMoveSequence r.1))
  = Some ([Chess.MOVE_NUMBER; Chess.END_OF_INPUT],
          (true, [Chess.SuccessfullyParsed]))
  ∧ (lx ← Chess.new_ChessLexer 100;
     r ← Chess.tokenize 100 lx (str "1. e4 e5 2.");
     Some (Chess.type <$> r.1, Chess.validateMoveSequence r.1))
    = Some ([Chess.MOVE_NUMBER; Chess.PAWN_MOVE; Chess.PAWN_MOVE;
             Chess.MOVE_NUMBER; Chess.END_OF_INPUT],
            (true, [Chess.SuccessfullyParsed]))
  ∧ (lx ← Chess.new_ChessLexer 100;
     r ← Chess.tokenize 100 lx (str "1. e4");
     Some (Chess.type <$> r.1, Chess.validateMoveSequence r.1))
    = Some ([Chess.MOVE_NUMBER; Chess.PAWN_MOVE; Chess.END_OF_INPUT],
            (true, [Chess.SuccessfullyParsed])).
Proof.
  split; [|split]; vm_compute; reflexivity.
Qed.

(** C6.  A MOVE_NUMBER token met while a move number is expected, whose
    digits read as a number other than the expected one, ends the validation
    with [false] and the line that names the expected and the found number;
    on ["1. e4 e5 3. Nf3"] the line says: expected 2, found 3. *)
Theorem move_number_mismatch_reported :
  (∀ token next rest pda out n,
     Chess.type token = Chess.MOVE_NUMBER →
     Chess.currentState pda = Chess.EXPECT_NUMBER →
     Chess.stoi (substr (Chess.value token) 0 (length (Chess.value token) - 1))
     = Some n →
     n ≠ Chess.expectedMoveNumber pda →
     Chess.validate_loop (token :: next :: rest) pda out
     = (false, out ++ [Chess.ExpectedButFound (Chess.expectedMoveNumber pda) n]))
  ∧ (lx ← Chess.new_ChessLexer 100;
     r ← Chess.tokenize 100 lx (str "1. e4 e5 3. Nf3");
     Some (Chess.validateMoveSequence r.1))
    = Some (false, [Chess.ExpectedButFound 2 3]).
Proof.
  split.
  - intros token next rest pda out n Hty Hst Hstoi Hne.
    cbn [Chess.validate_loop].
    rewrite decide_False by (rewrite Hst; discriminate).
    rewrite decide_False by (rewrite Hty; discriminate).
    rewrite decide_False by (rewrite Hty; discriminate).
    rewrite decide_True by exact Hty.
    rewrite decide_False by (intros Hn; apply Hn; exact Hst).
    cbn zeta. rewrite Hstoi.
    rewrite decide_True by exact Hne. reflexivity.
  - vm_compute. reflexivity.
Qed.

Lemma move_number_mismatch_reported_witness :
  Chess.validate_loop
    [Chess.mkChessToken Chess.MOVE_NUMBER (str "7.") 0;
     Chess.mkChessToken Chess.END_OF_INPUT [] 2]
    Chess.resetPDA []
  = (false, [Chess.ExpectedButFound 1 7]).
Proof.
  apply (proj1 move_number_mismatch_reported
           (Chess.mkChessToken Chess.MOVE_NUMBER (str "7.") 0)
           (Chess.mkChessToken Chess.END_OF_INPUT [] 2) [] Chess.resetPDA [] 7%Z).
  - reflexivity.
  - reflexivity.
  - vm_compute. reflexivity.
  - vm_compute. discriminate.
Defined.

(** * The expression PDA *)

Lemma token_at_end tokens i :
  length tokens ≤ i → Final.type (Final.token_at tokens i) = Final.END_OF_INPUT.
Proof.
  intros Hle. unfold Final.token_at.
  by rewrite (lookup_ge_None_2 tokens i Hle).
Qed.

(** One round of the loop from a configuration whose token index is inside
    the token list (or at its end): the index stays there, and the measure
    drops unless the round ends in a final state. *)
Lemma step_measure tokens cfg :
  Final.tokenIndex cfg ≤ length tokens →
  Final.halted cfg = false →
  Final.tokenIndex (Final.step tokens cfg).1 ≤ length tokens
  ∧ pda_measure tokens (Final.step tokens cfg).1 < pda_measure tokens cfg.
Proof.
  intros Hidx Hrun.
  destruct (decide (Final.tokenIndex cfg < length tokens)) as [Hlt|Hge].
  - destruct cfg as [st stack idx]. simpl in *.
    unfold Final.step, pda_measure, Final.halted in *. simpl in *.
    destruct st; simpl in *;
      try (by apply bool_decide_eq_false in Hrun; exfalso; apply Hrun; auto);
      repeat case_decide; simpl; lia.
  - assert (Final.type (Final.token_at tokens (Final.tokenIndex cfg))
            = Final.END_OF_INPUT) as Hend by (apply token_at_end; lia).
    destruct cfg as [st stack idx]. simpl in *.
    unfold Final.step, pda_measure, Final.halted in *. simpl in *.
    rewrite Hend.
    destruct st; simpl in *;
      try (by apply bool_decide_eq_false in Hrun; exfalso; apply Hrun; auto);
      repeat case_decide; simpl; try lia;
      repeat match goal with
             | H : _ ∨ _ |- _ => destruct H
             | H : _ ∧ _ |- _ => destruct H
             end; try discriminate; lia.
Qed.

Lemma parse_loop_total tokens fuel : ∀ cfg out,
  Final.tokenIndex cfg ≤ length tokens →
  pda_measure tokens cfg ≤ fuel →
  ∃ result rows,
    Final.parse_loop fuel tokens cfg out
    = Some (result, out ++ rows ++ [Final.SyntaxResult result])
    ∧ Forall (λ o, ∃ s top t a, o = Final.Row s top t a) rows.
Proof.
  induction fuel as [|fuel IH]; intros cfg out Hidx Hm.
  - destruct (Final.halted cfg) eqn:Hh.
    + exists (bool_decide (Final.currentState cfg = Final.ACCEPT)), [].
      simpl. rewrite Hh. split; [done|constructor].
    + exfalso. unfold pda_measure, Final.halted in *.
      apply bool_decide_eq_false in Hh.
      destruct (Final.currentState cfg); simpl in *; try lia;
        apply Hh; auto.
  - cbn [Final.parse_loop].
    destruct (Final.halted cfg) eqn:Hh.
    + exists (bool_decide (Final.currentState cfg = Final.ACCEPT)), [].
      split; [done|constructor].
    + destruct (step_measure tokens cfg Hidx Hh) as [Hidx' Hlt].
      cbn zeta. rewrite decide_False by lia.
      destruct (IH (Final.step tokens cfg).1
                  (out ++ [Final.Row (Final.currentState cfg)
                             (default ""%string (head (Final.stackVar cfg)))
                             (Final.token_at tokens (Final.tokenIndex cfg))
                             (Final.step tokens cfg).2]) Hidx')
        as (result & rows & Heq & Hrows); [lia|].
      exists result, (Final.Row (Final.currentState cfg)
                        (default ""%string (head (Final.stackVar cfg)))
                        (Final.token_at tokens (Final.tokenIndex cfg))
                        (Final.step tokens cfg).2 :: rows).
      split.
      * rewrite Heq. by rewrite <- !app_assoc.
      * constructor; [by eexists _, _, _, _|exact Hrows].
Qed.

(** X20.  [PDA::parse] returns on every token list, after at most
    [3 * length tokens + 2] rounds; what it writes is one row per round and
    then the result line, never the loop-guard line: the guard
    [tokenIndex > tokens.size() + 5] is false in every round.  The returned
    [bool] is the one the result line shows. *)
Theorem parse_total_guard_unreached tokens fuel :
  3 * length tokens + 2 ≤ fuel →
  ∃ result rows,
    Final.parse fuel tokens = Some (result, rows ++ [Final.SyntaxResult result])
    ∧ Final.InfiniteLoopDetected ∉ rows ++ [Final.SyntaxResult result].
Proof.
  intros Hfuel. unfold Final.parse.
  destruct (parse_loop_total tokens fuel
              (Final.mkConfig Final.START ["$"%string] 0) [])
    as (result & rows & Heq & Hrows).
  { simpl. lia. }
  { unfold pda_measure. simpl. lia. }
  exists result, rows. split; [exact Heq|].
  intros Hin. apply elem_of_app in Hin as [Hin|Hin].
  - rewrite Forall_forall in Hrows.
    destruct (Hrows _ Hin) as (s & top & t & a & Habs). discriminate Habs.
  - apply list_elem_of_singleton in Hin. discriminate Hin.
Qed.

Lemma parse_total_guard_unreached_witness :
  3 * length [Final.mkToken Final.NUMBER (str "7") 0;
              Final.mkToken Final.END_OF_INPUT [] 1] + 2 ≤ 8
  ∧ ∃ result rows,
      Final.parse 8 [Final.mkToken Final.NUMBER (str "7") 0;
                     Final.mkToken Final.END_OF_INPUT [] 1]
      = Some (result, rows ++ [Final.SyntaxResult result])
      ∧ Final.InfiniteLoopDetected ∉ rows ++ [Final.SyntaxResult result].
Proof.
  assert (3 * length [Final.mkToken Final.NUMBER (str "7") 0;
                      Final.mkToken Final.END_OF_INPUT [] 1] + 2 ≤ 8) as Hfuel
    by (simpl; lia).
  split; [exact Hfuel|].
  exact (parse_total_guard_unreached _ 8 Hfuel).
Defined.

(** * Maximal munch *)

Lemma accepts_from_cons G p c w :
  accepts_from G p (c :: w)
  = match G !! p ≫= λ d, dfa_transitions d !! c with
    | Some q => accepts_from G q w
    | None => false
    end.
Proof.
  unfold accepts_from. cbn [dfa_run].
  by destruct (G !! p ≫= λ d, dfa_transitions d !! c).
Qed.

(** The loop of [tryMatchDFA] from the state [cur] at [pos]: either no
    prefix of the rest is accepted and the running answer is returned, or
    the answer is the longest accepted prefix of the rest. *)
Lemma tryMatch_loop_longest G input startPos : ∀ rest cur pos lap mv,
  rest = drop pos input → startPos ≤ pos →
  (Final.tryMatch_loop G input startPos rest cur pos lap mv = (lap, mv)
   ∧ ∀ k, 0 < k → k ≤ length rest → accepts_from G cur (take k rest) = false)
  ∨ (∃ k, 0 < k ∧ k ≤ length rest
       ∧ Final.tryMatch_loop G input startPos rest cur pos lap mv
         = (Z.of_nat (pos + k), substr input startPos (pos + k - startPos))
       ∧ accepts_from G cur (take k rest) = true
       ∧ ∀ k', k < k' → k' ≤ length rest →
               accepts_from G cur (take k' rest) = false).
Proof.
  induction rest as [|c rest IH]; intros cur pos lap mv Hrest Hpos.
  - left. split; [done|]. intros k Hk Hle. simpl in Hle. lia.
  - symmetry in Hrest. apply drop_cons_lt in Hrest as (Hlt & Hc & Hrest).
    cbn [Final.tryMatch_loop].
    destruct (G !! cur ≫= λ d, dfa_transitions d !! c) as [next|] eqn:Hnext.
    2:{ left. split; [done|]. intros k Hk Hle.
        destruct k as [|k]; [lia|]. cbn [take].
        by rewrite accepts_from_cons, Hnext. }
    cbn zeta.
    assert (∀ k, accepts_from G cur (take (S k) (c :: rest))
                 = accepts_from G next (take k rest)) as Hstep.
    { intros k. cbn [take]. by rewrite accepts_from_cons, Hnext. }
    assert (accepts_from G next [] = from_option dfa_isFinal false (G !! next))
      as Hnil by done.
    destruct (from_option dfa_isFinal false (G !! next)) eqn:Hfin.
    + destruct (IH next (S pos) (Z.of_nat (S pos))
                  (substr input startPos (S pos - startPos)) Hrest ltac:(lia))
        as [[-> Hnone]|(k & Hk & Hle & -> & Hacc & Hmax)].
      * right. exists 1. split; [lia|]. split; [simpl; lia|]. split.
        { by replace (pos + 1) with (S pos) by lia. }
        split.
        { rewrite (Hstep 0), take_0. done. }
        intros k' Hk' Hle'. destruct k' as [|k']; [lia|].
        rewrite Hstep. apply Hnone; simpl in *; lia.
      * right. exists (S k). split; [lia|]. split; [simpl; lia|]. split.
        { by replace (pos + S k) with (S pos + k) by lia. }
        split; [by rewrite Hstep|].
        intros k' Hk' Hle'. destruct k' as [|k']; [lia|].
        rewrite Hstep. apply Hmax; simpl in *; lia.
    + destruct (IH next (S pos) lap mv Hrest ltac:(lia))
        as [[-> Hnone]|(k & Hk & Hle & -> & Hacc & Hmax)].
      * left. split; [done|]. intros k Hk Hle.
        destruct k as [|k]; [lia|]. rewrite Hstep.
        destruct k as [|k]; [by rewrite take_0|].
        apply Hnone; simpl in *; lia.
      * right. exists (S k). split; [lia|]. split; [simpl; lia|]. split.
        { by replace (pos + S k) with (S pos + k) by lia. }
        split; [by rewrite Hstep|].
        intros k' Hk' Hle'. destruct k' as [|k']; [lia|].
        rewrite Hstep. apply Hmax; simpl in *; lia.
Qed.

Lemma tryMatchDFA_cases dfa input startPos :
  let rest := drop startPos input in
  ((∀ k, 0 < k → k ≤ length rest → acceptsDFA dfa (take k rest) = false)
   ∧ (∀ ty, Final.tryMatchDFA dfa input startPos ty
            = Final.mkToken Final.INVALID [] (Z.of_nat startPos))
   ∧ (∀ mv, Chess.tryMatchDFA dfa input startPos mv = (false, mv)))
  ∨ (∃ k, 0 < k ∧ k ≤ length rest
       ∧ acceptsDFA dfa (take k rest) = true
       ∧ (∀ k', k < k' → k' ≤ length rest → acceptsDFA dfa (take k' rest) = false)
       ∧ (∀ ty, Final.tryMatchDFA dfa input startPos ty
                = Final.mkToken ty (take k rest) (Z.of_nat startPos))
       ∧ (∀ mv, Chess.tryMatchDFA dfa input startPos mv = (true, take k rest))).
Proof.
  intros rest.
  assert (∀ mv,
    (Final.tryMatch_loop (dfaStates dfa) input startPos rest (startDFA dfa)
       startPos (-1) mv = ((-1)%Z, mv)
     ∧ ∀ k, 0 < k → k ≤ length rest → acceptsDFA dfa (take k rest) = false)
    ∨ (∃ k, 0 < k ∧ k ≤ length rest
         ∧ Final.tryMatch_loop (dfaStates dfa) input startPos rest (startDFA dfa)
             startPos (-1) mv
           = (Z.of_nat (startPos + k), take k rest)
         ∧ acceptsDFA dfa (take k rest) = true
         ∧ ∀ k', k < k' → k' ≤ length rest →
                 acceptsDFA dfa (take k' rest) = false)) as Hloop.
  { intros mv.
    destruct (tryMatch_loop_longest (dfaStates dfa) input startPos rest
                (startDFA dfa) startPos (-1) mv eq_refl (le_n _))
      as [[Hr Hnone]|(k & Hk & Hle & Hr & Hacc & Hmax)].
    - left. by split.
    - right. exists k. split; [done|]. split; [done|]. split; [|by split].
      rewrite Hr. unfold substr. f_equal. f_equal. lia. }
  destruct (Hloop []) as [[Hr Hnone]|(k & Hk & Hle & Hr & Hacc & Hmax)].
  - left. split; [exact Hnone|]. split.
    + intros ty. unfold Final.tryMatchDFA. fold rest. rewrite Hr. cbn [fst snd].
      destruct (decide ((-1)%Z ≠ (-1)%Z)) as [Hne|_]; [by destruct Hne|done].
    + intros mv. unfold Chess.tryMatchDFA. fold rest.
      rewrite chess_tryMatch_loop.
      destruct (Hloop mv) as [[Hr' _]|(k & Hk & Hle & _ & Hacc & _)].
      * rewrite Hr'. reflexivity.
      * rewrite Hnone in Hacc by done. discriminate.
  - right. exists k. split; [done|]. split; [done|]. split; [done|].
    split; [done|]. split.
    + intros ty. unfold Final.tryMatchDFA. fold rest. rewrite Hr. cbn [fst snd].
      destruct (decide (Z.of_nat (startPos + k) ≠ (-1)%Z)) as [_|Hne]; [done|lia].
    + intros mv. unfold Chess.tryMatchDFA. fold rest.
      rewrite chess_tryMatch_loop.
      destruct (Hloop mv) as [[_ Hnone]|(k2 & Hk2 & Hle2 & Hr2 & Hacc2 & Hmax2)].
      * rewrite Hnone in Hacc by done. discriminate.
      * assert (k2 = k) as ->.
        { destruct (decide (k2 < k)); [rewrite Hmax2 in Hacc by done; discriminate|].
          destruct (decide (k < k2)); [rewrite Hmax in Hacc2 by done; discriminate|].
          lia. }
        rewrite Hr2. cbn [fst snd]. f_equal. apply bool_decide_eq_true. lia.
Qed.

(** X7.  [tryMatchDFA] is maximal munch against the DFA's own acceptance.  At
    [startPos], either the DFA accepts no non-empty prefix of the rest of
    the input and the answer is "no match" (the INVALID token with empty
    text in Final.cpp; [false] with [matchedValue] untouched in
    chessNot.cpp), or the answer carries the longest prefix the DFA
    accepts. *)
Theorem tryMatchDFA_longest_accepted dfa input startPos :
  let rest := drop startPos input in
  ((∀ k, 0 < k → k ≤ length rest → acceptsDFA dfa (take k rest) = false)
   ∧ (∀ ty, Final.tryMatchDFA dfa input startPos ty
            = Final.mkToken Final.INVALID [] (Z.of_nat startPos))
   ∧ (∀ mv, Chess.tryMatchDFA dfa input startPos mv = (false, mv)))
  ∨ (∃ k, 0 < k ∧ k ≤ length rest
       ∧ acceptsDFA dfa (take k rest) = true
       ∧ (∀ k', k < k' → k' ≤ length rest → acceptsDFA dfa (take k' rest) = false)
       ∧ (∀ ty, Final.tryMatchDFA dfa input startPos ty
                = Final.mkToken ty (take k rest) (Z.of_nat startPos))
       ∧ (∀ mv, Chess.tryMatchDFA dfa input startPos mv = (true, take k rest))).
Proof. apply tryMatchDFA_cases. Qed.

(** * The closure is the set of epsilon-reachable states *)

Lemma foldl_closure_visit_keeps stack cl l x :
  x ∈ stack → x ∈ (foldl closure_visit (stack, cl) l).1.
Proof.
  revert stack cl. induction l as [|y l IH]; intros stack cl Hx; [done|].
  cbn [foldl]. unfold closure_visit at 2. simpl.
  destruct (decide (y ∈ cl)); [by apply IH|].
  apply IH. apply elem_of_cons. by right.
Qed.

Lemma foldl_closure_visit_new stack cl l x :
  x ∈ (foldl closure_visit (stack, cl) l).2 →
  x ∈ cl ∨ x ∈ (foldl closure_visit (stack, cl) l).1.
Proof.
  revert stack cl. induction l as [|y l IH]; intros stack cl Hx; [by left|].
  cbn [foldl] in *. unfold closure_visit at 2 in Hx. unfold closure_visit at 2.
  simpl in *. destruct (decide (y ∈ cl)); [by apply IH|].
  destruct (IH _ _ Hx) as [Hin|Hin]; [|by right].
  apply elem_of_union in Hin as [Hy|Hin]; [|by left].
  apply elem_of_singleton in Hy as ->. right.
  apply foldl_closure_visit_keeps. apply elem_of_cons. by left.
Qed.

(** When the work loop ends, every member of the closure has all its
    epsilon successors in the closure. *)
Lemma closure_loop_closed h fuel : ∀ stack cl R,
  closure_loop fuel h stack cl = Some R →
  (∀ q, q ∈ cl → q ∈ stack ∨ ∀ r, r ∈ targets h q epsilon → r ∈ cl) →
  ∀ q, q ∈ R → ∀ r, r ∈ targets h q epsilon → r ∈ R.
Proof.
  induction fuel as [|fuel IH]; intros stack cl R Hrun Hinv.
  - destruct stack as [|cur stack]; [|done]. simpl in Hrun. injection Hrun as <-.
    intros q Hq. destruct (Hinv q Hq) as [Hin|Hall]; [|done].
    by apply elem_of_nil in Hin.
  - destruct stack as [|cur stack].
    { simpl in Hrun. injection Hrun as <-.
      intros q Hq. destruct (Hinv q Hq) as [Hin|Hall]; [|done].
      by apply elem_of_nil in Hin. }
    cbn [closure_loop] in Hrun. cbn zeta in Hrun.
    apply (IH _ _ _ Hrun). intros q Hq.
    destruct (decide (q ∈ cl)) as [Hcl|Hcl].
    + destruct (Hinv q Hcl) as [Hin|Hall].
      * apply elem_of_cons in Hin as [->|Hin].
        -- right. intros r Hr. rewrite foldl_closure_visit_closure.
           apply elem_of_union. right. by apply elem_of_list_to_set.
        -- left. by apply foldl_closure_visit_keeps.
      * right. intros r Hr. rewrite foldl_closure_visit_closure.
        apply elem_of_union. left. by apply Hall.
    + destruct (foldl_closure_visit_new _ _ _ _ Hq) as [Hin|Hin]; [done|by left].
Qed.

Lemma epsilonClosure_closed h fuel (S K : gset nat) :
  epsilonClosure fuel h S ∅ = Some K →
  ∀ q, q ∈ K → ∀ r, r ∈ targets h q epsilon → r ∈ K.
Proof.
  rewrite epsilonClosure_unfold. intros Hrun.
  apply (closure_loop_closed h fuel _ _ _ Hrun).
  intros q Hq. left. apply elem_of_reverse. by apply elem_of_elements.
Qed.

Lemma epsilonClosure_reach h fuel (S K : gset nat) :
  epsilonClosure fuel h S ∅ = Some K →
  ∀ q, q ∈ K ↔ ∃ p, p ∈ S ∧ eps_reach h p q.
Proof.
  intros Hrun q. split.
  - revert q.
    apply (epsilonClosure_inv h (λ q, ∃ p, p ∈ S ∧ eps_reach h p q) fuel S K);
      [|done|].
    + intros p q (s & Hs & Hp) Hq. exists s. split; [done|].
      by eapply eps_reach_step.
    + intros x Hx. exists x. split; [done|constructor].
  - intros (p & Hp & Hreach). induction Hreach as [|q r _ IH Hr].
    + by apply (epsilonClosure_extends h fuel S K Hrun).
    + by apply (epsilonClosure_closed h fuel S K Hrun q).
Qed.

(** X1.  [epsilonClosure], called with an empty result set on a set of states of
    a well-formed heap, returns (the fuel being at least the number of
    states) exactly the states reachable from the set by epsilon moves. *)
Theorem epsilonClosure_exact h fuel (S : gset nat) :
  wf_heap h → S ⊆ universe (length h) → length h ≤ fuel →
  ∃ K, epsilonClosure fuel h S ∅ = Some K
       ∧ ∀ q, q ∈ K ↔ ∃ p, p ∈ S ∧ eps_reach h p q.
Proof.
  intros Hwf HS Hfuel.
  destruct (epsilonClosure_total h fuel S Hwf HS Hfuel) as [K HK].
  exists K. split; [done|]. by apply (epsilonClosure_reach h fuel).
Qed.

(** * The DFA accepts the words the NFA has an accepting path for *)

Lemma nfa_path_eps_reach h p q w r :
  eps_reach h p q → nfa_path h q w r → nfa_path h p w r.
Proof.
  intros Hreach. revert r. induction Hreach as [|q x _ IH Hx]; intros r Hpath.
  - done.
  - apply IH. by eapply nfa_path_eps.
Qed.

Lemma nfa_path_nil_reach h p w r :
  nfa_path h p w r → w = [] → eps_reach h p r.
Proof.
  induction 1 as [p|p q r w Hq _ IH|]; intros Hw; [constructor| |done].
  specialize (IH Hw). clear Hw.
  induction IH as [|x y _ IHx Hy].
  - eapply eps_reach_step; [constructor|done].
  - by eapply eps_reach_step.
Qed.

Lemma nfa_path_no_epsilon h p w r w' :
  nfa_path h p w r → w ≠ epsilon :: w'.
Proof.
  induction 1 as [|p q r w _ _ IH|p c q r w Hc _ _ _]; [done|done|].
  intros [= -> _]. done.
Qed.

(** A path that reads [c :: w] from a member of an epsilon-closed set goes
    through a [c]-successor of the set. *)
Lemma nfa_path_cons_move h (S : gset nat) p cw r :
  nfa_path h p cw r →
  (∀ q, q ∈ S → ∀ x, x ∈ targets h q epsilon → x ∈ S) →
  p ∈ S → ∀ c w, cw = c :: w →
  ∃ q, q ∈ move h S c ∧ nfa_path h q w r.
Proof.
  intros Hpath Hclosed.
  induction Hpath as [|p q r w Hq _ IH|p c q r w Hc Hq Hrest _];
    intros Hp c' w' Heq; [done| |].
  - apply IH; [|done]. by apply (Hclosed p).
  - injection Heq as -> ->. exists q. split; [|done].
    apply elem_of_move. by exists p.
Qed.

(** The set the simulation holds after reading [w] from an epsilon-closed
    set [S] is the set of ends of the paths that read [w] from [S]. *)
Lemma simulate_run_paths h fuel :
  wf_heap h → length h ≤ fuel →
  ∀ w (S : gset nat),
    S ⊆ universe (length h) →
    (∀ q, q ∈ S → ∀ x, x ∈ targets h q epsilon → x ∈ S) →
    ∃ T, simulate_run fuel h S w = Some T
         ∧ ∀ r, r ∈ T ↔ ∃ p, p ∈ S ∧ nfa_path h p w r.
Proof.
  intros Hwf Hfuel. induction w as [|c w IH]; intros S HS Hclosed.
  - exists S. split; [done|]. intros r. split.
    + intros Hr. exists r. split; [done|constructor].
    + intros (p & Hp & Hpath).
      pose proof (nfa_path_nil_reach h p [] r Hpath eq_refl) as Hreach.
      clear Hpath.
      induction Hreach as [|q x _ IHq Hx]; [done|]. by apply (Hclosed q).
  - cbn [simulate_run]. unfold simulate_step.
    destruct (decide (c = epsilon)) as [->|Hc].
    + exists ∅. split; [apply simulate_run_dead|].
      intros r. split; [intros Hr; by apply not_elem_of_empty in Hr|].
      intros (p & _ & Hpath). exfalso.
      by eapply (nfa_path_no_epsilon h p (epsilon :: w) r w).
    + assert (move h S c ⊆ universe (length h)) as Hmv.
      { intros q Hq. apply elem_of_universe. by eapply move_valid. }
      destruct (epsilonClosure_total h fuel (move h S c) Hwf Hmv Hfuel)
        as [K HK].
      pose proof (epsilonClosure_reach h fuel (move h S c) K HK) as HKspec.
      rewrite HK. cbn [mbind option_bind].
      destruct (IH K) as (T & HT & HTspec).
      { intros q Hq. apply elem_of_universe.
        apply HKspec in Hq as (m & Hm & Hreach).
        assert (m < length h) as Hlt by by eapply move_valid.
        clear Hm. induction Hreach as [|x y _ IHx Hy]; [done|].
        by eapply targets_wf. }
      { by apply (epsilonClosure_closed h fuel (move h S c)). }
      exists T. split; [done|]. intros r. rewrite HTspec. split.
      * intros (p' & Hp' & Hpath).
        apply HKspec in Hp' as (m & Hm & Hreach).
        apply elem_of_move in Hm as (s & Hs & Hm).
        exists s. split; [done|].
        apply (nfa_path_sym h s c m r w Hc Hm).
        by eapply nfa_path_eps_reach.
      * intros (p & Hp & Hpath).
        destruct (nfa_path_cons_move h S p (c :: w) r Hpath Hclosed Hp c w eq_refl)
          as (q & Hq & Hrest).
        exists q. split; [|done].
        apply HKspec. exists q. split; [done|constructor].
Qed.

Lemma any_final_spec h (S : gset nat) :
  any_final h S = true ↔ ∃ p st, p ∈ S ∧ h !! p = Some st ∧ isFinal st = true.
Proof.
  split.
  - unfold any_final. intros Hex. apply existsb_exists in Hex as (p & Hp & Hfin).
    apply list_elem_of_In, elem_of_elements in Hp.
    destruct (h !! p) as [st|] eqn:Hst; [|done].
    by exists p, st.
  - intros (p & st & Hp & Hst & Hfin). by eapply any_final_true.
Qed.

(** X3.  The DFA built for a fragment accepts exactly the words that some path
    of the NFA reads from the fragment's start state to a state marked
    final. *)
Theorem convertToDFA_accepts_paths src b fs nfa :
  Built src b fs → nfa ∈ fs →
  ∃ fuel0, ∀ fuel, fuel0 ≤ fuel →
    ∃ dfa, convertToDFA fuel b nfa = Some dfa
           ∧ ∀ w, acceptsDFA dfa w = true ↔ nfa_accepts b nfa w.
Proof.
  intros Hb Hin. destruct (Built_valid src b fs nfa Hb Hin) as [Hwf Hstart].
  exists (length (states b) + size (all_subsets (length (states b))) + 1).
  intros fuel Hfuel.
  destruct (convertToDFA_spec b nfa Hwf Hstart fuel Hfuel)
    as (A & K0 & w & HK0 & Hrun & Hinv & Hnil & (d0 & Hd0 & HdK) & Hal).
  eexists. split; [exact Hrun|]. intros word.
  pose proof (epsilonClosure_reach _ _ _ _ HK0) as HK0spec.
  assert (K0 ⊆ universe (length (states b))) as HK0u.
  { intros q Hq. apply elem_of_universe.
    apply HK0spec in Hq as (p & Hp & Hreach).
    apply elem_of_singleton in Hp as ->.
    induction Hreach as [|x y _ IHx Hy]; [done|]. by eapply targets_wf. }
  destruct (simulate_run_paths (states b) fuel Hwf ltac:(lia) word K0 HK0u)
    as (T & HT & HTspec).
  { by apply (epsilonClosure_closed (states b) fuel {[start nfa]}). }
  assert (∀ r, r ∈ T ↔ nfa_path (states b) (start nfa) word r) as HTstart.
  { intros r. rewrite HTspec. split.
    - intros (p & Hp & Hpath). apply HK0spec in Hp as (s & Hs & Hreach).
      apply elem_of_singleton in Hs as ->. by eapply nfa_path_eps_reach.
    - intros Hpath. exists (start nfa). split; [|done].
      apply HK0spec. exists (start nfa). split; [|constructor].
      by apply elem_of_singleton. }
  assert (any_final (states b) T = true ↔ nfa_accepts b nfa word) as Hfin.
  { rewrite any_final_spec. unfold nfa_accepts. split.
    - intros (p & st & Hp & Hst & Hf). exists p, st. by rewrite <- HTstart.
    - intros (r & st & Hpath & Hst & Hf). exists r, st. by rewrite HTstart. }
  rewrite <- Hfin. unfold acceptsDFA. simpl. subst K0.
  pose proof (dfa_run_simulates _ _ _ _ _ Hinv Hnil Hal word 0 d0 Hd0) as Hsim.
  destruct (dfa_run (w_dfaStates w) 0 word) as [j|].
  - destruct Hsim as (d' & Hd' & Hsim). rewrite Hd'. simpl.
    rewrite (inv_final _ _ _ _ _ _ _ Hinv j d' Hd').
    rewrite HT in Hsim. injection Hsim as ->. done.
  - rewrite HT in Hsim. injection Hsim as ->.
    by rewrite any_final_empty.
Qed.

Lemma convertToDFA_accepts_paths_witness :
  ∃ fuel0, ∀ fuel, fuel0 ≤ fuel →
    ∃ dfa,
      convertToDFA fuel (Chess.createCharNFA "x" newBuilder).1 (mkNFAPtr 0 1)
        = Some dfa
      ∧ ∀ w, acceptsDFA dfa w = true
             ↔ nfa_accepts (Chess.createCharNFA "x" newBuilder).1 (mkNFAPtr 0 1) w.
Proof.
  apply (convertToDFA_accepts_paths ChessNotCpp _ [mkNFAPtr 0 1]).
  - apply (Built_char ChessNotCpp newBuilder [] "x"%char).
    + apply Built_new.
    + reflexivity.
  - apply list_elem_of_here.
Defined.

Lemma star_example_built :
  Built ChessNotCpp star_example.1 [mkNFAPtr 2 3; mkNFAPtr 0 1].
Proof.
  apply (Built_kleeneStar ChessNotCpp (Chess.createCharNFA "a" newBuilder).1
           [mkNFAPtr 0 1] (mkNFAPtr 0 1)).
  - apply (Built_char ChessNotCpp newBuilder [] "a"%char).
    + apply Built_new.
    + reflexivity.
  - apply list_elem_of_here.
  - reflexivity.
Qed.

Lemma epsilonClosure_exact_witness :
  wf_heap (states star_example.1)
  ∧ ({[2]} : gset nat) ⊆ universe (length (states star_example.1))
  ∧ length (states star_example.1) ≤ 4
  ∧ ∃ K, epsilonClosure 4 (states star_example.1) {[2]} ∅ = Some K
         ∧ ∀ q, q ∈ K ↔ ∃ p, p ∈ ({[2]} : gset nat)
                             ∧ eps_reach (states star_example.1) p q.
Proof.
  assert (wf_heap (states star_example.1)) as Hwf.
  { apply (Built_valid ChessNotCpp _ _ (mkNFAPtr 2 3) star_example_built).
    apply list_elem_of_here. }
  assert (({[2]} : gset nat) ⊆ universe (length (states star_example.1))) as Hsub.
  { intros q Hq. apply elem_of_singleton in Hq as ->.
    apply elem_of_universe. vm_compute. lia. }
  assert (length (states star_example.1) ≤ 4) as Hlen by (vm_compute; lia).
  split; [exact Hwf|]. split; [exact Hsub|]. split; [exact Hlen|].
  exact (epsilonClosure_exact _ 4 {[2]} Hwf Hsub Hlen).
Defined.

(** * The expression PDA and its grammar *)

Lemma token_at_type tokens i :
  Final.type (Final.token_at tokens i)
  = default Final.END_OF_INPUT ((Final.type <$> tokens) !! i).
Proof.
  unfold Final.token_at. rewrite list_lookup_fmap.
  by destruct (tokens !! i).
Qed.

Lemma token_at_drop tokens i t l :
  drop i (Final.type <$> tokens) = t :: l →
  Final.type (Final.token_at tokens i) = t
  ∧ i < length tokens
  ∧ drop (S i) (Final.type <$> tokens) = l.
Proof.
  intros Hd. apply drop_cons_lt in Hd as (Hlt & Hi & ->).
  rewrite length_fmap in Hlt. rewrite token_at_type, Hi. done.
Qed.

Lemma pda_reaches_trans tokens c1 c2 c3 :
  pda_reaches tokens c1 c2 → pda_reaches tokens c2 c3 → pda_reaches tokens c1 c3.
Proof.
  induction 1 as [|c c' Hh Hg _ IH]; [done|].
  intros H23. eapply pda_reaches_step; [done|done|]. by apply IH.
Qed.

Lemma pda_reaches_one tokens c c' :
  Final.halted c = false →
  (Final.step tokens c).1 = c' →
  Final.tokenIndex c' ≤ length tokens + 5 →
  pda_reaches tokens c c'.
Proof.
  intros Hh <- Hg. eapply pda_reaches_step; [done|done|constructor].
Qed.

(** Reading an expression where an operand is due leads to [IN_EXPR] with
    the symbol [E] popped and the expression consumed. *)
Lemma expr_run tokens e :
  expr e →
  ∀ st stk i rest,
    st = Final.EXPECT_EXPR ∨ st = Final.AFTER_OPERATOR →
    drop i (Final.type <$> tokens) = e ++ rest →
    pda_reaches tokens (Final.mkConfig st ("E"%string :: stk) i)
                       (Final.mkConfig Final.IN_EXPR stk (i + length e)).
Proof.
  induction 1 as [t Ht|e He IH|e1 e2 He1 IH1 He2 IH2];
    intros st stk i rest Hst Hdrop.
  - apply token_at_drop in Hdrop as (Hty & Hlt & _).
    apply pda_reaches_one.
    + by destruct Hst as [-> | ->].
    + unfold Final.step. cbn [Final.currentState Final.tokenIndex].
      rewrite Hty. simpl.
      replace (i + 1) with (S i) by lia.
      by destruct Hst as [-> | ->], Ht as [-> | ->].
    + simpl. lia.
  - simpl in Hdrop. apply token_at_drop in Hdrop as (Hty & Hlt & Hdrop).
    rewrite <- app_assoc in Hdrop.
    eapply pda_reaches_trans.
    { apply (pda_reaches_one tokens _
               (Final.mkConfig Final.EXPECT_EXPR
                  ("E"%string :: ")"%string :: stk) (S i))).
      - by destruct Hst as [-> | ->].
      - unfold Final.step. cbn [Final.currentState Final.tokenIndex].
        rewrite Hty. by destruct Hst as [-> | ->].
      - simpl. lia. }
    eapply pda_reaches_trans.
    { apply (IH Final.EXPECT_EXPR (")"%string :: stk) (S i) _ (or_introl eq_refl)
                Hdrop). }
    assert (drop (S i + length e) (Final.type <$> tokens) = Final.RPAREN :: rest)
      as Hclose.
    { rewrite <- drop_drop, Hdrop. rewrite drop_app_length. done. }
    apply token_at_drop in Hclose as (Hty2 & Hlt2 & _).
    apply pda_reaches_one.
    + done.
    + unfold Final.step. cbn [Final.currentState Final.tokenIndex].
      rewrite Hty2. simpl. unfold Final.consume, Final.goto, Final.pop. simpl.
      f_equal. rewrite length_app. simpl. lia.
    + simpl. rewrite length_app. simpl. lia.
  - rewrite <- app_assoc in Hdrop.
    eapply pda_reaches_trans; [by eapply IH1|].
    assert (drop (i + length e1) (Final.type <$> tokens)
            = Final.OPERATOR :: e2 ++ rest) as Hop.
    { rewrite <- drop_drop, Hdrop. rewrite drop_app_length. done. }
    apply token_at_drop in Hop as (Hty & Hlt & Hop).
    eapply pda_reaches_trans.
    { apply (pda_reaches_one tokens _
               (Final.mkConfig Final.AFTER_OPERATOR ("E"%string :: stk)
                  (S (i + length e1)))).
      - done.
      - unfold Final.step. cbn [Final.currentState Final.tokenIndex].
        rewrite Hty. done.
      - simpl. lia. }
    replace (i + length (e1 ++ Final.OPERATOR :: e2))
      with (S (i + length e1) + length e2)
      by (rewrite length_app; simpl; lia).
    apply (IH2 Final.AFTER_OPERATOR stk _ rest (or_intror eq_refl) Hop).
Qed.

Lemma expr_types e :
  expr e →
  Forall (λ t, t = Final.IDENTIFIER ∨ t = Final.NUMBER ∨ t = Final.OPERATOR
               ∨ t = Final.LPAREN ∨ t = Final.RPAREN) e.
Proof.
  induction 1 as [t [-> | ->]|e _ IH|e1 e2 _ IH1 _ IH2].
  - repeat constructor.
  - constructor; [tauto|constructor].
  - constructor; [tauto|]. apply Forall_app. split; [done|].
    constructor; [tauto|constructor].
  - apply Forall_app. split; [done|]. constructor; [tauto|done].
Qed.

Lemma expr_head e :
  expr e →
  ∃ t l, e = t :: l
         ∧ (t = Final.IDENTIFIER ∨ t = Final.NUMBER ∨ t = Final.LPAREN).
Proof.
  induction 1 as [t Ht|e _ _|e1 e2 _ (t & l & -> & Ht) _ _].
  - exists t, []. split; [done|]. tauto.
  - eexists _, _. split; [done|]. tauto.
  - eexists _, _. split; [done|]. done.
Qed.

Lemma frame_plug pre y : framep pre → expr y → expr (pre ++ y).
Proof.
  intros [->|(e & He & ->)] Hy; [done|].
  rewrite <- app_assoc. simpl. by constructor.
Qed.

Lemma consumed_app fs x y : consumed fs (x ++ y) = consumed fs x ++ y.
Proof.
  revert x. induction fs as [|pre fs IH]; intros x; [done|]. simpl.
  rewrite <- IH. f_equal. by rewrite <- app_assoc.
Qed.

(** What the PDA accepts is an expression followed by the end of the
    input. *)
Lemma pda_ok_expr m k l :
  pda_ok m k l →
  ∀ fs x,
    length fs = k → Forall framep fs →
    (if m then framep x else expr x) →
    ∃ p rest,
      l = p ++ rest
      ∧ (head rest = Some Final.END_OF_INPUT ∨ rest = [])
      ∧ expr (consumed fs x ++ p).
Proof.
  induction 1 as [l Hl|k l _ IH|k l _ IH|k t l Ht _ IH|k l _ IH];
    intros fs x Hlen Hfs Hx.
  - destruct fs; [|done]. exists [], l. split; [done|]. split; [done|].
    simpl. by rewrite app_nil_r.
  - destruct fs as [|pre fs]; [done|]. injection Hlen as Hlen.
    apply Forall_cons in Hfs as [Hpre Hfs].
    destruct (IH fs (pre ++ Final.LPAREN :: x ++ [Final.RPAREN]) Hlen Hfs)
      as (p & rest & -> & Hrest & He).
    { apply frame_plug; [done|]. by constructor. }
    exists (Final.RPAREN :: p), rest. split; [done|]. split; [done|].
    simpl.
    replace (pre ++ Final.LPAREN :: x ++ [Final.RPAREN])
      with ((pre ++ Final.LPAREN :: x) ++ [Final.RPAREN]) in He
      by (by rewrite <- app_assoc).
    rewrite consumed_app, <- app_assoc in He. done.
  - destruct (IH fs (x ++ [Final.OPERATOR]) Hlen Hfs)
      as (p & rest & -> & Hrest & He).
    { right. by exists x. }
    exists (Final.OPERATOR :: p), rest. split; [done|]. split; [done|].
    rewrite consumed_app, <- app_assoc in He. done.
  - destruct (IH fs (x ++ [t]) Hlen Hfs) as (p & rest & -> & Hrest & He).
    { apply frame_plug; [done|]. by constructor. }
    exists (t :: p), rest. split; [done|]. split; [done|].
    rewrite consumed_app, <- app_assoc in He. done.
  - destruct (IH (x :: fs) []) as (p & rest & -> & Hrest & He).
    { simpl. by rewrite Hlen. }
    { by constructor. }
    { by left. }
    exists (Final.LPAREN :: p), rest. split; [done|]. split; [done|].
    simpl in He. rewrite consumed_app, <- app_assoc in He. done.
Qed.

(** The part of a list before its first [END_OF_INPUT] is determined. *)
Lemma prefix_before_end (p ts rest : list Final.TokenType) :
  p ++ rest = ts ++ [Final.END_OF_INPUT] →
  Final.END_OF_INPUT ∉ p → Final.END_OF_INPUT ∉ ts →
  head rest = Some Final.END_OF_INPUT ∨ rest = [] →
  p = ts.
Proof.
  revert ts. induction p as [|a p IH]; intros ts Heq Hp Hts Hrest.
  - destruct ts as [|b ts]; [done|]. exfalso. simpl in Heq.
    destruct Hrest as [Hh | ->]; [|done].
    destruct rest as [|r rest]; [done|]. simpl in Hh. injection Hh as ->.
    injection Heq as <- _. apply Hts. by left.
  - destruct ts as [|b ts].
    + simpl in Heq. injection Heq as -> Heq. exfalso. apply Hp. by left.
    + simpl in Heq. injection Heq as -> Heq. f_equal.
      apply IH; [done| | |done].
      * intros Hin. apply Hp. by right.
      * intros Hin. apply Hts. by right.
Qed.

Lemma expr_no_end e : expr e → Final.END_OF_INPUT ∉ e.
Proof.
  intros He Hin. apply expr_types in He. rewrite Forall_forall in He.
  destruct (He _ Hin) as [?|[?|[?|[?|?]]]]; discriminate.
Qed.

(** One round of the loop is one lookup in the table.  The stack is never
    empty and never holds the empty string, so [top()] is its head. *)
Lemma step_table tokens cfg :
  head (Final.stackVar cfg) ≠ None → head (Final.stackVar cfg) ≠ Some ""%string →
  (Final.step tokens cfg).1
  = pda_table (Final.currentState cfg)
      (Final.type (Final.token_at tokens (Final.tokenIndex cfg)))
      (bool_decide (Final.tokenIndex cfg + 1 < length tokens
                    ∧ Final.type (Final.token_at tokens (Final.tokenIndex cfg + 1))
                      = Final.ASSIGN))
      (Final.stackVar cfg) (Final.tokenIndex cfg).
Proof.
  intros Hne Hne'. destruct cfg as [st stk idx]. unfold Final.step, pda_table.
  cbn [Final.currentState Final.stackVar Final.tokenIndex] in *.
  destruct stk as [|top stk]; [done|]. cbn [head default tail] in *.
  destruct (Final.type (Final.token_at tokens idx));
    destruct st; cbn; try done;
    repeat case_decide; cbn; try done;
    repeat case_bool_decide; cbn; try done;
    try (exfalso; naive_solver).
Qed.

Lemma parse_loop_S tokens fuel cfg out :
  Final.parse_loop (S fuel) tokens cfg out
  = if Final.halted cfg then
      Some (bool_decide (Final.currentState cfg = Final.ACCEPT),
            out ++ [Final.SyntaxResult
                      (bool_decide (Final.currentState cfg = Final.ACCEPT))])
    else if decide (length tokens + 5
                    < Final.tokenIndex (Final.step tokens cfg).1)
    then Some (false,
               out ++ [Final.Row (Final.currentState cfg)
                         (default ""%string (head (Final.stackVar cfg)))
                         (Final.token_at tokens (Final.tokenIndex cfg))
                         (Final.step tokens cfg).2;
                       Final.InfiniteLoopDetected])
    else Final.parse_loop fuel tokens (Final.step tokens cfg).1
           (out ++ [Final.Row (Final.currentState cfg)
                      (default ""%string (head (Final.stackVar cfg)))
                      (Final.token_at tokens (Final.tokenIndex cfg))
                      (Final.step tokens cfg).2]).
Proof. done. Qed.

Lemma parse_loop_more tokens fuel : ∀ cfg out r,
  Final.parse_loop fuel tokens cfg out = Some r →
  Final.parse_loop (S fuel) tokens cfg out = Some r.
Proof.
  induction fuel as [|fuel IH]; intros cfg out r Hrun.
  - cbn [Final.parse_loop] in *. by destruct (Final.halted cfg).
  - rewrite parse_loop_S in Hrun. rewrite parse_loop_S.
    destruct (Final.halted cfg); [done|].
    destruct (decide (length tokens + 5
                      < Final.tokenIndex (Final.step tokens cfg).1)); [done|].
    by apply IH.
Qed.

Lemma parse_loop_mono tokens fuel fuel' cfg out r :
  Final.parse_loop fuel tokens cfg out = Some r → fuel ≤ fuel' →
  Final.parse_loop fuel' tokens cfg out = Some r.
Proof.
  intros Hrun Hle. induction Hle as [|m _ IH]; [done|].
  by apply parse_loop_more.
Qed.

(** A run that reaches a final configuration is the run [parse] makes. *)
Lemma pda_reaches_parse tokens c c' :
  pda_reaches tokens c c' → Final.halted c' = true →
  ∃ fuel, ∀ out, ∃ out',
    Final.parse_loop fuel tokens c out
    = Some (bool_decide (Final.currentState c' = Final.ACCEPT), out').
Proof.
  induction 1 as [c|c c' Hh Hg _ IH]; intros Hhalt.
  - exists 0. intros out. eexists. cbn [Final.parse_loop]. by rewrite Hhalt.
  - destruct (IH Hhalt) as [fuel Hfuel]. exists (S fuel). intros out.
    cbn [Final.parse_loop]. rewrite Hh. cbn zeta.
    rewrite decide_False by lia. apply Hfuel.
Qed.

Lemma drop_types_nil tokens i :
  drop i (Final.type <$> tokens) = [] →
  Final.type (Final.token_at tokens i) = Final.END_OF_INPUT.
Proof.
  intros Hd. rewrite token_at_type.
  rewrite <- (Nat.add_0_r i), <- lookup_drop, Hd. done.
Qed.

Lemma paren_stack_S k : paren_stack (S k) = ")"%string :: paren_stack k.
Proof. done. Qed.

Lemma paren_stack_0 : paren_stack 0 = ["$"%string].
Proof. done. Qed.

Lemma pda_inv_head cfg k :
  pda_inv cfg k → Final.halted cfg = false →
  head (Final.stackVar cfg) ≠ None ∧ head (Final.stackVar cfg) ≠ Some ""%string.
Proof.
  unfold pda_inv, Final.halted. destruct cfg as [st stk idx]. simpl.
  destruct st; intros Hinv Hh;
    [ by destruct Hinv as [_ ->] | by destruct Hinv as [_ ->]
    | by destruct Hinv as [_ ->] | by subst stk | by destruct k; subst stk
    | by subst stk | .. ];
    apply bool_decide_eq_false in Hh; exfalso; apply Hh; auto.
Qed.

(** An accepting run of the loop reads what [pda_ok] describes. *)
Lemma parse_loop_sound tokens fuel : ∀ cfg out out' k,
  pda_inv cfg k →
  Final.parse_loop fuel tokens cfg out = Some (true, out') →
  pda_accepting (Final.type <$> tokens) cfg k.
Proof.
  induction fuel as [|fuel IH]; intros cfg out out' k Hinv Hrun.
  { cbn [Final.parse_loop] in Hrun.
    destruct (Final.halted cfg) eqn:Hh; [|done].
    injection Hrun as Hacc _. apply bool_decide_eq_true in Hacc.
    unfold pda_accepting. by rewrite Hacc. }
  rewrite parse_loop_S in Hrun.
  destruct (Final.halted cfg) eqn:Hh.
  { injection Hrun as Hacc _. apply bool_decide_eq_true in Hacc.
    unfold pda_accepting. by rewrite Hacc. }
  destruct (decide (length tokens + 5
                    < Final.tokenIndex (Final.step tokens cfg).1)); [done|].
  assert (∀ k', pda_inv (Final.step tokens cfg).1 k' →
                pda_accepting (Final.type <$> tokens)
                              (Final.step tokens cfg).1 k') as Hnext.
  { intros k' Hinv'. by eapply IH. }
  clear Hrun IH.
  destruct (pda_inv_head cfg k Hinv Hh) as [Hne Hne'].
  rewrite (step_table tokens cfg Hne Hne') in Hnext. clear Hne Hne'.
  destruct cfg as [st stk idx].
  unfold pda_inv in Hinv. unfold pda_accepting.
  cbn [Final.currentState Final.stackVar Final.tokenIndex] in *.
  destruct (drop idx (Final.type <$> tokens)) as [|t l] eqn:Hl.
  - (* past the last token: the current token is END_OF_INPUT *)
    rewrite (drop_types_nil _ _ Hl) in Hnext.
    destruct st; try done; cbn in Hnext.
    + destruct (Hnext 0 I).
    + destruct (Hnext 0 I).
    + destruct Hinv as [-> ->]. specialize (Hnext 0 eq_refl).
      unfold pda_accepting in Hnext. cbn in Hnext. by rewrite Hl in Hnext.
    + destruct (Hnext 0 I).
    + subst stk. destruct k as [|k]; [constructor; by right|].
      cbn in Hnext. try rewrite decide_False in Hnext by done.
      destruct (Hnext 0 I).
    + destruct (Hnext 0 I).
  - apply token_at_drop in Hl as Hl'. destruct Hl' as (Hty & Hlt & Hl').
    rewrite Hty in Hnext.
    replace (idx + 1) with (S idx) in Hnext by lia.
    destruct st; try done.
    + (* START *)
      destruct Hinv as [-> ->].
      destruct t; cbn in Hnext; try (destruct (Hnext 0 I)).
      * case_bool_decide as Hassign.
        -- right. specialize (Hnext 0 (conj eq_refl eq_refl)).
           unfold pda_accepting in Hnext. cbn in Hnext.
           rewrite Hl' in Hnext. destruct Hnext as (l' & -> & Hok).
           by exists l'.
        -- left. specialize (Hnext 0 eq_refl).
           unfold pda_accepting in Hnext. cbn in Hnext. by rewrite Hl in Hnext.
      * left. specialize (Hnext 0 eq_refl).
        unfold pda_accepting in Hnext. cbn in Hnext. by rewrite Hl in Hnext.
      * left. specialize (Hnext 0 eq_refl).
        unfold pda_accepting in Hnext. cbn in Hnext. by rewrite Hl in Hnext.
    + (* EXPECT_ASSIGNMENT *)
      destruct Hinv as [-> ->].
      destruct t; cbn in Hnext; try (destruct (Hnext 0 I)).
      specialize (Hnext 0 (conj eq_refl eq_refl)).
      unfold pda_accepting in Hnext. cbn in Hnext.
      rewrite Hl' in Hnext. by exists l.
    + (* AFTER_ASSIGNMENT *)
      destruct Hinv as [-> ->]. cbn in Hnext.
      specialize (Hnext 0 eq_refl).
      unfold pda_accepting in Hnext. cbn in Hnext. by rewrite Hl in Hnext.
    + (* EXPECT_EXPR *)
      subst stk.
      destruct t; cbn in Hnext; try (destruct (Hnext 0 I)).
      * specialize (Hnext k eq_refl).
        unfold pda_accepting in Hnext. cbn in Hnext.
        rewrite Hl' in Hnext. constructor; [by left|done].
      * specialize (Hnext k eq_refl).
        unfold pda_accepting in Hnext. cbn in Hnext.
        rewrite Hl' in Hnext. constructor; [by right|done].
      * specialize (Hnext (S k) eq_refl).
        unfold pda_accepting in Hnext. cbn in Hnext.
        rewrite Hl' in Hnext. by constructor.
    + (* IN_EXPR *)
      subst stk.
      destruct t; cbn in Hnext; try (destruct (Hnext 0 I)).
      * specialize (Hnext k eq_refl).
        unfold pda_accepting in Hnext. cbn in Hnext.
        rewrite Hl' in Hnext. by constructor.
      * destruct k as [|k]; cbn in Hnext;
          try rewrite decide_True in Hnext by done;
          try rewrite decide_False in Hnext by done;
          [destruct (Hnext 0 I)|].
        specialize (Hnext k eq_refl).
        unfold pda_accepting in Hnext. cbn in Hnext.
        rewrite Hl' in Hnext. by constructor.
      * destruct k as [|k]; cbn in Hnext;
          try rewrite decide_True in Hnext by done;
          try rewrite decide_False in Hnext by done;
          [|destruct (Hnext 0 I)].
        constructor. by left.
    + (* AFTER_OPERATOR *)
      subst stk.
      destruct t; cbn in Hnext; try (destruct (Hnext 0 I)).
      * specialize (Hnext k eq_refl).
        unfold pda_accepting in Hnext. cbn in Hnext.
        rewrite Hl' in Hnext. constructor; [by left|done].
      * specialize (Hnext k eq_refl).
        unfold pda_accepting in Hnext. cbn in Hnext.
        rewrite Hl' in Hnext. constructor; [by right|done].
      * specialize (Hnext (S k) eq_refl).
        unfold pda_accepting in Hnext. cbn in Hnext.
        rewrite Hl' in Hnext. by constructor.
Qed.

(** A statement followed by the end of the input drives the loop to
    [ACCEPT]. *)
Lemma statement_run tokens ts :
  Final.type <$> tokens = ts ++ [Final.END_OF_INPUT] →
  statement ts →
  ∃ c, pda_reaches tokens (Final.mkConfig Final.START ["$"%string] 0) c
       ∧ Final.currentState c = Final.ACCEPT.
Proof.
  intros Htys Hst.
  assert (∀ e i,
            expr e → drop i (Final.type <$> tokens) = e ++ [Final.END_OF_INPUT] →
            pda_reaches tokens
              (Final.mkConfig Final.EXPECT_EXPR ["E"%string; "$"%string] i)
              (Final.mkConfig Final.ACCEPT [] (i + length e))) as Hexpr.
  { intros e i He Hdrop.
    eapply pda_reaches_trans.
    { by apply (expr_run tokens e He Final.EXPECT_EXPR ["$"%string] i
                  [Final.END_OF_INPUT] (or_introl eq_refl)). }
    assert (drop (i + length e) (Final.type <$> tokens) = [Final.END_OF_INPUT])
      as Hend.
    { rewrite <- drop_drop, Hdrop. by rewrite drop_app_length. }
    apply token_at_drop in Hend as (Hty & Hlt & _).
    apply pda_reaches_one; [done| |simpl; lia].
    rewrite step_table by done. cbn. by rewrite Hty. }
  destruct Hst as [He|(e & He & ->)].
  - exists (Final.mkConfig Final.ACCEPT [] (0 + length ts)). split; [|done].
    eapply pda_reaches_trans; [|by apply Hexpr].
    destruct (expr_head ts He) as (t & l & -> & Ht).
    assert (Final.type (Final.token_at tokens 0) = t) as Hty.
    { rewrite token_at_type, Htys. done. }
    apply pda_reaches_one; [done| |simpl; lia].
    rewrite step_table by done. cbn. rewrite Hty.
    destruct Ht as [-> |[-> | ->]]; [|done|done]. cbn.
    rewrite bool_decide_eq_false_2; [done|].
    intros [_ Hassign]. rewrite token_at_type, Htys in Hassign.
    apply expr_types in He. rewrite Forall_forall in He.
    destruct l as [|t2 l]; [done|]. simpl in Hassign. subst t2.
    destruct (He Final.ASSIGN) as [?|[?|[?|[?|?]]]]; try done.
    apply elem_of_cons. right. apply elem_of_cons. by left.
  - exists (Final.mkConfig Final.ACCEPT [] (2 + length e)). split; [|done].
    assert (Final.type (Final.token_at tokens 0) = Final.IDENTIFIER) as Hty0.
    { rewrite token_at_type, Htys. done. }
    assert (Final.type (Final.token_at tokens 1) = Final.ASSIGN) as Hty1.
    { rewrite token_at_type, Htys. done. }
    assert (2 ≤ length tokens) as Hlen.
    { rewrite <- (length_fmap Final.type), Htys. simpl. lia. }
    eapply pda_reaches_trans.
    { apply (pda_reaches_one tokens _
               (Final.mkConfig Final.EXPECT_ASSIGNMENT ["$"%string] 1));
        [done| |simpl; lia].
      rewrite step_table by done. cbn. rewrite Hty0. cbn.
      rewrite bool_decide_eq_true_2; [done|]. split; [lia|done]. }
    eapply pda_reaches_trans.
    { apply (pda_reaches_one tokens _
               (Final.mkConfig Final.AFTER_ASSIGNMENT ["$"%string] 2));
        [done| |simpl; lia].
      rewrite step_table by done. cbn. by rewrite Hty1. }
    eapply pda_reaches_trans.
    { apply (pda_reaches_one tokens _
               (Final.mkConfig Final.EXPECT_EXPR ["E"%string; "$"%string] 2));
        [done| |simpl; lia].
      by rewrite step_table by done. }
    apply Hexpr; [done|]. by rewrite Htys.
Qed.

Lemma parse_statement_iff tokens ts fuel :
  Final.type <$> tokens = ts ++ [Final.END_OF_INPUT] →
  Final.END_OF_INPUT ∉ ts →
  3 * length tokens + 2 ≤ fuel →
  ∃ result out,
    Final.parse fuel tokens = Some (result, out)
    ∧ (result = true ↔ statement ts).
Proof.
  intros Htys Hend Hfuel. unfold Final.parse.
  destruct (parse_loop_total tokens fuel
              (Final.mkConfig Final.START ["$"%string] 0) [])
    as (result & rows & Hrun & _).
  { simpl. lia. }
  { unfold pda_measure. simpl. lia. }
  exists result, ([] ++ rows ++ [Final.SyntaxResult result]).
  split; [exact Hrun|]. split.
  - intros ->.
    assert (pda_inv (Final.mkConfig Final.START ["$"%string] 0) 0) as Hinv
      by (by split).
    pose proof (parse_loop_sound tokens fuel _ _ _ 0 Hinv Hrun) as Hacc.
    unfold pda_accepting in Hacc. cbn in Hacc. rewrite Htys in Hacc.
    destruct Hacc as [Hok|(l' & Hl' & Hok)].
    + destruct (pda_ok_expr _ _ _ Hok [] [] eq_refl (Forall_nil_2 _) (or_introl eq_refl))
        as (p & rest & Heq & Hrest & He).
      simpl in He. left.
      assert (p = ts) as <-; [|done].
      symmetry in Heq.
      apply (prefix_before_end p ts rest Heq); [by apply expr_no_end|done|done].
    + destruct (pda_ok_expr _ _ _ Hok [] [] eq_refl (Forall_nil_2 _) (or_introl eq_refl))
        as (p & rest & Heq & Hrest & He).
      simpl in He. right. exists p. split; [done|].
      destruct ts as [|t1 ts]; [done|].
      destruct ts as [|t2 ts]; [done|].
      simpl in Hl'. injection Hl' as -> -> Hl'. do 2 f_equal.
      symmetry. rewrite Heq in Hl'. symmetry in Hl'.
      apply (prefix_before_end p ts rest Hl'); [by apply expr_no_end| |done].
      intros Hin. apply Hend. do 2 (apply elem_of_cons; right). done.
  - intros Hst.
    destruct (statement_run tokens ts Htys Hst) as (c & Hreach & Hc).
    destruct (pda_reaches_parse tokens _ c Hreach) as [fuel' Hfuel'].
    { unfold Final.halted. apply bool_decide_eq_true. by left. }
    destruct (Hfuel' []) as [out' Hrun'].
    rewrite Hc, bool_decide_eq_true_2 in Hrun' by done.
    pose proof (parse_loop_mono _ _ (fuel `max` fuel') _ _ _ Hrun ltac:(lia)) as H1.
    pose proof (parse_loop_mono _ _ (fuel `max` fuel') _ _ _ Hrun' ltac:(lia)) as H2.
    rewrite H1 in H2. by injection H2 as ->.
Qed.

(** X10.  [PDA::parse] accepts the statements of the grammar and nothing else:
    on a token list that ends with its only [END_OF_INPUT] token, it
    returns [true] exactly when the types of the tokens before it form an
    expression, or an identifier, [=] and an expression. *)
Theorem parse_accepts_statements tokens ts fuel :
  Final.type <$> tokens = ts ++ [Final.END_OF_INPUT] →
  Final.END_OF_INPUT ∉ ts →
  3 * length tokens + 2 ≤ fuel →
  ∃ result out,
    Final.parse fuel tokens = Some (result, out)
    ∧ (result = true ↔ statement ts).
Proof. apply parse_statement_iff. Qed.

Lemma parse_accepts_statements_witness :
  Final.type <$> tokens_incomplete
  = [Final.NUMBER; Final.OPERATOR] ++ [Final.END_OF_INPUT]
  ∧ (Final.END_OF_INPUT ∉ [Final.NUMBER; Final.OPERATOR])
  ∧ 3 * length tokens_incomplete + 2 ≤ 11
  ∧ ∃ result out,
      Final.parse 11 tokens_incomplete = Some (result, out)
      ∧ (result = true ↔ statement [Final.NUMBER; Final.OPERATOR]).
Proof.
  assert (Final.END_OF_INPUT ∉ [Final.NUMBER; Final.OPERATOR]) as Hend.
  { intros Hin. apply elem_of_cons in Hin as [Hin|Hin]; [discriminate|].
    apply elem_of_cons in Hin as [Hin|Hin]; [discriminate|].
    by apply elem_of_nil in Hin. }
  assert (3 * length tokens_incomplete + 2 ≤ 11) as Hfuel by (simpl; lia).
  split; [reflexivity|]. split; [exact Hend|]. split; [exact Hfuel|].
  exact (parse_accepts_statements tokens_incomplete
           [Final.NUMBER; Final.OPERATOR] 11 eq_refl Hend Hfuel).
Defined.

(** The shape of the stack is kept by every round. *)
Lemma pda_inv_step tokens cfg k :
  pda_inv cfg k → Final.halted cfg = false →
  ∃ k', pda_inv (Final.step tokens cfg).1 k'.
Proof.
  intros Hinv Hh. destruct (pda_inv_head cfg k Hinv Hh) as [Hne Hne'].
  rewrite (step_table tokens cfg Hne Hne'). clear Hne Hne'.
  destruct cfg as [st stk idx]. unfold pda_inv in *.
  cbn [Final.currentState Final.stackVar Final.tokenIndex] in *.
  destruct st; try done.
  - destruct Hinv as [-> ->]. exists 0.
    destruct (Final.type _); cbn; try done. by case_bool_decide.
  - destruct Hinv as [-> ->]. exists 0. by destruct (Final.type _).
  - destruct Hinv as [-> ->]. by exists 0.
  - subst stk. destruct (Final.type _); cbn;
      try (by exists 0); try (by exists k). by exists (S k).
  - subst stk. destruct (Final.type _); cbn; try (by exists 0).
    + by exists k.
    + destruct k as [|k]; cbn.
      * exists 0. by rewrite decide_False by done.
      * exists k. by rewrite decide_True by done.
    + exists 0. by case_decide.
  - subst stk. destruct (Final.type _); cbn;
      try (by exists 0); try (by exists k). by exists (S k).
Qed.

Lemma parse_loop_rows tokens fuel : ∀ cfg out0 k result out,
  pda_inv cfg k →
  Final.parse_loop fuel tokens cfg out0 = Some (result, out) →
  ∀ o, o ∈ out → o ∈ out0 ∨ row_top_ok o.
Proof.
  induction fuel as [|fuel IH]; intros cfg out0 k result out Hinv Hrun o Ho.
  { cbn [Final.parse_loop] in Hrun.
    destruct (Final.halted cfg); [|done]. injection Hrun as _ <-.
    apply elem_of_app in Ho as [Ho|Ho]; [by left|].
    apply list_elem_of_singleton in Ho as ->. by right. }
  rewrite parse_loop_S in Hrun.
  destruct (Final.halted cfg) eqn:Hh.
  { injection Hrun as _ <-.
    apply elem_of_app in Ho as [Ho|Ho]; [by left|].
    apply list_elem_of_singleton in Ho as ->. by right. }
  assert (row_top_ok (Final.Row (Final.currentState cfg)
                        (default ""%string (head (Final.stackVar cfg)))
                        (Final.token_at tokens (Final.tokenIndex cfg))
                        (Final.step tokens cfg).2)) as Hrow.
  { clear Hrun. destruct cfg as [st stk idx]. unfold pda_inv in Hinv.
    unfold Final.halted in Hh. apply bool_decide_eq_false in Hh.
    cbn [Final.currentState Final.stackVar Final.tokenIndex] in *.
    unfold row_top_ok.
    destruct st.
    - by destruct Hinv as [_ ->].
    - by destruct Hinv as [_ ->].
    - by destruct Hinv as [_ ->].
    - by subst stk.
    - subst stk. destruct k; cbn; auto.
    - by subst stk.
    - apply Hh. by left.
    - apply Hh. by right. }
  destruct (decide (length tokens + 5
                    < Final.tokenIndex (Final.step tokens cfg).1)).
  { injection Hrun as _ <-.
    apply elem_of_app in Ho as [Ho|Ho]; [by left|]. right.
    apply elem_of_cons in Ho as [->|Ho]; [done|].
    apply list_elem_of_singleton in Ho as ->. done. }
  destruct (pda_inv_step tokens cfg k Hinv Hh) as [k' Hinv'].
  destruct (IH _ _ k' _ _ Hinv' Hrun o Ho) as [Hin|Hok]; [|by right].
  apply elem_of_app in Hin as [Hin|Hin]; [by left|].
  apply list_elem_of_singleton in Hin as ->. by right.
Qed.

(** X11.  [stackVar.top()] is never called on an empty stack: in every row that
    [parse] writes, the stack top is the symbol the state calls for, ["$"]
    before the expression starts, ["E"] where an operand is due, and ["$"]
    or [")"] after an operand. *)
Theorem parse_stack_top tokens fuel result out :
  Final.parse fuel tokens = Some (result, out) →
  Forall row_top_ok out.
Proof.
  intros Hrun. apply Forall_forall. intros o Ho.
  assert (pda_inv (Final.mkConfig Final.START ["$"%string] 0) 0) as Hinv
    by (by split).
  destruct (parse_loop_rows tokens fuel _ [] 0 result out Hinv Hrun o Ho)
    as [Hin|Hok]; [|done].
  by apply elem_of_nil in Hin.
Qed.

Lemma parse_stack_top_witness :
  ∃ out, Final.parse 11 tokens_incomplete = Some (false, out)
         ∧ Forall row_top_ok out.
Proof.
  eexists. split; [vm_compute; reflexivity|].
  eapply (parse_stack_top tokens_incomplete 11 false).
  vm_compute. reflexivity.
Defined.

(** * Tokens are slices of the input, and no character is lost *)

Lemma substr_one (input : list ascii) pos c :
  input !! pos = Some c → substr input pos 1 = [c].
Proof.
  intros Hc. unfold substr.
  rewrite (drop_S _ _ _ Hc). done.
Qed.

Lemma final_tryMatchDFA_slice dfa input pos ty :
  Final.type (Final.tryMatchDFA dfa input pos ty) ≠ Final.INVALID →
  slice_of input pos pos (Final.value (Final.tryMatchDFA dfa input pos ty)).
Proof.
  intros Hty.
  destruct (tryMatchDFA_cases dfa input pos)
    as [(_ & Hnone & _)|(k & Hk & Hle & _ & _ & Hsome & _)].
  - rewrite Hnone in Hty. done.
  - rewrite Hsome. simpl. rewrite length_drop in Hle.
    assert (length (take k (drop pos input)) = k) as Hlen.
    { rewrite length_take, length_drop. lia. }
    split; [done|]. rewrite Hlen. split; [done|]. split; [lia|]. done.
Qed.

Lemma final_getNextToken_slice lx input pos :
  pos < length input →
  final_slice input pos (Final.getNextToken lx input pos).
Proof.
  intros Hlt. destruct (lookup_lt_is_Some_2 _ _ Hlt) as [c Hc].
  assert (slice_of input pos pos [c]) as Hone.
  { split; [done|]. simpl. split; [lia|]. split; [lia|].
    by rewrite (substr_one _ _ _ Hc). }
  exists pos. rewrite final_getNextToken_position. split; [done|].
  unfold Final.getNextToken. rewrite Hc.
  change (default epsilon (Some c)) with c.
  destruct (Final.singleCharTokens lx !! c); [exact Hone|].
  case_decide as Hid; [by apply final_tryMatchDFA_slice|].
  case_decide as Hnum; [by apply final_tryMatchDFA_slice|]. exact Hone.
Qed.

Lemma final_covered_app toks toks' i :
  final_covered toks i ∨ final_covered toks' i → final_covered (toks ++ toks') i.
Proof.
  intros [(t & Ht & Hi)|(t & Ht & Hi)]; exists t; (split; [|done]);
    apply elem_of_app; auto.
Qed.

(** The loop of Final.cpp's [tokenize] from [pos]: it ends at the end of
    the input; every token it adds is a slice of the input at or after
    [pos]; and every character from [pos] on is white space or inside one
    of the added tokens. *)
Lemma final_tokenize_loop_cover lx input fuel : ∀ pos tokens,
  length input - pos ≤ fuel → pos ≤ length input →
  ∃ toks,
    Final.tokenize_loop fuel lx input pos tokens
    = Some (tokens ++ toks, length input)
    ∧ Forall (final_slice input pos) toks
    ∧ ∀ i, pos ≤ i → i < length input →
           final_covered toks i ∨ isspace (default epsilon (input !! i)) = true.
Proof.
  induction fuel as [|fuel IH]; intros pos tokens Hfuel Hpos.
  - exists []. cbn [Final.tokenize_loop]. rewrite decide_False by lia.
    rewrite app_nil_r. replace pos with (length input) by lia.
    split; [done|]. split; [constructor|]. intros i ? ?. lia.
  - cbn [Final.tokenize_loop].
    destruct (decide (pos < length input)) as [Hlt|Hge].
    2:{ exists []. rewrite app_nil_r. replace pos with (length input) by lia.
        split; [done|]. split; [constructor|]. intros i ? ?. lia. }
    destruct (isspace (default epsilon (input !! pos))) eqn:Hsp.
    + destruct (IH (S pos) tokens ltac:(lia) ltac:(lia)) as (toks & Hrun & Hall & Hcov).
      exists toks. split; [done|]. split.
      * eapply Forall_impl; [exact Hall|].
        intros t (p & Hp & Hlo & Hrest). exists p. split; [done|].
        split; [lia|done].
      * intros i Hi Hlen. destruct (decide (i = pos)) as [->|Hne]; [by right|].
        apply Hcov; lia.
    + destruct (final_getNextToken_slice lx input pos Hlt)
        as (p & Hp & Hlo & Hpos' & Hfit & Hval).
      rewrite final_getNextToken_position in Hp.
      assert (p = pos) as -> by lia.
      set (token := Final.getNextToken lx input pos) in *.
      destruct (IH (pos + length (Final.value token)) (tokens ++ [token])
                  ltac:(lia) ltac:(lia)) as (toks & Hrun & Hall & Hcov).
      exists (token :: toks). split.
      { rewrite Hrun. by rewrite <- app_assoc. }
      split.
      * constructor.
        -- exists pos. split; [apply final_getNextToken_position|]. done.
        -- eapply Forall_impl; [exact Hall|].
           intros t (q & Hq & Hlo' & Hrest). exists q. split; [done|].
           split; [lia|done].
      * intros i Hi Hlen.
        destruct (decide (i < pos + length (Final.value token))) as [Hin|Hout].
        -- left. exists token. split; [by left|].
           unfold token at 1 2. rewrite final_getNextToken_position. lia.
        -- destruct (Hcov i ltac:(lia) Hlen) as [(t & Ht & Hti)|Hspace]; [|by right].
           left. exists t. split; [by right|done].
Qed.

(** X8.  Final.cpp's [tokenize] loses no character.  The token list is the
    tokens read followed by [END_OF_INPUT] at the input length; the text of
    each token read is the slice of the input at the token's position; and
    every character of the input is white space or lies inside a token. *)
Theorem final_tokenize_covers_input lx input fuel :
  length input ≤ fuel →
  ∃ body,
    Final.tokenize fuel lx input
    = Some (body ++ [Final.mkToken Final.END_OF_INPUT []
                       (Z.of_nat (length input))])
    ∧ Forall (final_slice input 0) body
    ∧ ∀ i, i < length input →
           final_covered body i ∨ isspace (default epsilon (input !! i)) = true.
Proof.
  intros Hfuel. unfold Final.tokenize.
  destruct (final_tokenize_loop_cover lx input fuel 0 [] ltac:(lia) ltac:(lia))
    as (toks & -> & Hall & Hcov).
  exists toks. split; [done|]. split; [done|].
  intros i Hi. apply Hcov; lia.
Qed.

Lemma final_tokenize_covers_input_witness :
  length (str "a b") ≤ 3
  ∧ ∃ body,
      Final.tokenize 3
        (Final.mkLexer (mkDFA [] 0) (mkDFA [] 0)
           Final.initializeSingleCharTokens newBuilder) (str "a b")
      = Some (body ++ [Final.mkToken Final.END_OF_INPUT []
                         (Z.of_nat (length (str "a b")))])
      ∧ Forall (final_slice (str "a b") 0) body
      ∧ ∀ i, i < length (str "a b") →
             final_covered body i
             ∨ isspace (default epsilon (str "a b" !! i)) = true.
Proof.
  assert (length (str "a b") ≤ 3) as Hlen by (vm_compute; lia).
  split; [exact Hlen|].
  exact (final_tokenize_covers_input _ (str "a b") 3 Hlen).
Defined.

(** ** The notation lexer *)

Lemma chess_candidate_slice input pos p c :
  chess_candidate input pos p = Some c →
  c.1 = p.2 ∧ slice_of input pos pos c.2.
Proof.
  unfold chess_candidate.
  destruct (tryMatchDFA_cases p.1 input pos)
    as [(_ & _ & Hnone)|(k & Hk & Hle & _ & _ & _ & Hsome)].
  - rewrite Hnone. done.
  - rewrite Hsome. simpl. intros [= <-]. simpl. split; [done|].
    rewrite length_drop in Hle.
    assert (length (take k (drop pos input)) = k) as Hlen.
    { rewrite length_take, length_drop. lia. }
    split; [done|]. rewrite Hlen. split; [done|]. split; [lia|done].
Qed.

Lemma chess_pattern_types lx p :
  p ∈ chess_patterns lx →
  p.2 ≠ Chess.INVALID ∧ p.2 ≠ Chess.END_OF_INPUT.
Proof.
  unfold chess_patterns. intros Hin.
  repeat (apply elem_of_cons in Hin as [->|Hin]; [done|]).
  by apply elem_of_nil in Hin.
Qed.

(** A token of [tryMatchLongest] that is not INVALID has the type of one of
    the thirteen classes and a text that is a slice of the input. *)
Lemma chess_tryMatchLongest_slice lx input pos :
  Chess.type (Chess.tryMatchLongest lx input pos) ≠ Chess.INVALID →
  (∃ p, p ∈ chess_patterns lx
        ∧ Chess.type (Chess.tryMatchLongest lx input pos) = p.2)
  ∧ slice_of input pos pos (Chess.value (Chess.tryMatchLongest lx input pos)).
Proof.
  intros Hty.
  destruct (decide (Chess.all_candidates lx input pos = [])) as [Hnil|Hne].
  { unfold Chess.tryMatchLongest in Hty. by rewrite Hnil in Hty. }
  destruct (tryMatchLongest_first_longest lx input pos Hne)
    as (pre & post & Heq & _).
  assert ((Chess.type (Chess.tryMatchLongest lx input pos),
           Chess.value (Chess.tryMatchLongest lx input pos))
          ∈ Chess.all_candidates lx input pos) as Hin.
  { rewrite Heq. apply elem_of_app. right. apply elem_of_cons. by left. }
  rewrite all_candidates_patterns in Hin.
  apply list_elem_of_omap in Hin as (p & Hp & Hc).
  apply chess_candidate_slice in Hc as [Hc1 Hc2]. simpl in *.
  split; [by exists p|done].
Qed.

Lemma chess_getNextToken_position lx input pos :
  Chess.position (Chess.getNextToken lx input pos) = Z.of_nat pos.
Proof.
  unfold Chess.getNextToken. case_decide; [|done].
  apply chess_tryMatchLongest_position.
Qed.

Lemma chess_getNextToken_valid lx input pos :
  Chess.type (Chess.getNextToken lx input pos) ≠ Chess.INVALID →
  Chess.type (Chess.getNextToken lx input pos) ≠ Chess.END_OF_INPUT
  ∧ chess_slice input pos (Chess.getNextToken lx input pos).
Proof.
  unfold Chess.getNextToken. case_decide as Hty; [|done]. intros _.
  destruct (chess_tryMatchLongest_slice lx input pos Hty)
    as [(p & Hp & Hpty) Hslice].
  split.
  - rewrite Hpty. by apply (chess_pattern_types lx).
  - exists pos. split; [apply chess_tryMatchLongest_position|done].
Qed.

(** The loop of chessNot.cpp's [tokenize] from [pos]: it ends at the end of
    the input; the tokens it adds are slices of the input at or after
    [pos], none INVALID and none END_OF_INPUT; and the error flag is raised
    exactly when it was up already or some character from [pos] on is
    neither white space nor inside an added token. *)
Lemma chess_tokenize_loop_cover lx input fuel : ∀ pos tokens err,
  length input - pos ≤ fuel → pos ≤ length input →
  ∃ toks err',
    Chess.tokenize_loop fuel lx input pos tokens err
    = Some (tokens ++ toks, err', length input)
    ∧ Forall (λ t, chess_slice input pos t
                   ∧ Chess.type t ≠ Chess.INVALID
                   ∧ Chess.type t ≠ Chess.END_OF_INPUT) toks
    ∧ (err' = true ↔
       err = true
       ∨ ∃ i, pos ≤ i ∧ i < length input
              ∧ ¬ chess_covered toks i
              ∧ isspace (default epsilon (input !! i)) = false).
Proof.
  induction fuel as [|fuel IH]; intros pos tokens err Hfuel Hpos.
  - exists [], err. cbn [Chess.tokenize_loop]. rewrite decide_False by lia.
    rewrite app_nil_r. replace pos with (length input) by lia.
    split; [done|]. split; [constructor|]. split; [by left|].
    intros [?|(i & ? & ? & _)]; [done|lia].
  - cbn [Chess.tokenize_loop].
    destruct (decide (pos < length input)) as [Hlt|Hge].
    2:{ exists [], err. rewrite app_nil_r. replace pos with (length input) by lia.
        split; [done|]. split; [constructor|]. split; [by left|].
        intros [?|(i & ? & ? & _)]; [done|lia]. }
    assert (∀ lo toks i,
              Forall (λ t, chess_slice input lo t
                           ∧ Chess.type t ≠ Chess.INVALID
                           ∧ Chess.type t ≠ Chess.END_OF_INPUT) toks →
              i < lo → ¬ chess_covered toks i) as Hbefore.
    { intros lo toks i Hall Hi (t & Ht & Hti).
      rewrite Forall_forall in Hall.
      destruct (Hall t Ht) as [(p & Hp & Hlo & _) _]. lia. }
    destruct (isspace (default epsilon (input !! pos))) eqn:Hsp.
    + destruct (IH (S pos) tokens err ltac:(lia) ltac:(lia))
        as (toks & err' & Hrun & Hall & Herr).
      exists toks, err'. split; [done|]. split.
      * eapply Forall_impl; [exact Hall|].
        intros t [(p & Hp & Hlo & Hrest) Hty]. split; [|done].
        exists p. split; [done|]. split; [lia|done].
      * rewrite Herr. split.
        -- intros [?|(i & Hi & Hlen & Hcov & Hns)]; [by left|].
           right. exists i. split; [lia|done].
        -- intros [?|(i & Hi & Hlen & Hcov & Hns)]; [by left|].
           right. exists i. split; [|done].
           destruct (decide (i = pos)) as [->|]; [congruence|lia].
    + destruct (decide (Chess.type (Chess.getNextToken lx input pos)
                        = Chess.INVALID)) as [Hinv|Hok].
      * destruct (IH (S pos) tokens true ltac:(lia) ltac:(lia))
          as (toks & err' & Hrun & Hall & Herr).
        exists toks, err'. split; [done|]. split.
        -- eapply Forall_impl; [exact Hall|].
           intros t [(p & Hp & Hlo & Hrest) Hty]. split; [|done].
           exists p. split; [done|]. split; [lia|done].
        -- split.
           ++ intros _. right. exists pos. split; [done|]. split; [done|].
              split; [|done]. apply (Hbefore (S pos)); [done|lia].
           ++ intros _. apply Herr. by left.
      * destruct (chess_getNextToken_valid lx input pos Hok)
          as (Hend & p & Hp & Hlo & Hpos' & Hfit & Hval).
        rewrite chess_getNextToken_position in Hp.
        assert (p = pos) as -> by lia.
        set (token := Chess.getNextToken lx input pos) in *.
        destruct (IH (pos + length (Chess.value token)) (tokens ++ [token]) err
                    ltac:(lia) ltac:(lia)) as (toks & err' & Hrun & Hall & Herr).
        exists (token :: toks), err'. split.
        { rewrite Hrun. by rewrite <- app_assoc. }
        assert (Chess.position token = Z.of_nat pos) as Htp
          by apply chess_getNextToken_position.
        split.
        -- constructor.
           ++ split; [|done]. by exists pos.
           ++ eapply Forall_impl; [exact Hall|].
              intros t [(q & Hq & Hlo' & Hrest) Hty]. split; [|done].
              exists q. split; [done|]. split; [lia|done].
        -- rewrite Herr. split.
           ++ intros [?|(i & Hi & Hlen & Hcov & Hns)]; [by left|].
              right. exists i. split; [lia|]. split; [done|]. split; [|done].
              intros (t & Ht & Hti). apply elem_of_cons in Ht as [->|Ht].
              ** lia.
              ** apply Hcov. by exists t.
           ++ intros [?|(i & Hi & Hlen & Hcov & Hns)]; [by left|].
              right. exists i.
              assert (¬ (i < pos + length (Chess.value token))) as Hout.
              { intros Hin. apply Hcov. exists token. split; [by left|]. lia. }
              split; [lia|]. split; [done|]. split; [|done].
              intros (t & Ht & Hti). apply Hcov. exists t. split; [by right|done].
Qed.

(** X13.  chessNot.cpp's [tokenize]: the token list is the tokens read followed
    by [END_OF_INPUT] at the input length; each token read is a slice of
    the input and is neither INVALID nor END_OF_INPUT; and
    [hadLexicalError] is [true] exactly when some character of the input is
    neither white space nor inside a token. *)
Theorem chess_tokenize_error_flag lx input fuel :
  length input ≤ fuel →
  ∃ body err,
    Chess.tokenize fuel lx input
    = Some (body ++ [Chess.mkChessToken Chess.END_OF_INPUT []
                       (Z.of_nat (length input))], err)
    ∧ Forall (λ t, chess_slice input 0 t
                   ∧ Chess.type t ≠ Chess.INVALID
                   ∧ Chess.type t ≠ Chess.END_OF_INPUT) body
    ∧ (err = true ↔
       ∃ i, i < length input
            ∧ ¬ chess_covered body i
            ∧ isspace (default epsilon (input !! i)) = false).
Proof.
  intros Hfuel. unfold Chess.tokenize.
  destruct (chess_tokenize_loop_cover lx input fuel 0 [] false
              ltac:(lia) ltac:(lia)) as (toks & err & -> & Hall & Herr).
  exists toks, err. split; [done|]. split; [done|].
  rewrite Herr. split.
  - intros [?|(i & _ & Hi)]; [done|]. by exists i.
  - intros (i & Hi). right. exists i. split; [lia|done].
Qed.

(** * The driver of Final.cpp *)

Lemma final_tokenize_loop_types (P : Final.Token → Prop) lx input fuel :
  (∀ pos, pos < length input → P (Final.getNextToken lx input pos)) →
  ∀ pos tokens r,
    Final.tokenize_loop fuel lx input pos tokens = Some r →
    ∃ toks, r.1 = tokens ++ toks ∧ Forall P toks
            ∧ length toks ≤ length input - pos.
Proof.
  intros HP. induction fuel as [|fuel IH]; intros pos tokens r Hrun;
    cbn [Final.tokenize_loop] in Hrun.
  - case_decide; [done|]. injection Hrun as <-. exists [].
    split; [by rewrite app_nil_r|]. split; [constructor|simpl; lia].
  - case_decide as Hlt.
    2:{ injection Hrun as <-. exists [].
        split; [by rewrite app_nil_r|]. split; [constructor|simpl; lia]. }
    destruct (isspace (default epsilon (input !! pos))).
    + destruct (IH _ _ _ Hrun) as (toks & Hr & Hall & Hlen).
      exists toks. split; [done|]. split; [done|lia].
    + destruct (IH _ _ _ Hrun) as (toks & Hr & Hall & Hlen).
      exists (Final.getNextToken lx input pos :: toks).
      split; [by rewrite Hr, <- app_assoc|]. split; [constructor; auto|].
      pose proof (final_getNextToken_value lx input pos). simpl. lia.
Qed.

Lemma initializeSingleCharTokens_types c t :
  Final.initializeSingleCharTokens !! c = Some t →
  t = Final.OPERATOR ∨ t = Final.ASSIGN ∨ t = Final.LPAREN ∨ t = Final.RPAREN.
Proof.
  intros Hc.
  assert (forallb (λ kv : ascii * Final.TokenType,
                     bool_decide (kv.2 = Final.OPERATOR ∨ kv.2 = Final.ASSIGN
                                  ∨ kv.2 = Final.LPAREN ∨ kv.2 = Final.RPAREN))
                  (map_to_list Final.initializeSingleCharTokens) = true) as Hall.
  { vm_compute. reflexivity. }
  rewrite forallb_forall in Hall.
  apply elem_of_map_to_list, list_elem_of_In in Hc.
  apply Hall in Hc. by apply bool_decide_eq_true in Hc.
Qed.

Lemma final_getNextToken_type lx input pos :
  Final.singleCharTokens lx = Final.initializeSingleCharTokens →
  Final.type (Final.getNextToken lx input pos) ≠ Final.END_OF_INPUT.
Proof.
  intros Htab. unfold Final.getNextToken. rewrite Htab.
  destruct (Final.initializeSingleCharTokens !! _) as [t|] eqn:Ht.
  { apply initializeSingleCharTokens_types in Ht. simpl.
    destruct Ht as [-> |[-> |[-> | ->]]]; done. }
  assert (∀ dfa ty, ty ≠ Final.END_OF_INPUT →
            Final.type (Final.tryMatchDFA dfa input pos ty) ≠ Final.END_OF_INPUT)
    as Hdfa.
  { intros dfa ty Hty. unfold Final.tryMatchDFA. by case_decide. }
  case_decide; [by apply Hdfa|]. case_decide; [by apply Hdfa|]. done.
Qed.

(** X12.  [analyzeInput] with the lexer's table of single-character tokens: the
    lexical verdict is always COMPLETED, and the syntactic verdict is VALID
    exactly when the token types before [END_OF_INPUT] form a statement of
    the grammar; an input with an INVALID token is never VALID. *)
Theorem analyzeInput_verdict lx input fuel :
  Final.singleCharTokens lx = Final.initializeSingleCharTokens →
  3 * length input + 5 ≤ fuel →
  ∃ body syntaxValid,
    Final.tokenize fuel lx input
    = Some (body ++ [Final.mkToken Final.END_OF_INPUT []
                       (Z.of_nat (length input))])
    ∧ analyzeInput fuel lx input = Some (true, syntaxValid)
    ∧ (syntaxValid = true ↔ statement (Final.type <$> body))
    ∧ (Final.INVALID ∈ (Final.type <$> body) → syntaxValid = false).
Proof.
  intros Htab Hfuel.
  destruct (final_tokenize_loop_cover lx input fuel 0 [] ltac:(lia) ltac:(lia))
    as (body & Hloop & _ & _).
  destruct (final_tokenize_loop_types
              (λ t, Final.type t ≠ Final.END_OF_INPUT) lx input fuel
              (λ pos _, final_getNextToken_type lx input pos Htab)
              0 [] _ Hloop) as (toks & Htoks & Hty & Hlen).
  simpl in Htoks. subst toks.
  set (tokens := body ++ [Final.mkToken Final.END_OF_INPUT []
                            (Z.of_nat (length input))]).
  assert (Final.tokenize fuel lx input = Some tokens) as Htok.
  { unfold Final.tokenize. by rewrite Hloop. }
  assert (Final.END_OF_INPUT ∉ (Final.type <$> body)) as Hend.
  { intros Hin. apply list_elem_of_fmap in Hin as (t & Heq & Ht).
    rewrite Forall_forall in Hty. by apply (Hty t Ht). }
  destruct (parse_statement_iff tokens (Final.type <$> body) fuel)
    as (result & out & Hparse & Hiff).
  { unfold tokens. by rewrite fmap_app. }
  { done. }
  { unfold tokens. rewrite length_app. simpl. lia. }
  exists body, result. split; [done|]. split.
  { unfold analyzeInput. rewrite Htok. cbn [mbind option_bind].
    rewrite Hparse. cbn [mbind option_bind fst].
    rewrite bool_decide_eq_true_2; [done|].
    unfold tokens. rewrite length_app. simpl. lia. }
  split; [done|].
  intros Hinv. destruct result; [|done]. exfalso.
  destruct (proj1 Hiff eq_refl) as [He|(e & He & Heq)].
  - apply expr_types in He. rewrite Forall_forall in He.
    destruct (He _ Hinv) as [?|[?|[?|[?|?]]]]; done.
  - rewrite Heq in Hinv. apply expr_types in He. rewrite Forall_forall in He.
    apply elem_of_cons in Hinv as [?|Hinv]; [done|].
    apply elem_of_cons in Hinv as [?|Hinv]; [done|].
    destruct (He _ Hinv) as [?|[?|[?|[?|?]]]]; done.
Qed.

(** * The validators of chessNot.cpp *)

Lemma validate_loop_cons token next rest pda out :
  Chess.validate_loop (token :: next :: rest) pda out
  = if decide (Chess.currentState pda = Chess.GAME_OVER) then
      if decide (Chess.type token = Chess.END_OF_INPUT)
      then (true, out ++ [Chess.SuccessfullyParsed])
      else (false, out ++ [Chess.TokensAfterTermination (Chess.value token)])
    else if decide (Chess.type token = Chess.END_OF_INPUT) then
      if decide (Chess.currentState pda = Chess.EXPECT_WHITE_MOVE)
      then (false, out ++ [Chess.EndedAbruptly (Chess.expectedMoveNumber pda)])
      else if decide (Chess.currentState pda = Chess.EXPECT_BLACK_MOVE)
      then (true, out ++ [Chess.HalfMoveWarning (Chess.expectedMoveNumber pda);
                          Chess.SuccessfullyParsed])
      else (true, out ++ [Chess.SuccessfullyParsed])
    else if decide (Chess.type token = Chess.RESULT) then
      Chess.validate_loop (next :: rest)
        (Chess.mkChessPDA (Chess.expectedMoveNumber pda) Chess.GAME_OVER) out
    else if decide (Chess.type token = Chess.MOVE_NUMBER) then
      if decide (Chess.currentState pda ≠ Chess.EXPECT_NUMBER)
      then (false, out ++ [Chess.UnexpectedMoveNumber (Chess.value token)])
      else
        match move_number token with
        | None => (false, out)
        | Some moveNumber =>
          if decide (moveNumber ≠ Chess.expectedMoveNumber pda)
          then (false, out ++ [Chess.ExpectedButFound
                                 (Chess.expectedMoveNumber pda) moveNumber])
          else Chess.validate_loop (next :: rest)
                 (Chess.mkChessPDA (Chess.expectedMoveNumber pda + 1)%Z
                                   Chess.EXPECT_WHITE_MOVE) out
        end
    else if Chess.isMoveToken (Chess.type token) then
      if decide (Chess.type token = Chess.CHECKMATE
                 ∧ Chess.type next ≠ Chess.RESULT)
      then (false, out ++ [Chess.CheckmateWithoutResult (Chess.value token)])
      else if decide (Chess.currentState pda = Chess.EXPECT_WHITE_MOVE)
      then Chess.validate_loop (next :: rest)
             (Chess.mkChessPDA (Chess.expectedMoveNumber pda)
                               Chess.EXPECT_BLACK_MOVE) out
      else if decide (Chess.currentState pda = Chess.EXPECT_BLACK_MOVE)
      then Chess.validate_loop (next :: rest)
             (Chess.mkChessPDA (Chess.expectedMoveNumber pda)
                               Chess.EXPECT_NUMBER) out
      else (false, out ++ [Chess.UnexpectedMove (Chess.value token)])
    else Chess.validate_loop (next :: rest) pda out.
Proof. reflexivity. Qed.

(** On tokens none of which (the last apart) is END_OF_INPUT, the loop of
    [validateMoveSequence] never writes a line of its END_OF_INPUT
    branch. *)
Lemma validate_loop_no_end_line body : ∀ last pda out,
  Forall (λ t, Chess.type t ≠ Chess.END_OF_INPUT) body →
  ∀ o, o ∈ (Chess.validate_loop (body ++ [last]) pda out).2 →
       o ∈ out ∨ end_of_input_line o = false.
Proof.
  induction body as [|token body IH]; intros last pda out Hall o Ho.
  - simpl in Ho. apply elem_of_app in Ho as [Ho|Ho]; [by left|].
    apply list_elem_of_singleton in Ho as ->. by right.
  - apply Forall_cons in Hall as [Htok Hall].
    assert (∀ x, o ∈ out ++ [x] → end_of_input_line x = false →
                 o ∈ out ∨ end_of_input_line o = false) as Hone.
    { intros x Hin Hx. apply elem_of_app in Hin as [Hin|Hin]; [by left|].
      apply list_elem_of_singleton in Hin as ->. by right. }
    change ((token :: body) ++ [last]) with (token :: (body ++ [last])) in Ho.
    destruct (body ++ [last]) as [|next rest] eqn:Hrest.
    { by destruct body. }
    rewrite validate_loop_cons in Ho. rewrite <- Hrest in Ho.
    destruct (decide (Chess.currentState pda = Chess.GAME_OVER)).
    { rewrite decide_False in Ho by done. by eapply Hone. }
    rewrite decide_False in Ho by done.
    destruct (decide (Chess.type token = Chess.RESULT)); [by eapply IH|].
    destruct (decide (Chess.type token = Chess.MOVE_NUMBER)).
    { destruct (decide (Chess.currentState pda ≠ Chess.EXPECT_NUMBER));
        [by eapply Hone|].
      destruct (move_number token); [|by left].
      destruct (decide (_ ≠ _)); [by eapply Hone|by eapply IH]. }
    destruct (Chess.isMoveToken (Chess.type token)); [|by eapply IH].
    destruct (decide (_ ∧ _)); [by eapply Hone|].
    destruct (decide (_ = Chess.EXPECT_WHITE_MOVE)); [by eapply IH|].
    destruct (decide (_ = Chess.EXPECT_BLACK_MOVE)); [by eapply IH|].
    by eapply Hone.
Qed.

(** X16.  On the tokens of any input, whichever the lexer's DFAs,
    [validateMoveSequence] never reports an abrupt end and never gives the
    half-move warning: END_OF_INPUT is the last token only, and the loop
    stops before the last token. *)
Theorem validateMoveSequence_end_branch_dead lx input fuel :
  length input ≤ fuel →
  ∃ tokens err,
    Chess.tokenize fuel lx input = Some (tokens, err)
    ∧ Forall (λ o, end_of_input_line o = false)
             (Chess.validateMoveSequence tokens).2.
Proof.
  intros Hfuel. unfold Chess.tokenize.
  destruct (chess_tokenize_loop_cover lx input fuel 0 [] false
              ltac:(lia) ltac:(lia)) as (body & err & -> & Hall & _).
  eexists _, _. split; [done|]. cbn [fst snd]. simpl.
  apply Forall_forall. intros o Ho.
  unfold Chess.validateMoveSequence in Ho.
  destruct (validate_loop_no_end_line body _ Chess.resetPDA [] ltac:(
              eapply Forall_impl; [exact Hall|]; by intros t (_ & _ & ?)) o Ho)
    as [Hin|Hok]; [|done].
  by apply elem_of_nil in Hin.
Qed.

Lemma count_move_numbers_cons t l :
  count_move_numbers (t :: l)
  = (if decide (Chess.type t = Chess.MOVE_NUMBER) then 1 else 0)
    + count_move_numbers l.
Proof.
  unfold count_move_numbers. rewrite filter_cons.
  by destruct (decide (Chess.type t = Chess.MOVE_NUMBER)).
Qed.

(** An accepting run of the loop has read move numbers that count up from
    the expected one, and has met no token after a RESULT. *)
Lemma validate_loop_accepts body : ∀ last pda out out',
  Forall (λ t, Chess.type t ≠ Chess.END_OF_INPUT) body →
  Chess.validate_loop (body ++ [last]) pda out = (true, out') →
  ∀ pre t suf, body = pre ++ t :: suf →
    (Chess.type t = Chess.MOVE_NUMBER →
     move_number t
     = Some (Chess.expectedMoveNumber pda
             + Z.of_nat (count_move_numbers pre))%Z)
    ∧ (Chess.type t = Chess.RESULT → suf = [])
    ∧ (Chess.currentState pda = Chess.GAME_OVER → False).
Proof.
  induction body as [|token body IH];
    intros last pda out out' Hall Hrun pre t suf Hbody.
  { by destruct pre. }
  apply Forall_cons in Hall as [Htok Hall].
  change ((token :: body) ++ [last]) with (token :: (body ++ [last])) in Hrun.
  destruct (body ++ [last]) as [|next rest] eqn:Hrest.
  { by destruct body. }
  rewrite validate_loop_cons in Hrun. rewrite <- Hrest in Hrun.
  destruct (decide (Chess.currentState pda = Chess.GAME_OVER)) as [Hover|Hover].
  { by rewrite decide_False in Hrun by done. }
  rewrite decide_False in Hrun by done.
  assert (∀ pda' out0,
            Chess.validate_loop (body ++ [last]) pda' out0 = (true, out') →
            Chess.currentState pda' = Chess.GAME_OVER → body = []) as Hstop.
  { intros pda' out0 Hrun' Hover'. destruct body as [|x body]; [done|].
    exfalso. by apply (IH last pda' out0 out' Hall Hrun' [] x body eq_refl). }
  destruct pre as [|x pre].
  - (* [t] is the token the loop looks at *)
    injection Hbody as <- <-.
    split; [|split; [|done]].
    + intros Hty. rewrite decide_False in Hrun by (rewrite Hty; done).
      rewrite decide_True in Hrun by done.
      destruct (decide (Chess.currentState pda ≠ Chess.EXPECT_NUMBER)); [done|].
      destruct (move_number token) as [m|]; [|done].
      destruct (decide (m ≠ Chess.expectedMoveNumber pda)) as [|Heq]; [done|].
      apply dec_stable in Heq. subst m. f_equal.
      unfold count_move_numbers. simpl. lia.
    + intros Hty. rewrite decide_True in Hrun by done.
      by eapply Hstop.
  - (* [t] comes later *)
    injection Hbody as <- ->.
    split; [|split; [|done]].
    + intros Hty. rewrite count_move_numbers_cons.
      destruct (decide (Chess.type token = Chess.RESULT)).
      { rewrite decide_False by congruence.
        destruct (IH _ _ _ _ Hall Hrun pre t suf eq_refl) as (Hn & _ & _).
        rewrite (Hn Hty). simpl. f_equal. }
      destruct (decide (Chess.type token = Chess.MOVE_NUMBER)).
      { destruct (decide (Chess.currentState pda ≠ Chess.EXPECT_NUMBER));
          [done|].
        destruct (move_number token) as [m|]; [|done].
        destruct (decide (m ≠ Chess.expectedMoveNumber pda)); [done|].
        destruct (IH _ _ _ _ Hall Hrun pre t suf eq_refl) as (Hn & _ & _).
        rewrite (Hn Hty). simpl. f_equal. lia. }
      destruct (Chess.isMoveToken (Chess.type token)).
      2:{ destruct (IH _ _ _ _ Hall Hrun pre t suf eq_refl) as (Hn & _ & _).
          rewrite (Hn Hty). f_equal. }
      destruct (decide (_ ∧ _)); [done|].
      destruct (decide (_ = Chess.EXPECT_WHITE_MOVE)).
      { destruct (IH _ _ _ _ Hall Hrun pre t suf eq_refl) as (Hn & _ & _).
        rewrite (Hn Hty). simpl. f_equal. }
      destruct (decide (_ = Chess.EXPECT_BLACK_MOVE)); [|done].
      destruct (IH _ _ _ _ Hall Hrun pre t suf eq_refl) as (Hn & _ & _).
      rewrite (Hn Hty). simpl. f_equal.
    + intros Hty.
      destruct (decide (Chess.type token = Chess.RESULT)).
      { by eapply (IH _ _ _ _ Hall Hrun pre t suf eq_refl). }
      destruct (decide (Chess.type token = Chess.MOVE_NUMBER)).
      { destruct (decide (Chess.currentState pda ≠ Chess.EXPECT_NUMBER));
          [done|].
        destruct (move_number token) as [m|]; [|done].
        destruct (decide (m ≠ Chess.expectedMoveNumber pda)); [done|].
        by eapply (IH _ _ _ _ Hall Hrun pre t suf eq_refl). }
      destruct (Chess.isMoveToken (Chess.type token)).
      2:{ by eapply (IH _ _ _ _ Hall Hrun pre t suf eq_refl). }
      destruct (decide (_ ∧ _)); [done|].
      destruct (decide (_ = Chess.EXPECT_WHITE_MOVE)).
      { by eapply (IH _ _ _ _ Hall Hrun pre t suf eq_refl). }
      destruct (decide (_ = Chess.EXPECT_BLACK_MOVE)); [|done].
      by eapply (IH _ _ _ _ Hall Hrun pre t suf eq_refl).
Qed.

(** X17.  When [validateMoveSequence] returns [true] on tokens of which only the
    last may be END_OF_INPUT, the MOVE_NUMBER tokens before the last token
    read [1], [2], [3], ... in this order, and a RESULT token before the
    last token is the one just before it. *)
Theorem validateMoveSequence_true_numbers body last :
  Forall (λ t, Chess.type t ≠ Chess.END_OF_INPUT) body →
  (Chess.validateMoveSequence (body ++ [last])).1 = true →
  ∀ pre t suf, body = pre ++ t :: suf →
    (Chess.type t = Chess.MOVE_NUMBER →
     move_number t = Some (1 + Z.of_nat (count_move_numbers pre))%Z)
    ∧ (Chess.type t = Chess.RESULT → suf = []).
Proof.
  intros Hall Hrun pre t suf Hbody. unfold Chess.validateMoveSequence in Hrun.
  destruct (Chess.validate_loop (body ++ [last]) Chess.resetPDA [])
    as [v out'] eqn:Hloop.
  simpl in Hrun. subst v.
  destruct (validate_loop_accepts body last Chess.resetPDA [] out' Hall Hloop
              pre t suf Hbody) as (Hn & Hr & _).
  split; [exact Hn|exact Hr].
Qed.

Lemma isMoveToken_types ty :
  Chess.isMoveToken ty = true →
  ty ≠ Chess.END_OF_INPUT ∧ ty ≠ Chess.RESULT ∧ ty ≠ Chess.MOVE_NUMBER.
Proof. by destruct ty. Qed.

(** The loop reads complete turns and is back where a move number is
    expected, the counter advanced by one per turn. *)
Lemma validate_loop_turns n body :
  turns n body →
  ∀ next rest out,
    Chess.validate_loop (body ++ next :: rest)
      (Chess.mkChessPDA n Chess.EXPECT_NUMBER) out
    = Chess.validate_loop (next :: rest)
        (Chess.mkChessPDA (n + Z.of_nat (length body `div` 3))%Z
                          Chess.EXPECT_NUMBER) out.
Proof.
  induction 1 as [n|n number white black body Hnum Hn Hw Hwc Hb Hbc _ IH];
    intros next rest out.
  { simpl. by rewrite Z.add_0_r. }
  destruct (isMoveToken_types _ Hw) as (Hw1 & Hw2 & Hw3).
  destruct (isMoveToken_types _ Hb) as (Hb1 & Hb2 & Hb3).
  change ((number :: white :: black :: body) ++ next :: rest)
    with (number :: white :: black :: (body ++ next :: rest)).
  rewrite validate_loop_cons. cbn [Chess.currentState Chess.expectedMoveNumber].
  rewrite decide_False by done. rewrite decide_False by (by rewrite Hnum).
  rewrite decide_False by (by rewrite Hnum). rewrite decide_True by done.
  rewrite decide_False by (intros Hne; by apply Hne).
  rewrite Hn. rewrite decide_False by (intros Hne; by apply Hne).
  assert (∃ x l, body ++ next :: rest = x :: l) as (x & l & Hx).
  { destruct body; simpl; eauto. }
  rewrite Hx, validate_loop_cons, <- Hx.
  cbn [Chess.currentState Chess.expectedMoveNumber].
  rewrite decide_False by done. rewrite decide_False by done.
  rewrite decide_False by done. rewrite decide_False by done.
  rewrite Hw. rewrite decide_False by (by intros [? _]).
  rewrite decide_True by done.
  rewrite Hx, validate_loop_cons, <- Hx.
  cbn [Chess.currentState Chess.expectedMoveNumber].
  rewrite decide_False by done. rewrite decide_False by done.
  rewrite decide_False by done. rewrite decide_False by done.
  rewrite Hb. rewrite decide_False by (by intros [? _]).
  rewrite decide_False by done. rewrite decide_True by done.
  rewrite IH. do 2 f_equal.
  change (length (number :: white :: black :: body))
    with (3 + length body).
  replace (3 + length body) with (1 * 3 + length body) by lia.
  rewrite Nat.div_add_l by lia. lia.
Qed.

(** X18.  A game of complete turns numbered from 1, with or without a RESULT
    token after the last turn, is accepted: [validateMoveSequence] returns
    [true] and writes the success line only. *)
Theorem validateMoveSequence_complete_game body tail last :
  turns 1 body →
  tail = [] ∨ (∃ result, tail = [result] ∧ Chess.type result = Chess.RESULT) →
  Chess.validateMoveSequence (body ++ tail ++ [last])
  = (true, [Chess.SuccessfullyParsed]).
Proof.
  intros Hturns Htail. unfold Chess.validateMoveSequence, Chess.resetPDA.
  destruct Htail as [->|(result & -> & Hres)].
  - rewrite app_nil_l.
    rewrite (validate_loop_turns 1 body Hturns last [] []). done.
  - change ([result] ++ [last]) with (result :: [last]).
    rewrite (validate_loop_turns 1 body Hturns result [last] []).
    rewrite validate_loop_cons. cbn [Chess.currentState Chess.expectedMoveNumber].
    rewrite decide_False by done. rewrite decide_False by (by rewrite Hres).
    rewrite decide_True by done. done.
Qed.

(** ** The syntax check and the verdict of [processInput] *)

Lemma syntax_loop_None tokens :
  syntax_loop tokens = None ↔
  ∀ pre t1 t2 suf, tokens = pre ++ t1 :: t2 :: suf →
    isPrimaryMove t1 && isPrimaryMove t2 && touching t1 t2 = false.
Proof.
  induction tokens as [|current tokens IH].
  { split; [|done]. intros _ pre t1 t2 suf Heq. by destruct pre. }
  destruct tokens as [|next rest].
  { split; [|done]. intros _ pre t1 t2 suf Heq.
    destruct pre as [|? [|? ?]]; done. }
  cbn [syntax_loop].
  destruct (isPrimaryMove current && isPrimaryMove next && touching current next)
    eqn:Hc.
  - split; [done|]. intros Hall.
    rewrite (Hall [] current next rest eq_refl) in Hc. done.
  - rewrite IH. split.
    + intros Hall pre t1 t2 suf Heq. destruct pre as [|x pre].
      * by injection Heq as <- <- <-.
      * injection Heq as <- Heq. by eapply Hall.
    + intros Hall pre t1 t2 suf Heq. apply (Hall (current :: pre) t1 t2 suf).
      by rewrite Heq.
Qed.

Lemma neighbours_snoc {A} (body : list A) e pre t1 t2 suf :
  body ++ [e] = pre ++ t1 :: t2 :: suf →
  (suf = [] ∧ t2 = e ∧ body = pre ++ [t1])
  ∨ (∃ suf', suf = suf' ++ [e] ∧ body = pre ++ t1 :: t2 :: suf').
Proof.
  intros Heq. destruct suf as [|x suf _] using rev_ind.
  - left. replace (pre ++ [t1; t2]) with ((pre ++ [t1]) ++ [t2]) in Heq
      by (by rewrite <- app_assoc).
    apply app_inj_tail in Heq as [-> ->]. done.
  - right. exists suf.
    replace (pre ++ t1 :: t2 :: suf ++ [x])
      with ((pre ++ t1 :: t2 :: suf) ++ [x]) in Heq
      by (by rewrite <- app_assoc).
    apply app_inj_tail in Heq as [-> ->]. done.
Qed.

(** The tokens the loop of [tokenize] adds do not overlap: each starts at
    or after the end of the one before. *)
Lemma chess_tokenize_loop_chain lx input fuel : ∀ pos tokens err r,
  Chess.tokenize_loop fuel lx input pos tokens err = Some r →
  ∃ toks,
    r.1.1 = tokens ++ toks
    ∧ Forall (λ t, (Z.of_nat pos ≤ Chess.position t)%Z) toks
    ∧ StronglySorted
        (λ a b, (Chess.position a + Z.of_nat (length (Chess.value a))
                 ≤ Chess.position b)%Z) toks.
Proof.
  induction fuel as [|fuel IH]; intros pos tokens err r Hrun;
    cbn [Chess.tokenize_loop] in Hrun.
  - case_decide; [done|]. injection Hrun as <-. exists [].
    split; [by rewrite app_nil_r|]. split; constructor.
  - case_decide as Hlt.
    2:{ injection Hrun as <-. exists [].
        split; [by rewrite app_nil_r|]. split; constructor. }
    destruct (isspace (default epsilon (input !! pos))).
    { destruct (IH _ _ _ _ Hrun) as (toks & Hr & Hlo & Hsorted).
      exists toks. split; [done|]. split; [|done].
      eapply Forall_impl; [exact Hlo|]. intros t Ht. simpl in Ht. lia. }
    case_decide as Hinv.
    { destruct (IH _ _ _ _ Hrun) as (toks & Hr & Hlo & Hsorted).
      exists toks. split; [done|]. split; [|done].
      eapply Forall_impl; [exact Hlo|]. intros t Ht. simpl in Ht. lia. }
    destruct (IH _ _ _ _ Hrun) as (toks & Hr & Hlo & Hsorted).
    exists (Chess.getNextToken lx input pos :: toks).
    split; [by rewrite Hr, <- app_assoc|].
    pose proof (chess_getNextToken_position lx input pos) as Hp.
    split.
    + constructor; [lia|].
      eapply Forall_impl; [exact Hlo|]. intros t Ht. simpl in Ht. lia.
    + constructor; [done|].
      eapply Forall_impl; [exact Hlo|]. intros t Ht. simpl in Ht. lia.
Qed.

Lemma chain_neighbours (R : Chess.ChessToken → Chess.ChessToken → Prop)
    toks pre t1 t2 suf :
  StronglySorted R toks → toks = pre ++ t1 :: t2 :: suf → R t1 t2.
Proof.
  intros Hsorted ->. apply StronglySorted_app_1_r in Hsorted.
  apply StronglySorted_cons in Hsorted as [Hall _].
  by apply Forall_cons in Hall as [? _].
Qed.

Lemma valid_token_primary t :
  Chess.type t ≠ Chess.INVALID → Chess.type t ≠ Chess.END_OF_INPUT →
  isPrimaryMove t = true.
Proof.
  intros Hinv Hend. unfold isPrimaryMove.
  by destruct (Chess.type t).
Qed.

(** What [tokenize] returns, with the facts the validators rest on. *)
Lemma chess_tokenize_facts lx input fuel :
  length input ≤ fuel →
  ∃ body err,
    Chess.tokenize fuel lx input
    = Some (body ++ [Chess.mkChessToken Chess.END_OF_INPUT []
                       (Z.of_nat (length input))], err)
    ∧ Forall (λ t, chess_slice input 0 t
                   ∧ Chess.type t ≠ Chess.INVALID
                   ∧ Chess.type t ≠ Chess.END_OF_INPUT) body
    ∧ (err = true ↔
       ∃ i, i < length input
            ∧ ¬ chess_covered body i
            ∧ isspace (default epsilon (input !! i)) = false)
    ∧ StronglySorted
        (λ a b, (Chess.position a + Z.of_nat (length (Chess.value a))
                 ≤ Chess.position b)%Z) body.
Proof.
  intros Hfuel. unfold Chess.tokenize.
  destruct (chess_tokenize_loop_cover lx input fuel 0 [] false
              ltac:(lia) ltac:(lia)) as (toks & err & Hrun & Hall & Herr).
  destruct (chess_tokenize_loop_chain lx input fuel 0 [] false _ Hrun)
    as (toks' & Heq & _ & Hsorted).
  simpl in Heq. subst toks'. rewrite Hrun.
  exists toks, err. split; [done|]. split; [done|]. split; [|done].
  rewrite Herr. split.
  - intros [?|(i & _ & Hi)]; [done|]. by exists i.
  - intros (i & Hi). right. exists i. split; [lia|done].
Qed.

(** The syntax check on the tokens of an input shorter than 2^31
    characters. *)
Lemma validateMoveSyntax_tokens input body :
  (Z.of_nat (length input) < 2 ^ 31)%Z →
  Forall (λ t, chess_slice input 0 t
               ∧ Chess.type t ≠ Chess.INVALID
               ∧ Chess.type t ≠ Chess.END_OF_INPUT) body →
  StronglySorted
    (λ a b, (Chess.position a + Z.of_nat (length (Chess.value a))
             ≤ Chess.position b)%Z) body →
  ∀ e, Chess.type e = Chess.END_OF_INPUT →
  ∃ ok out,
    validateMoveSyntax (body ++ [e]) = Some (ok, out)
    ∧ (ok = true ↔ separated body).
Proof.
  intros Hsize Hall Hsorted e He.
  assert (∃ ok out, validateMoveSyntax (body ++ [e]) = Some (ok, out)
                    ∧ (ok = true ↔ syntax_loop (body ++ [e]) = None))
    as (ok & out & Hrun & Hok).
  { unfold validateMoveSyntax.
    destruct (body ++ [e]) as [|x l] eqn:Hl; [by destruct body|].
    destruct (syntax_loop (x :: l)) as [[a b]|]; eexists _, _; (split; [done|]);
      done. }
  exists ok, out. split; [done|]. rewrite Hok, syntax_loop_None.
  rewrite Forall_forall in Hall. unfold separated. split.
  - intros Hnone pre t1 t2 suf Hbody.
    specialize (Hnone pre t1 t2 (suf ++ [e])).
    rewrite Hbody, <- app_assoc in Hnone. specialize (Hnone eq_refl).
    assert (t1 ∈ body) as Ht1.
    { rewrite Hbody. apply elem_of_app. right. by left. }
    assert (t2 ∈ body) as Ht2.
    { rewrite Hbody. apply elem_of_app. right. right. by left. }
    destruct (Hall t1 Ht1) as ((p1 & Hp1 & _ & _ & Hfit1 & _) & Hi1 & He1).
    destruct (Hall t2 Ht2) as ((p2 & Hp2 & _ & _ & Hfit2 & _) & Hi2 & He2).
    rewrite !valid_token_primary in Hnone by done. simpl in Hnone.
    pose proof (chain_neighbours _ body pre t1 t2 suf Hsorted Hbody) as Hle.
    simpl in Hle. unfold touching in Hnone.
    apply bool_decide_eq_false in Hnone.
    rewrite !Z.mod_small in Hnone by lia. lia.
  - intros Hsep pre t1 t2 suf Heq.
    apply neighbours_snoc in Heq as [(-> & -> & Hbody)|(suf' & -> & Hbody)].
    + assert (isPrimaryMove e = false) as ->; [|by rewrite andb_false_r].
      unfold isPrimaryMove. by rewrite He.
    + specialize (Hsep pre t1 t2 suf' Hbody).
      assert (t1 ∈ body) as Ht1.
      { rewrite Hbody. apply elem_of_app. right. by left. }
      assert (t2 ∈ body) as Ht2.
      { rewrite Hbody. apply elem_of_app. right. right. by left. }
      destruct (Hall t1 Ht1) as ((p1 & Hp1 & _ & _ & Hfit1 & _) & Hi1 & He1).
      destruct (Hall t2 Ht2) as ((p2 & Hp2 & _ & _ & Hfit2 & _) & Hi2 & He2).
      assert (touching t1 t2 = false) as ->; [|by rewrite andb_false_r].
      unfold touching. apply bool_decide_eq_false.
      rewrite !Z.mod_small by lia. lia.
Qed.

(** X15.  [validateMoveSyntax] on the tokens of an input shorter than 2^31
    characters: it returns a result (the token vector is never empty), and
    the result is [true] exactly when every token is followed by at least
    one character, white space or unrecognised, before the next token
    starts. *)
Theorem validateMoveSyntax_separated lx input fuel :
  length input ≤ fuel →
  (Z.of_nat (length input) < 2 ^ 31)%Z →
  ∃ body last err ok out,
    Chess.tokenize fuel lx input = Some (body ++ [last], err)
    ∧ validateMoveSyntax (body ++ [last]) = Some (ok, out)
    ∧ (ok = true ↔ separated body).
Proof.
  intros Hfuel Hsize.
  destruct (chess_tokenize_facts lx input fuel Hfuel)
    as (body & err & Htok & Hall & _ & Hsorted).
  destruct (validateMoveSyntax_tokens input body Hsize Hall Hsorted
              (Chess.mkChessToken Chess.END_OF_INPUT []
                 (Z.of_nat (length input))) eq_refl)
    as (ok & out & Hrun & Hok).
  by eexists body, _, err, ok, out.
Qed.

Lemma chess_covered_dec toks i : chess_covered toks i ∨ ¬ chess_covered toks i.
Proof.
  destruct (decide (Exists (λ t, (Chess.position t ≤ Z.of_nat i
                                  < Chess.position t
                                    + Z.of_nat (length (Chess.value t)))%Z) toks))
    as [Hex|Hno].
  - left. apply Exists_exists in Hex. exact Hex.
  - right. intros Hcov. apply Hno. apply Exists_exists. exact Hcov.
Qed.

(** X19.  The verdict of [processInput] on an input shorter than 2^31
    characters.  When it is VALID, every character of the input is white
    space or part of a token, every token is followed by at least one
    character before the next, and the move numbers read 1, 2, 3, ... in
    this order. *)
Theorem processInput_valid lx input fuel :
  length input ≤ fuel →
  (Z.of_nat (length input) < 2 ^ 31)%Z →
  ∃ body last d,
    Chess.tokenize fuel lx input = Some (body ++ [last], hadLexicalError d)
    ∧ processInput fuel lx input = Some d
    ∧ overallValid d = syntaxValid d && pdaValid d && negb (hadLexicalError d)
    ∧ (overallValid d = true →
       (∀ i, i < length input →
             chess_covered body i
             ∨ isspace (default epsilon (input !! i)) = true)
       ∧ separated body
       ∧ ∀ pre t suf, body = pre ++ t :: suf →
           Chess.type t = Chess.MOVE_NUMBER →
           move_number t = Some (1 + Z.of_nat (count_move_numbers pre))%Z).
Proof.
  intros Hfuel Hsize.
  destruct (chess_tokenize_facts lx input fuel Hfuel)
    as (body & err & Htok & Hall & Herr & Hsorted).
  set (last := Chess.mkChessToken Chess.END_OF_INPUT []
                 (Z.of_nat (length input))) in *.
  destruct (validateMoveSyntax_tokens input body Hsize Hall Hsorted last eq_refl)
    as (ok & out & Hsyn & Hok).
  destruct (Chess.validateMoveSequence (body ++ [last])) as [pv pout] eqn:Hseq.
  exists body, last, (mkDiagnostic err ok pv (ok && pv && negb err)).
  split; [exact Htok|]. split.
  { unfold processInput. rewrite Htok. cbn [mbind option_bind fst snd].
    rewrite Hsyn. cbn [mbind option_bind fst snd]. by rewrite Hseq. }
  split; [done|]. cbn [overallValid].
  intros Hvalid. apply andb_prop in Hvalid as [Hvalid Hnoerr].
  apply andb_prop in Hvalid as [-> ->].
  apply negb_true_iff in Hnoerr. subst err.
  split; [|split].
  - intros i Hi.
    destruct (isspace (default epsilon (input !! i))) eqn:Hsp; [by right|].
    left. destruct (chess_covered_dec body i) as [Hcov|Hno]; [done|].
    exfalso. assert (false = true) as Habs; [|done].
    apply Herr. by exists i.
  - by apply Hok.
  - intros pre t suf Hbody Hty.
    assert (Forall (λ t, Chess.type t ≠ Chess.END_OF_INPUT) body) as Hend.
    { eapply Forall_impl; [exact Hall|]. by intros x (_ & _ & ?). }
    unfold Chess.validateMoveSequence in Hseq.
    destruct (validate_loop_accepts body last Chess.resetPDA [] pout Hend Hseq
                pre t suf Hbody) as (Hn & _ & _).
    by apply Hn.
Qed.

(** * The shape of the builders and of the DFAs *)

(** X5.  Every builder reached by the combinators is well formed: the counter is
    the number of states, the state at index [i] carries the id [i], every
    transition leads to a state of the vector, and both ends of every
    fragment returned so far are states of the vector. *)
Theorem Built_well_formed src b fs :
  Built src b fs →
  wf_builder b
  ∧ ∀ f, f ∈ fs →
      start f < length (states b) ∧ end_ f < length (states b).
Proof.
  intros Hb. destruct (Built_okb src b fs Hb) as [Hwf Hps].
  split; [done|]. intros f Hf.
  split; apply Hps; apply list_elem_of_bind; exists f; (split; [|done]).
  - apply list_elem_of_here.
  - apply list_elem_of_further, list_elem_of_here.
Qed.

Lemma Built_well_formed_witness :
  wf_builder star_example.1
  ∧ ∀ f, f ∈ [mkNFAPtr 2 3; mkNFAPtr 0 1] →
      start f < length (states star_example.1)
      ∧ end_ f < length (states star_example.1).
Proof. exact (Built_well_formed _ _ _ star_example_built). Defined.

(** An invariant of the work loop that does not look at the stack holds
    when the loop ends, if each symbol keeps it. *)
Lemma subset_loop_preserves (P : Work → Prop) n h al :
  (∀ m G k stack stack', P (mkWork m G k stack) → P (mkWork m G k stack')) →
  (∀ w cur c w', P w → process_symbol n h cur (Some w) c = Some w' → P w') →
  ∀ fuel w w', P w → subset_loop fuel n h al w = Some w' → P w'.
Proof.
  intros Hstack Hsym.
  assert (∀ cur l w w', P w →
            foldl (process_symbol n h cur) (Some w) l = Some w' → P w') as Hfold.
  { intros cur l. induction l as [|c l IH]; intros w w' HP Hrun.
    - by injection Hrun as <-.
    - cbn [foldl] in Hrun.
      destruct (process_symbol n h cur (Some w) c) as [w1|] eqn:H1.
      + by apply (IH w1 w' (Hsym _ _ _ _ HP H1)).
      + assert (∀ l', foldl (process_symbol n h cur) None l' = None) as Hnone.
        { intros l'. induction l' as [|? ? IH']; [done|]. by cbn. }
        by rewrite Hnone in Hrun. }
  induction fuel as [|fuel IH]; intros w w' HP Hrun.
  - destruct w as [m G k [|cur rest]]; simpl in Hrun; [|done].
    by injection Hrun as <-.
  - destruct w as [m G k [|cur rest]]; simpl in Hrun.
    { by injection Hrun as <-. }
    destruct (foldl (process_symbol n h cur) (Some (mkWork m G k rest)) al)
      as [w1|] eqn:H1; [|done].
    simpl in Hrun. apply (IH w1 w'); [|done].
    apply (Hfold cur al (mkWork m G k rest) w1); [|done].
    by apply (Hstack m G k (cur :: rest)).
Qed.

Lemma lookup_set_transition_fields c t cur (G : list DFAState) i d :
  alter (set_dfa_transition c t) cur G !! i = Some d →
  ∃ d0, G !! i = Some d0
        ∧ dfa_id d = dfa_id d0 ∧ nfaStates d = nfaStates d0.
Proof.
  destruct (decide (i = cur)) as [->|Hne].
  - rewrite list_lookup_alter_eq. destruct (G !! cur) as [d0|]; [|done].
    intros [= <-]. by exists d0.
  - rewrite list_lookup_alter_ne by done. intros Hd. by exists d.
Qed.

Lemma process_symbol_ids n h cur w c w' :
  dfa_ids_ok w → process_symbol n h cur (Some w) c = Some w' → dfa_ids_ok w'.
Proof.
  intros [Hcount Hids]. unfold process_symbol. cbn [mbind option_bind].
  case_decide; [by intros [= <-]|].
  case_decide as Hmv; [by intros [= <-]|].
  destruct (epsilonClosure n h (move h (nfaStates_of w cur) c) ∅)
    as [K|] eqn:HK; [|done].
  cbn [mbind option_bind].
  assert (K ≠ ∅) as HKne.
  { intros ->. apply Hmv.
    apply set_eq. intros q. split; [|by intros ?%not_elem_of_empty].
    intros Hq. by apply (epsilonClosure_extends _ _ _ _ HK). }
  destruct (dfaStateMap w !! K) as [known|].
  - intros [= <-]. split; simpl; [by rewrite length_alter|].
    intros i d Hd.
    apply lookup_set_transition_fields in Hd as (d0 & Hd0 & -> & ->).
    by apply Hids.
  - intros [= <-]. split; simpl.
    { rewrite length_alter, length_app, Hcount. simpl. lia. }
    assert (∀ i d,
              (w_dfaStates w ++ [mkDFAState (dfaStateCounter w) K ∅
                                            (any_final h K)]) !! i = Some d →
              dfa_id d = i ∧ nfaStates d ≠ ∅) as Hnew.
    { intros i d Hd. apply lookup_app_Some in Hd as [Hd|[Hge Hd]].
      - by apply Hids.
      - apply list_lookup_singleton_Some in Hd as [Hi <-]. simpl.
        split; [lia|done]. }
    intros i d Hd.
    apply lookup_set_transition_fields in Hd as (d0 & Hd0 & -> & ->).
    by apply Hnew.
Qed.

Lemma length_subsets l : length (subsets l) = 2 ^ length l.
Proof.
  induction l as [|x l IH]; [done|].
  cbn [subsets]. rewrite length_app, length_fmap, IH.
  cbn [length]. rewrite Nat.pow_succ_r'. lia.
Qed.

Lemma size_list_to_set_le (l : list (gset nat)) :
  size (list_to_set l : gset (gset nat)) ≤ length l.
Proof.
  induction l as [|x l IH]; [done|]. cbn [list_to_set foldr length].
  pose proof (size_union_alt ({[x]} : gset (gset nat)) (list_to_set l)) as Hu.
  pose proof (subseteq_size (list_to_set l ∖ {[x]} : gset (gset nat))
                (list_to_set l) ltac:(set_solver)) as Hd.
  pose proof (size_singleton (C := gset (gset nat)) x) as H1.
  change (list_to_set (x :: l) : gset (gset nat))
    with ({[x]} ∪ list_to_set l : gset (gset nat)).
  lia.
Qed.

(** The work loop of a run of [convertToDFA] ends in a state that satisfies
    [dfa_ids_ok]. *)
Lemma convertToDFA_ids fuel b nfa dfa :
  convertToDFA fuel b nfa = Some dfa →
  ∃ w, dfaStates dfa = w_dfaStates w ∧ dfa_ids_ok w.
Proof.
  unfold convertToDFA. cbn zeta.
  destruct (getAlphabet fuel (states b) nfa) as [A|]; [|done].
  cbn [mbind option_bind].
  destruct (epsilonClosure fuel (states b) {[start nfa]} ∅) as [K0|] eqn:HK0;
    [|done].
  cbn [mbind option_bind].
  destruct (subset_loop fuel fuel (states b) (chars_in_order A) _)
    as [w|] eqn:Hloop; [|done].
  cbn [mbind option_bind]. intros [= <-]. exists w. split; [done|].
  eapply (subset_loop_preserves dfa_ids_ok fuel (states b) (chars_in_order A));
    [done| |
     |exact Hloop].
  { intros w0 cur c w1. apply process_symbol_ids. }
  split; [done|]. simpl. intros i d Hd.
  apply list_lookup_singleton_Some in Hd as [-> <-]. simpl.
  split; [done|]. intros Hempty.
  pose proof (epsilonClosure_extends _ _ _ _ HK0 (start nfa)
                ltac:(by apply elem_of_singleton)) as Hin.
  rewrite Hempty in Hin. by apply not_elem_of_empty in Hin.
Qed.

(** X4.  [convertToDFA] builds the automaton of the textbook subset
    construction.  State 0 carries the epsilon closure of the fragment's
    start; a state has a transition on [c] exactly when [c] is an ordinary
    character on which some NFA state of its set can move, and the target
    carries the epsilon closure of those moves; a state is final exactly
    when its set holds a final NFA state; no set is empty, and there are at
    most [2 ^ n] states for an NFA of [n] states. *)
Theorem convertToDFA_subset_construction src b fs nfa :
  Built src b fs → nfa ∈ fs →
  ∃ fuel0, ∀ fuel, fuel0 ≤ fuel →
    ∃ dfa, convertToDFA fuel b nfa = Some dfa
      ∧ startDFA dfa = 0
      ∧ (∃ d0, dfaStates dfa !! 0 = Some d0
               ∧ ∀ q, q ∈ nfaStates d0 ↔ eps_reach (states b) (start nfa) q)
      ∧ (∀ i d c,
           dfaStates dfa !! i = Some d →
           match dfa_transitions d !! c with
           | Some j =>
             c ≠ epsilon
             ∧ ∃ d', dfaStates dfa !! j = Some d'
                     ∧ ∀ q, q ∈ nfaStates d'
                            ↔ eps_closure_of (states b)
                                (move (states b) (nfaStates d) c) q
           | None => c = epsilon ∨ move (states b) (nfaStates d) c = ∅
           end)
      ∧ (∀ i d, dfaStates dfa !! i = Some d →
                dfa_id d = i
                ∧ dfa_isFinal d = any_final (states b) (nfaStates d)
                ∧ nfaStates d ≠ ∅)
      ∧ length (dfaStates dfa) ≤ 2 ^ length (states b).
Proof.
  intros Hb Hin. destruct (Built_valid src b fs nfa Hb Hin) as [Hwf Hstart].
  exists (length (states b) + size (all_subsets (length (states b))) + 1).
  intros fuel Hfuel.
  destruct (convertToDFA_spec b nfa Hwf Hstart fuel Hfuel)
    as (A & K0 & w & HK0 & Hrun & Hinv & Hnil & (d0 & Hd0 & HdK) & Hal).
  eexists. split; [exact Hrun|]. cbn [startDFA dfaStates].
  split; [done|].
  assert (∀ i d c j, w_dfaStates w !! i = Some d →
            dfa_transitions d !! c = Some j →
            c ≠ epsilon
            ∧ ∃ d', w_dfaStates w !! j = Some d'
                    ∧ ∀ q, q ∈ nfaStates d'
                           ↔ eps_closure_of (states b)
                               (move (states b) (nfaStates d) c) q) as Htrans.
  { intros i d c j Hd Hj.
    destruct (inv_trans _ _ _ _ _ _ _ Hinv i d c j Hd Hj)
      as (Hc & Hmv & d' & Hd' & Hcl).
    split; [done|]. exists d'. split; [done|].
    by apply (epsilonClosure_reach _ _ _ _ Hcl). }
  split.
  { exists d0. split; [done|]. intros q. subst K0.
    rewrite (epsilonClosure_reach _ _ _ _ HK0 q). split.
    - intros (p & Hp & Hreach). by apply elem_of_singleton in Hp as ->.
    - intros Hreach. exists (start nfa). split; [|done].
      by apply elem_of_singleton. }
  split.
  { intros i d c Hd. destruct (dfa_transitions d !! c) as [j|] eqn:Hj.
    - by apply (Htrans i d c j).
    - destruct (decide (c = epsilon)) as [|Hc]; [by left|]. right.
      by apply (no_transition_no_move _ _ _ _ _ Hinv Hnil Hal i d c). }
  destruct (convertToDFA_ids _ _ _ _ Hrun) as (w' & Hw' & Hcount & Hids).
  cbn [dfaStates] in Hw'.
  split.
  { intros i d Hd. rewrite Hw' in Hd. destruct (Hids i d Hd) as [Hid Hne].
    split; [done|]. split; [|done]. rewrite <- Hw' in Hd.
    by apply (inv_final _ _ _ _ _ _ _ Hinv i). }
  assert (NoDup (nfaStates <$> w_dfaStates w)) as Hnodup.
  { apply NoDup_alt. intros i j K Hi Hj.
    rewrite list_lookup_fmap in Hi, Hj.
    destruct (w_dfaStates w !! i) as [di|] eqn:Hdi; [|done].
    destruct (w_dfaStates w !! j) as [dj|] eqn:Hdj; [|done].
    simpl in Hi, Hj. injection Hi as Hi. injection Hj as Hj.
    assert (dfaStateMap w !! K = Some i) as Hmi.
    { apply (inv_map _ _ _ _ _ _ _ Hinv). by exists di. }
    assert (dfaStateMap w !! K = Some j) as Hmj.
    { apply (inv_map _ _ _ _ _ _ _ Hinv). by exists dj. }
    congruence. }
  assert ((list_to_set (nfaStates <$> w_dfaStates w) : gset (gset nat))
          ⊆ all_subsets (length (states b))) as Hsub.
  { intros K HK. apply elem_of_list_to_set, list_elem_of_fmap in HK
      as (d & -> & Hd).
    apply list_elem_of_lookup in Hd as [i Hd].
    apply elem_of_all_subsets. intros q Hq.
    by apply (inv_states _ _ _ _ _ _ _ Hinv i d Hd q Hq). }
  apply subseteq_size in Hsub.
  rewrite (size_list_to_set _ Hnodup), length_fmap in Hsub.
  pose proof (size_list_to_set_le (subsets (seq 0 (length (states b))))) as Hle.
  rewrite length_subsets, length_seq in Hle.
  unfold all_subsets in Hsub. lia.
Qed.

Lemma convertToDFA_subset_construction_witness :
  ∃ fuel0, ∀ fuel, fuel0 ≤ fuel →
    ∃ dfa, convertToDFA fuel star_example.1 (mkNFAPtr 2 3) = Some dfa
      ∧ startDFA dfa = 0
      ∧ (∃ d0, dfaStates dfa !! 0 = Some d0
               ∧ ∀ q, q ∈ nfaStates d0
                      ↔ eps_reach (states star_example.1) (start (mkNFAPtr 2 3)) q)
      ∧ (∀ i d c,
           dfaStates dfa !! i = Some d →
           match dfa_transitions d !! c with
           | Some j =>
             c ≠ epsilon
             ∧ ∃ d', dfaStates dfa !! j = Some d'
                     ∧ ∀ q, q ∈ nfaStates d'
                            ↔ eps_closure_of (states star_example.1)
                                (move (states star_example.1) (nfaStates d) c) q
           | None => c = epsilon
                     ∨ move (states star_example.1) (nfaStates d) c = ∅
           end)
      ∧ (∀ i d, dfaStates dfa !! i = Some d →
                dfa_id d = i
                ∧ dfa_isFinal d = any_final (states star_example.1) (nfaStates d)
                ∧ nfaStates d ≠ ∅)
      ∧ length (dfaStates dfa) ≤ 2 ^ length (states star_example.1).
Proof.
  apply (convertToDFA_subset_construction ChessNotCpp _ _ (mkNFAPtr 2 3)
           star_example_built).
  apply list_elem_of_here.
Defined.

(** * Character ranges *)

Lemma char_val_range c : (-128 ≤ char_val c ≤ 127)%Z.
Proof.
  unfold char_val. cbn zeta.
  pose proof (N_ascii_bounded c) as Hb.
  destruct (Z.ltb_spec (Z.of_N (N_of_ascii c)) 128); lia.
Qed.

Lemma mod_256_negative a : (-256 ≤ a < 0)%Z → (a mod 256 = a + 256)%Z.
Proof.
  intros Ha. symmetry. apply (Z.mod_unique a 256 (-1) (a + 256)); lia.
Qed.

Lemma char_val_of_val z :
  (-128 ≤ z ≤ 127)%Z → char_val (char_of_val z) = z.
Proof.
  intros Hz. unfold char_val, char_of_val. cbn zeta.
  assert (Z.to_N (z mod 256) < 256)%N as Hlt.
  { pose proof (Z.mod_pos_bound z 256 ltac:(lia)). lia. }
  rewrite (N_ascii_embedding _ Hlt).
  rewrite Z2N.id by (apply Z.mod_pos_bound; lia).
  destruct (decide (0 ≤ z)%Z) as [Hpos|Hneg].
  - rewrite Z.mod_small by lia.
    destruct (Z.ltb_spec z 128); lia.
  - rewrite mod_256_negative by lia.
    destruct (Z.ltb_spec (z + 256) 128); lia.
Qed.

Lemma char_of_val_val c : char_of_val (char_val c) = c.
Proof.
  unfold char_val, char_of_val. cbn zeta.
  pose proof (N_ascii_bounded c) as Hb.
  destruct (Z.ltb_spec (Z.of_N (N_of_ascii c)) 128).
  - rewrite Z.mod_small by lia. rewrite N2Z.id. apply ascii_N_embedding.
  - rewrite mod_256_negative by lia.
    replace (Z.of_N (N_of_ascii c) - 256 + 256)%Z
      with (Z.of_N (N_of_ascii c)) by lia.
    rewrite N2Z.id. apply ascii_N_embedding.
Qed.

Lemma char_of_val_eq c z :
  (-128 ≤ z ≤ 127)%Z → c = char_of_val z ↔ char_val c = z.
Proof.
  intros Hz. split.
  - intros ->. by apply char_val_of_val.
  - intros <-. by rewrite char_of_val_val.
Qed.

(** The loop over a range that ends below [CHAR_MAX] inserts the
    characters of the range and stops. *)
Lemma range_loop_members n : ∀ lo hi V fuel,
  (-128 ≤ lo)%Z → (hi < 127)%Z → (hi + 1 - lo = Z.of_nat n)%Z →
  n < fuel →
  ∃ V', range_loop fuel lo hi V = Some V'
        ∧ ∀ c, c ∈ V' ↔ c ∈ V ∨ (lo ≤ char_val c ≤ hi)%Z.
Proof.
  induction n as [|n IH]; intros lo hi V fuel Hlo Hhi Hn Hfuel;
    (destruct fuel as [|fuel]; [lia|]); cbn [range_loop].
  - destruct (Z.leb_spec lo hi); [lia|]. exists V. split; [done|].
    intros c. split; [by left|]. intros [?|?]; [done|lia].
  - destruct (Z.leb_spec lo hi); [|lia].
    assert (char_succ lo = (lo + 1)%Z) as ->.
    { unfold char_succ. apply char_val_of_val. lia. }
    destruct (IH (lo + 1)%Z hi ({[char_of_val lo]} ∪ V) fuel)
      as (V' & -> & HV'); [lia|lia|lia|lia|].
    exists V'. split; [done|]. intros c. rewrite HV'.
    rewrite elem_of_union, elem_of_singleton.
    rewrite (char_of_val_eq c lo) by lia. split.
    + intros [[Heq|HinV]|Hr]; [right; lia|by left|right; lia].
    + intros [HinV|Hr]; [left; by right|].
      destruct (decide (char_val c = lo)); [left; by left|right; lia].
Qed.

(** The loop over a range that ends at [CHAR_MAX] never stops: the
    increment wraps around and the test [c <= end] stays true. *)
Lemma range_loop_char_max fuel : ∀ lo V,
  (-128 ≤ lo ≤ 127)%Z → range_loop fuel lo 127 V = None.
Proof.
  induction fuel as [|fuel IH]; intros lo V Hlo; cbn [range_loop]; [done|].
  destruct (Z.leb_spec lo 127); [|lia].
  apply IH. unfold char_succ. apply char_val_range.
Qed.

(** X6.  The class [[x-y]] in both files.  When [x <= y] and [y] is below
    [CHAR_MAX] the parser adds exactly the characters from [x] to [y].
    When [y] is [CHAR_MAX] (the character 127) the [for] loop never ends,
    whatever number of rounds is allowed, and the parser does not return. *)
Theorem parseCharacterClass_range x y V :
  (char_val x ≤ char_val y)%Z →
  ((char_val y < 127)%Z →
   ∃ V', Final.parseCharacterClass ["["; x; "-"; y; "]"]%char V = Ok V'
         ∧ Chess.parseCharacterClass ["["; x; "-"; y; "]"]%char V = Ok V'
         ∧ ∀ c, c ∈ V' ↔ c ∈ V ∨ (char_val x ≤ char_val c ≤ char_val y)%Z)
  ∧ (char_val y = 127%Z →
     (∀ fuel, range_loop fuel (char_val x) (char_val y) V = None)
     ∧ Final.parseCharacterClass ["["; x; "-"; y; "]"]%char V = Hang
     ∧ Chess.parseCharacterClass ["["; x; "-"; y; "]"]%char V = Hang).
Proof.
  intros Hxy.
  assert (∀ r, (match range_loop 257 (char_val x) (char_val y) V with
                | Some V' => parse_content [] V'
                | None => Hang
                end = r) →
               Final.parseCharacterClass ["["; x; "-"; y; "]"]%char V = r
               ∧ Chess.parseCharacterClass ["["; x; "-"; y; "]"]%char V = r)
    as Hparse.
  { intros r Hr.
    assert (bad_format ["["; x; "-"; y; "]"]%char = false) as Hfmt.
    { apply bad_format_false. by exists [x; "-"; y]%char. }
    unfold Final.parseCharacterClass, Chess.parseCharacterClass.
    rewrite Hfmt.
    change (class_content ["["; x; "-"; y; "]"]%char) with [x; "-"; y]%char.
    cbn [parse_content]. rewrite decide_True by done.
    rewrite decide_False by lia. done. }
  pose proof (char_val_range x) as Hx.
  split.
  - intros Hy.
    destruct (range_loop_members (Z.to_nat (char_val y + 1 - char_val x))
                (char_val x) (char_val y) V 257) as (V' & HV' & Hmem);
      [lia|lia|lia|lia|].
    exists V'.
    destruct (Hparse (Ok V')) as [HF HC]; [by rewrite HV'|].
    by split; [|split].
  - intros Hy.
    assert (∀ fuel, range_loop fuel (char_val x) (char_val y) V = None) as Hnone.
    { intros fuel. rewrite Hy. apply range_loop_char_max. lia. }
    split; [done|]. apply Hparse. by rewrite Hnone.
Qed.

Lemma parseCharacterClass_range_witness :
  (char_val "a" ≤ char_val "c")%Z
  ∧ (char_val "c" < 127)%Z
  ∧ ∃ V', Final.parseCharacterClass (str "[a-c]") ∅ = Ok V'
          ∧ Chess.parseCharacterClass (str "[a-c]") ∅ = Ok V'
          ∧ ∀ c, c ∈ V' ↔ c ∈ (∅ : gset ascii)
                          ∨ (char_val "a" ≤ char_val c ≤ char_val "c")%Z.
Proof.
  assert (char_val "a" ≤ char_val "c")%Z as Hxy by (vm_compute; discriminate).
  assert (char_val "c" < 127)%Z as Hy by (vm_compute; reflexivity).
  split; [exact Hxy|]. split; [exact Hy|].
  exact (proj1 (parseCharacterClass_range "a" "c" ∅ Hxy) Hy).
Defined.

(** The first reversed range that the scan reads stops it with the range
    error, when no range before it ends at [CHAR_MAX]. *)
Lemma parse_content_first_reversed pre : ∀ content x y post V,
  class_items content = pre ++ Range x y :: post →
  (char_val x > char_val y)%Z →
  (∀ x' y', Range x' y' ∈ pre → (char_val y' < 127)%Z) →
  parse_content content V = Throw "Invalid character range".
Proof.
  induction pre as [|item pre IH]; intros content x y post V Hitems Hgt Hpre.
  - destruct content as [|a [|dash [|b rest']]]; cbn [class_items app] in Hitems;
      try discriminate Hitems.
    destruct (decide (dash = "-"%char)) as [->|Hd]; [|discriminate Hitems].
    injection Hitems as -> -> _. cbn [parse_content].
    rewrite decide_True by done. by rewrite decide_True.
  - destruct content as [|a rest]; [discriminate Hitems|].
    assert (∀ V', class_items rest = pre ++ Range x y :: post →
                  parse_content rest V' = Throw "Invalid character range")
      as Hrest.
    { intros V' Heq. apply (IH rest x y post V' Heq Hgt).
      intros x' y' Hin. apply (Hpre x' y'). by apply list_elem_of_further. }
    destruct rest as [|dash [|b rest']].
    + cbn [class_items app] in Hitems. injection Hitems as _ Hitems.
      by destruct pre.
    + cbn [class_items app] in Hitems. injection Hitems as _ Hitems.
      cbn [parse_content]. by apply Hrest.
    + cbn [class_items app] in Hitems. cbn [parse_content].
      destruct (decide (dash = "-"%char)) as [->|Hd].
      * injection Hitems as <- Hitems.
        destruct (decide (char_val a > char_val b)%Z) as [|Hle]; [done|].
        assert (char_val b < 127)%Z as Hb
          by (apply (Hpre a b); apply list_elem_of_here).
        pose proof (char_val_range a) as Ha.
        destruct (range_loop_members
                    (Z.to_nat (char_val b + 1 - char_val a))
                    (char_val a) (char_val b) V 257)
          as (V' & -> & _); [lia|lia|lia|lia|].
        apply (IH rest' x y post V' Hitems Hgt).
        intros x' y' Hin. apply (Hpre x' y'). by apply list_elem_of_further.
      * injection Hitems as _ Hitems. by apply Hrest.
Qed.




(** * The languages of the token classes *)

Lemma dfa_table_ok_spec G n T F :
  dfa_table_ok G n T F = true →
  ∀ p, p < n →
    from_option dfa_isFinal false (G !! p) = F p
    ∧ ∀ c, (G !! p ≫= λ d, dfa_transitions d !! c) = T p c.
Proof.
  unfold dfa_table_ok. rewrite forallb_forall. intros Hall p Hp.
  specialize (Hall p). rewrite <- list_elem_of_In, elem_of_seq in Hall.
  specialize (Hall ltac:(lia)). apply andb_prop in Hall as [Hfin Htab].
  apply bool_decide_eq_true in Hfin. split; [done|].
  intros c. rewrite forallb_forall in Htab.
  specialize (Htab (nat_of_ascii c)).
  rewrite <- list_elem_of_In, elem_of_seq in Htab.
  pose proof (nat_ascii_bounded c) as Hb.
  specialize (Htab ltac:(lia)). apply bool_decide_eq_true in Htab.
  by rewrite ascii_nat_embedding in Htab.
Qed.

(** Acceptance from a state of a graph that follows a table. *)
Lemma accepts_from_table G n T F p w :
  dfa_table_ok G n T F = true → p < n →
  accepts_from G p w
  = match w with
    | [] => F p
    | c :: w' => match T p c with
                 | Some q => accepts_from G q w'
                 | None => false
                 end
    end.
Proof.
  intros Hok Hp. destruct (dfa_table_ok_spec G n T F Hok p Hp) as [Hfin Htab].
  destruct w as [|c w'].
  - unfold accepts_from. simpl. done.
  - rewrite accepts_from_cons. by rewrite Htab.
Qed.

Lemma is_digits_cons c w :
  is_digits (c :: w) = Chess.is_digit c && forallb Chess.is_digit w.
Proof. done. Qed.

Lemma forallb_digits_or_nil w :
  forallb Chess.is_digit w = true → w = [] ∨ is_digits w = true.
Proof. destruct w; [by left|by right]. Qed.

Lemma is_digits_forallb w : is_digits w = true → forallb Chess.is_digit w = true.
Proof. by destruct w. Qed.

Lemma dot_not_digit : Chess.is_digit "."%char = false.
Proof. done. Qed.

Section identifier_language.
Context (G : list DFAState).
Context (Hok : dfa_table_ok G 3 identifier_table identifier_final = true).

Lemma identifier_tail w :
accepts_from G 2 w = forallb is_identifier_char w.
Proof using Hok.
induction w as [|c w IH].
- by rewrite (accepts_from_table G 3 _ _ 2 [] Hok) by lia.
- rewrite (accepts_from_table G 3 _ _ 2 (c :: w) Hok) by lia.
  simpl. destruct (is_identifier_char c); [by rewrite IH|done].
Qed.

Lemma identifier_language w :
accepts_from G 0 w = is_identifier w.
Proof using Hok.
destruct w as [|c w].
- by rewrite (accepts_from_table G 3 _ _ 0 [] Hok) by lia.
- rewrite (accepts_from_table G 3 _ _ 0 (c :: w) Hok) by lia.
  simpl. destruct (is_identifier_start c); [|done]. simpl.
  destruct w as [|c' w].
  + by rewrite (accepts_from_table G 3 _ _ 1 [] Hok) by lia.
  + rewrite (accepts_from_table G 3 _ _ 1 (c' :: w) Hok) by lia.
    simpl. destruct (is_identifier_char c'); [|done].
    by rewrite identifier_tail.
Qed.
End identifier_language.

Section number_language.
Context (G : list DFAState).
Context (Hok : dfa_table_ok G 4 number_table number_final = true).

Lemma number_fraction_tail w :
accepts_from G 3 w = forallb Chess.is_digit w.
Proof using Hok.
induction w as [|c w IH].
- by rewrite (accepts_from_table G 4 _ _ 3 [] Hok) by lia.
- rewrite (accepts_from_table G 4 _ _ 3 (c :: w) Hok) by lia.
  simpl. destruct (Chess.is_digit c); [by rewrite IH|done].
Qed.

Lemma number_fraction w :
accepts_from G 2 w = is_digits w.
Proof using Hok.
destruct w as [|c w].
- by rewrite (accepts_from_table G 4 _ _ 2 [] Hok) by lia.
- rewrite (accepts_from_table G 4 _ _ 2 (c :: w) Hok) by lia.
  rewrite is_digits_cons. simpl.
  destruct (Chess.is_digit c); [by rewrite number_fraction_tail|done].
Qed.

(** After the first digit: more digits, then nothing or a fraction. *)
Lemma number_integer_tail w :
accepts_from G 1 w = true ↔
forallb Chess.is_digit w = true
∨ ∃ ds fs, w = ds ++ "."%char :: fs
           ∧ forallb Chess.is_digit ds = true ∧ is_digits fs = true.
Proof using Hok.
induction w as [|c w IH].
- rewrite (accepts_from_table G 4 _ _ 1 [] Hok) by lia. simpl.
  split; [by left|done].
- rewrite (accepts_from_table G 4 _ _ 1 (c :: w) Hok) by lia. simpl.
  destruct (Chess.is_digit c) eqn:Hc.
  + rewrite IH. simpl. split.
    * intros [Hall|(ds & fs & -> & Hds & Hfs)]; [by left|].
      right. exists (c :: ds), fs. split; [done|]. simpl. by rewrite Hc.
    * intros [Hall|(ds & fs & Heq & Hds & Hfs)]; [by left|].
      destruct ds as [|d ds].
      -- simpl in Heq. injection Heq as -> _. by rewrite dot_not_digit in Hc.
      -- simpl in Heq. injection Heq as -> ->. simpl in Hds.
         apply andb_prop in Hds as [_ Hds]. right. by exists ds, fs.
  + destruct (decide (c = "."%char)) as [->|Hdot].
    * rewrite number_fraction. split.
      -- intros Hfs. right. by exists [], w.
      -- intros [Hall|(ds & fs & Heq & Hds & Hfs)]; [done|].
         destruct ds as [|d ds].
         ++ simpl in Heq. by injection Heq as ->.
         ++ simpl in Heq. injection Heq as <- _. simpl in Hds.
            try rewrite dot_not_digit in Hds. done.
    * split; [done|].
      intros [Hall|(ds & fs & Heq & Hds & Hfs)]; [done|].
      destruct ds as [|d ds].
      -- simpl in Heq. by injection Heq as -> _.
      -- simpl in Heq. injection Heq as <- _. simpl in Hds.
         by rewrite Hc in Hds.
Qed.

Lemma number_language w :
accepts_from G 0 w = true ↔ number_shape w.
Proof using Hok.
unfold number_shape. destruct w as [|c w].
- rewrite (accepts_from_table G 4 _ _ 0 [] Hok) by lia. simpl.
  split; [done|]. intros [?|(ds & fs & Heq & Hds & _)]; [done|].
  by destruct ds.
- rewrite (accepts_from_table G 4 _ _ 0 (c :: w) Hok) by lia.
  rewrite is_digits_cons. simpl.
  destruct (Chess.is_digit c) eqn:Hc.
  + rewrite number_integer_tail. simpl. split.
    * intros [Hall|(ds & fs & -> & Hds & Hfs)]; [by left|].
      right. exists (c :: ds), fs. split; [done|].
      rewrite is_digits_cons, Hc. done.
    * intros [Hall|(ds & fs & Heq & Hds & Hfs)]; [by left|].
      destruct ds as [|d ds]; [done|].
      simpl in Heq. injection Heq as -> ->.
      rewrite is_digits_cons in Hds. apply andb_prop in Hds as [_ Hds].
      right. by exists ds, fs.
  + split; [done|].
    intros [Hall|(ds & fs & Heq & Hds & Hfs)]; [done|].
    destruct ds as [|d ds]; [done|].
    simpl in Heq. injection Heq as <- _.
    rewrite is_digits_cons, Hc in Hds. done.
Qed.
End number_language.

Section move_number_language.
Context (G : list DFAState).
Context (Hok : dfa_table_ok G 3 move_number_table move_number_final = true).

Lemma move_number_dot w : accepts_from G 2 w = true ↔ w = [].
Proof using Hok.
destruct w as [|c w].
- by rewrite (accepts_from_table G 3 _ _ 2 [] Hok) by lia.
- by rewrite (accepts_from_table G 3 _ _ 2 (c :: w) Hok) by lia.
Qed.

Lemma move_number_tail w :
accepts_from G 1 w = true ↔
∃ ds, w = ds ++ ["."%char] ∧ forallb Chess.is_digit ds = true.
Proof using Hok.
induction w as [|c w IH].
- rewrite (accepts_from_table G 3 _ _ 1 [] Hok) by lia. simpl.
  split; [done|]. intros (ds & Heq & _). by destruct ds.
- rewrite (accepts_from_table G 3 _ _ 1 (c :: w) Hok) by lia. simpl.
  destruct (Chess.is_digit c) eqn:Hc.
  + rewrite IH. split.
    * intros (ds & -> & Hds). exists (c :: ds). split; [done|].
      simpl. by rewrite Hc.
    * intros (ds & Heq & Hds). destruct ds as [|d ds].
      -- simpl in Heq. injection Heq as -> _. by rewrite dot_not_digit in Hc.
      -- simpl in Heq. injection Heq as -> ->. simpl in Hds.
         apply andb_prop in Hds as [_ Hds]. by exists ds.
  + destruct (decide (c = "."%char)) as [->|Hdot].
    * rewrite move_number_dot. split.
      -- intros ->. by exists [].
      -- intros (ds & Heq & Hds). destruct ds as [|d ds].
         ++ simpl in Heq. by injection Heq as ->.
         ++ simpl in Heq. injection Heq as <- _. simpl in Hds.
            try rewrite dot_not_digit in Hds. done.
    * split; [done|]. intros (ds & Heq & Hds). destruct ds as [|d ds].
      -- simpl in Heq. by injection Heq as -> _.
      -- simpl in Heq. injection Heq as <- _. simpl in Hds.
         by rewrite Hc in Hds.
Qed.

Lemma move_number_language w :
accepts_from G 0 w = true ↔ move_number_shape w.
Proof using Hok.
unfold move_number_shape. destruct w as [|c w].
- rewrite (accepts_from_table G 3 _ _ 0 [] Hok) by lia. simpl.
  split; [done|]. intros (ds & Heq & _). by destruct ds.
- rewrite (accepts_from_table G 3 _ _ 0 (c :: w) Hok) by lia. simpl.
  destruct (Chess.is_digit c) eqn:Hc.
  + rewrite move_number_tail. split.
    * intros (ds & -> & Hds). exists (c :: ds). split; [done|].
      rewrite is_digits_cons, Hc. done.
    * intros (ds & Heq & Hds). destruct ds as [|d ds]; [done|].
      simpl in Heq. injection Heq as -> ->.
      rewrite is_digits_cons in Hds. apply andb_prop in Hds as [_ Hds].
      by exists ds.
  + split; [done|]. intros (ds & Heq & Hds).
    destruct ds as [|d ds]; [done|].
    simpl in Heq. injection Heq as <- _.
    rewrite is_digits_cons, Hc in Hds. done.
Qed.
End move_number_language.

(** ** The token classes of the two lexers *)

Lemma final_tryMatchDFA_accepted dfa input pos ty :
  Final.type (Final.tryMatchDFA dfa input pos ty) ≠ Final.INVALID →
  Final.type (Final.tryMatchDFA dfa input pos ty) = ty
  ∧ acceptsDFA dfa (Final.value (Final.tryMatchDFA dfa input pos ty)) = true.
Proof.
  intros Hty.
  destruct (tryMatchDFA_cases dfa input pos)
    as [(_ & Hnone & _)|(k & _ & _ & Hacc & _ & Hsome & _)].
  - rewrite Hnone in Hty. done.
  - rewrite Hsome. done.
Qed.

Lemma new_Lexer_table fuel lx :
  Final.new_Lexer fuel = Some lx →
  Final.singleCharTokens lx = Final.initializeSingleCharTokens.
Proof.
  unfold Final.new_Lexer.
  destruct (Final.createIdentifierNFA newBuilder) as [b [f| |]]; try done.
  destruct (convertToDFA fuel b f) as [d1|]; [|done]. cbn [mbind option_bind].
  destruct (Final.createNumberNFA b) as [b' [f'| |]]; try done.
  destruct (convertToDFA fuel b' f') as [d2|]; [|done]. cbn [mbind option_bind].
  by intros [= <-].
Qed.

(** X9.  The lexer Final.cpp builds: the identifier DFA accepts exactly
    [[a-zA-Z_][a-zA-Z0-9_]*], the number DFA exactly [[0-9]+(\.[0-9]+)?],
    and the text of every IDENTIFIER or NUMBER token is in the language of
    its class. *)
Theorem final_lexer_languages :
  ∃ lx, Final.new_Lexer 64 = Some lx
    ∧ (∀ w, acceptsDFA (Final.identifierDFA lx) w = is_identifier w)
    ∧ (∀ w, acceptsDFA (Final.numberDFA lx) w = true ↔ number_shape w)
    ∧ ∀ input pos,
        (Final.type (Final.getNextToken lx input pos) = Final.IDENTIFIER →
         is_identifier (Final.value (Final.getNextToken lx input pos)) = true)
        ∧ (Final.type (Final.getNextToken lx input pos) = Final.NUMBER →
           number_shape (Final.value (Final.getNextToken lx input pos))).
Proof.
  assert ((lx ← Final.new_Lexer 64;
           Some (dfa_table_ok (dfaStates (Final.identifierDFA lx)) 3
                              identifier_table identifier_final
                 && bool_decide (startDFA (Final.identifierDFA lx) = 0)
                 && dfa_table_ok (dfaStates (Final.numberDFA lx)) 4
                                 number_table number_final
                 && bool_decide (startDFA (Final.numberDFA lx) = 0)))
          = Some true) as Hcheck.
  { vm_compute. reflexivity. }
  apply bind_Some in Hcheck as (lx & Hlx & Hcheck).
  injection Hcheck as Hcheck.
  pose proof (new_Lexer_table 64 lx Hlx) as Htab.
  apply andb_prop in Hcheck as [Hcheck Hnum0].
  apply andb_prop in Hcheck as [Hcheck Hnum].
  apply andb_prop in Hcheck as [Hid Hid0].
  apply bool_decide_eq_true in Hid0, Hnum0.
  assert (∀ w, acceptsDFA (Final.identifierDFA lx) w = is_identifier w) as HLid.
  { intros w. unfold acceptsDFA. rewrite Hid0.
    apply (identifier_language _ Hid w). }
  assert (∀ w, acceptsDFA (Final.numberDFA lx) w = true ↔ number_shape w)
    as HLnum.
  { intros w. unfold acceptsDFA. rewrite Hnum0.
    apply (number_language _ Hnum w). }
  exists lx. split; [exact Hlx|]. split; [exact HLid|]. split; [exact HLnum|].
  intros input pos. unfold Final.getNextToken. rewrite Htab.
  destruct (Final.initializeSingleCharTokens !! _) as [t|] eqn:Ht.
  { apply initializeSingleCharTokens_types in Ht. simpl.
    split; intros ->; destruct Ht as [?|[?|[?|?]]]; done. }
  case_decide as Hi.
  { destruct (final_tryMatchDFA_accepted _ _ _ _ Hi) as [Hty Hacc].
    split; [|by rewrite Hty]. intros _. by rewrite <- HLid. }
  case_decide as Hn.
  { destruct (final_tryMatchDFA_accepted _ _ _ _ Hn) as [Hty Hacc].
    split; [by rewrite Hty|]. intros _. by apply HLnum. }
  cbn [Final.type]. split; intros Habs; discriminate Habs.
Qed.

Lemma chess_candidate_accepted input pos p c :
  chess_candidate input pos p = Some c →
  c.1 = p.2 ∧ acceptsDFA p.1 c.2 = true.
Proof.
  unfold chess_candidate.
  destruct (tryMatchDFA_cases p.1 input pos)
    as [(_ & _ & Hnone)|(k & _ & _ & Hacc & _ & _ & Hsome)].
  - rewrite Hnone. done.
  - rewrite Hsome. simpl. by intros [= <-].
Qed.

(** The text of a token of the notation lexer is accepted by the DFA of
    the token's class. *)
Lemma chess_getNextToken_class lx input pos :
  Chess.type (Chess.getNextToken lx input pos) ≠ Chess.INVALID →
  ∃ p, p ∈ chess_patterns lx
       ∧ p.2 = Chess.type (Chess.getNextToken lx input pos)
       ∧ acceptsDFA p.1 (Chess.value (Chess.getNextToken lx input pos)) = true.
Proof.
  unfold Chess.getNextToken. case_decide as Hty; [|done]. intros _.
  destruct (decide (Chess.all_candidates lx input pos = [])) as [Hnil|Hne].
  { unfold Chess.tryMatchLongest in Hty. by rewrite Hnil in Hty. }
  destruct (tryMatchLongest_first_longest lx input pos Hne)
    as (pre & post & Heq & _).
  assert ((Chess.type (Chess.tryMatchLongest lx input pos),
           Chess.value (Chess.tryMatchLongest lx input pos))
          ∈ Chess.all_candidates lx input pos) as Hin.
  { rewrite Heq. apply elem_of_app. right. apply elem_of_cons. by left. }
  rewrite all_candidates_patterns in Hin.
  apply list_elem_of_omap in Hin as (p & Hp & Hc).
  apply chess_candidate_accepted in Hc as [Hc1 Hc2]. simpl in *.
  by exists p.
Qed.

Lemma chess_pattern_move_number lx p :
  p ∈ chess_patterns lx → p.2 = Chess.MOVE_NUMBER →
  p.1 = Chess.moveNumberDFA lx.
Proof.
  unfold chess_patterns. intros Hin Hty.
  repeat (apply elem_of_cons in Hin as [->|Hin]; [done|]).
  by apply elem_of_nil in Hin.
Qed.

(** ** [stoi] on decimal digits *)

Lemma digit_not_space c : Chess.is_digit c = true → isspace c = false.
Proof.
  unfold Chess.is_digit, isspace. cbn zeta. intros Hd.
  apply andb_prop in Hd as [H1 H2].
  apply Z.leb_le in H1. apply Z.leb_le in H2.
  apply orb_false_intro.
  - apply andb_false_intro2. apply Z.leb_gt. lia.
  - apply Z.eqb_neq. lia.
Qed.

Lemma read_digits_all ds : ∀ acc seen,
  forallb Chess.is_digit ds = true →
  Chess.read_digits ds acc seen
  = (foldl (λ a c, a * 10 + (char_val c - 48))%Z acc ds,
     seen || negb (bool_decide (ds = []))).
Proof.
  induction ds as [|c ds IH]; intros acc seen Hall; simpl.
  { by rewrite orb_false_r. }
  simpl in Hall. apply andb_prop in Hall as [Hc Hall].
  rewrite Hc. rewrite (IH _ _ Hall). simpl. by rewrite orb_true_r.
Qed.

Lemma foldl_digits_nonneg ds : ∀ acc,
  (0 ≤ acc)%Z → forallb Chess.is_digit ds = true →
  (0 ≤ foldl (λ a c, a * 10 + (char_val c - 48))%Z acc ds)%Z.
Proof.
  induction ds as [|c ds IH]; intros acc Hacc Hall; [done|].
  simpl in *. apply andb_prop in Hall as [Hc Hall].
  apply IH; [|done]. unfold Chess.is_digit in Hc.
  apply andb_prop in Hc as [H1 _]. apply Z.leb_le in H1. lia.
Qed.

(** On a string of decimal digits [stoi] returns the number they denote,
    unless it is greater than [INT_MAX]. *)
Lemma stoi_digits ds :
  is_digits ds = true →
  Chess.stoi ds
  = if decide (digits_value ds ≤ 2147483647)%Z
    then Some (digits_value ds) else None.
Proof.
  intros Hds. destruct ds as [|c ds]; [done|].
  rewrite is_digits_cons in Hds. apply andb_prop in Hds as [Hc Hds].
  assert (forallb Chess.is_digit (c :: ds) = true) as Hall.
  { simpl. by rewrite Hc, Hds. }
  unfold Chess.stoi. cbn [Chess.skip_spaces].
  rewrite (digit_not_space c Hc). cbn zeta.
  rewrite decide_False by (by intros ->).
  rewrite decide_False by (by intros ->).
  cbn [fst snd]. rewrite (read_digits_all (c :: ds) 0%Z false Hall).
  cbn [fst snd orb negb]. rewrite bool_decide_eq_false_2 by done.
  cbn [negb].
  pose proof (foldl_digits_nonneg (c :: ds) 0%Z ltac:(lia) Hall) as Hpos.
  fold (digits_value (c :: ds)) in *.
  destruct (decide (digits_value (c :: ds) ≤ 2147483647)%Z).
  - by rewrite decide_True by lia.
  - by rewrite decide_False by lia.
Qed.

Lemma substr_drop_last (ds : list ascii) c :
  substr (ds ++ [c]) 0 (length (ds ++ [c]) - 1) = ds.
Proof.
  unfold substr. rewrite drop_0, length_app. simpl.
  replace (length ds + 1 - 1) with (length ds) by lia.
  by rewrite take_app_length.
Qed.

(** X14.  The lexer chessNot.cpp builds: the MOVE_NUMBER DFA accepts exactly
    [[0-9]+\.]; so the text of a MOVE_NUMBER token is a string of digits
    and a dot, and the [stoi] call of [validateMoveSequence] on it throws
    only when the number is greater than [INT_MAX]. *)
Theorem chess_move_number_tokens :
  ∃ lx, Chess.new_ChessLexer 100 = Some lx
    ∧ (∀ w, acceptsDFA (Chess.moveNumberDFA lx) w = true ↔ move_number_shape w)
    ∧ ∀ input pos,
        Chess.type (Chess.getNextToken lx input pos) = Chess.MOVE_NUMBER →
        ∃ ds, Chess.value (Chess.getNextToken lx input pos) = ds ++ ["."%char]
              ∧ is_digits ds = true
              ∧ move_number (Chess.getNextToken lx input pos)
                = if decide (digits_value ds ≤ 2147483647)%Z
                  then Some (digits_value ds) else None.
Proof.
  assert ((lx ← Chess.new_ChessLexer 100;
           Some (dfa_table_ok (dfaStates (Chess.moveNumberDFA lx)) 3
                              move_number_table move_number_final
                 && bool_decide (startDFA (Chess.moveNumberDFA lx) = 0)))
          = Some true) as Hcheck.
  { vm_compute. reflexivity. }
  apply bind_Some in Hcheck as (lx & Hlx & Hcheck).
  injection Hcheck as Hcheck.
  apply andb_prop in Hcheck as [Hok H0].
  apply bool_decide_eq_true in H0.
  assert (∀ w, acceptsDFA (Chess.moveNumberDFA lx) w = true
               ↔ move_number_shape w) as HL.
  { intros w. unfold acceptsDFA. rewrite H0.
    apply (move_number_language _ Hok w). }
  exists lx. split; [exact Hlx|]. split; [exact HL|].
  intros input pos Hty.
  destruct (chess_getNextToken_class lx input pos) as (p & Hp & Hpty & Hacc).
  { rewrite Hty. discriminate. }
  rewrite Hty in Hpty.
  rewrite (chess_pattern_move_number lx p Hp Hpty) in Hacc.
  apply HL in Hacc as (ds & Hval & Hds).
  exists ds. split; [exact Hval|]. split; [exact Hds|].
  unfold move_number. rewrite Hval, substr_drop_last.
  apply stoi_digits. exact Hds.
Qed.

(** * Longest match *)

Lemma pair_mem_spec pq l : pair_mem pq l = true ↔ pq ∈ l.
Proof.
  unfold pair_mem. rewrite existsb_exists. split.
  - intros (r & Hin & Heq). apply andb_prop in Heq as [H1 H2].
    apply Nat.eqb_eq in H1, H2. apply list_elem_of_In in Hin.
    destruct r, pq. simpl in *. by subst.
  - intros Hin. exists pq. rewrite <- list_elem_of_In. split; [done|].
    by rewrite !Nat.eqb_refl.
Qed.

(** A set of pairs that passes [pairs_closed] holds no pair of states from
    which both DFAs accept the same word. *)
Lemma pairs_closed_spec G1 G2 start I :
  pairs_closed G1 G2 start I = true →
  ∀ w pq, pq ∈ I →
    ¬ (accepts_from G1 pq.1 w = true ∧ accepts_from G2 pq.2 w = true).
Proof.
  unfold pairs_closed. intros Hok. apply andb_prop in Hok as [_ Hall].
  rewrite forallb_forall in Hall.
  induction w as [|c w IH]; intros pq Hpq [H1 H2].
  - specialize (Hall pq). rewrite <- list_elem_of_In in Hall.
    apply Hall in Hpq. apply andb_prop in Hpq as [Hfin _].
    apply negb_true_iff in Hfin. unfold pair_final in Hfin.
    unfold accepts_from in H1, H2. simpl in H1, H2.
    by rewrite H1, H2 in Hfin.
  - specialize (Hall pq). rewrite <- list_elem_of_In in Hall.
    apply Hall in Hpq. apply andb_prop in Hpq as [_ Hstep].
    rewrite forallb_forall in Hstep. specialize (Hstep (nat_of_ascii c)).
    rewrite <- list_elem_of_In, elem_of_seq in Hstep.
    pose proof (nat_ascii_bounded c) as Hb.
    specialize (Hstep ltac:(lia)). rewrite ascii_nat_embedding in Hstep.
    rewrite accepts_from_cons in H1, H2. unfold pair_step in Hstep.
    destruct (G1 !! pq.1 ≫= λ d, dfa_transitions d !! c) as [p'|];
      [|discriminate H1].
    destruct (G2 !! pq.2 ≫= λ d, dfa_transitions d !! c) as [q'|];
      [|discriminate H2].
    simpl in Hstep. apply pair_mem_spec in Hstep.
    by apply (IH (p', q') Hstep).
Qed.

Lemma dfa_disjoint_spec d1 d2 w :
  dfa_disjoint d1 d2 = true →
  ¬ (acceptsDFA d1 w = true ∧ acceptsDFA d2 w = true).
Proof.
  unfold dfa_disjoint.
  generalize (pair_closure 4096 (dfaStates d1) (dfaStates d2)
                [(startDFA d1, startDFA d2)] []).
  intros I Hok [H1 H2].
  pose proof Hok as Hstart. unfold pairs_closed in Hstart.
  apply andb_prop in Hstart as [Hstart _]. apply pair_mem_spec in Hstart.
  apply (pairs_closed_spec _ _ _ _ Hok w (startDFA d1, startDFA d2) Hstart).
  split; [exact H1|exact H2].
Qed.

Lemma classes_disjoint_spec ps p q w :
  classes_disjoint ps = true → p ∈ ps → q ∈ ps → p.2 ≠ q.2 →
  ¬ (acceptsDFA p.1 w = true ∧ acceptsDFA q.1 w = true).
Proof.
  unfold classes_disjoint. rewrite forallb_forall. intros Hall Hp Hq Hne.
  specialize (Hall p). rewrite <- list_elem_of_In in Hall.
  specialize (Hall Hp). rewrite forallb_forall in Hall.
  specialize (Hall q). rewrite <- list_elem_of_In in Hall.
  specialize (Hall Hq). apply orb_prop in Hall as [Heq|Hdis].
  - by apply bool_decide_eq_true in Heq.
  - by apply dfa_disjoint_spec.
Qed.

(** The languages of the thirteen classes of chessNot.cpp's lexer are
    disjoint in pairs: a text has at most one class. *)
Lemma chess_classes_disjoint :
  ∃ lx, Chess.new_ChessLexer 100 = Some lx
    ∧ ∀ p q w, p ∈ chess_declared lx → q ∈ chess_declared lx → p.2 ≠ q.2 →
        ¬ (acceptsDFA p.1 w = true ∧ acceptsDFA q.1 w = true).
Proof.
  assert ((lx ← Chess.new_ChessLexer 100;
           Some (classes_disjoint (chess_declared lx))) = Some true) as Hcheck.
  { vm_compute. reflexivity. }
  apply bind_Some in Hcheck as (lx & Hlx & Hcheck). injection Hcheck as Hcheck.
  exists lx. split; [exact Hlx|]. intros p q w Hp Hq Hne.
  exact (classes_disjoint_spec _ p q w Hcheck Hp Hq Hne).
Qed.

Lemma chess_declared_patterns lx p :
  p ∈ chess_declared lx ↔ p ∈ chess_patterns lx.
Proof.
  unfold chess_declared, chess_patterns. split; intros Hp;
    repeat (apply elem_of_cons in Hp as [->|Hp];
            [repeat first [apply list_elem_of_here | apply list_elem_of_further]|]);
    by apply elem_of_nil in Hp.
Qed.

Lemma chess_declared_types lx :
  NoDup ((chess_declared lx).*2).
Proof.
  unfold chess_declared. cbn [fmap list_fmap snd].
  repeat (apply NoDup_cons; split;
          [intros Hin;
           repeat (apply elem_of_cons in Hin as [Hin|Hin]; [discriminate Hin|]);
           by apply elem_of_nil in Hin|]).
  apply NoDup_nil_2.
Qed.

(** The candidates of classes with different types have different types. *)
Lemma candidates_types input startPos (ps : list (DFA * Chess.ChessTokenType)) :
  NoDup (ps.*2) → NoDup ((omap (chess_candidate input startPos) ps).*1).
Proof.
  induction ps as [|p ps IH]; intros Hnd; [apply NoDup_nil_2|].
  cbn [fmap list_fmap] in Hnd. apply NoDup_cons in Hnd as [Hp Hnd].
  cbn [omap list_omap].
  destruct (chess_candidate input startPos p) as [c|] eqn:Hc; [|by apply IH].
  cbn [fmap list_fmap]. apply NoDup_cons. split; [|by apply IH].
  intros Hin. apply Hp.
  apply list_elem_of_fmap in Hin as (c' & Hty & Hin).
  apply list_elem_of_omap in Hin as (q & Hq & Hc').
  apply chess_candidate_nonempty in Hc as [Hc _].
  apply chess_candidate_nonempty in Hc' as [Hc' _].
  apply list_elem_of_fmap. exists q. split; [congruence|done].
Qed.

(** Two matches at the same position that are equally long are the same
    text. *)
Lemma slice_of_length input lo p v v' :
  slice_of input lo p v → slice_of input lo p v' →
  length v = length v' → v = v'.
Proof.
  intros (_ & _ & _ & Hv) (_ & _ & _ & Hv') Hlen.
  rewrite Hv, Hv'. by rewrite Hlen.
Qed.

(** C8.  In the notation lexer, at a position where some class matches, the
    token emitted is a candidate and every other candidate is strictly
    shorter: the thirteen languages are disjoint, so no two classes tie,
    and the token is in particular the first of the longest candidates in
    the order in which the DFAs are declared.  In the arithmetic lexer the
    classes cannot compete: when the identifier or the number DFA matches,
    the token emitted is that match; and ["identifier123"] is one
    IDENTIFIER token with the whole text. *)
Theorem longest_match_emitted :
  (∃ lx, Chess.new_ChessLexer 100 = Some lx
     ∧ ∀ input startPos,
         omap (chess_candidate input startPos) (chess_declared lx) ≠ [] →
         ∃ pre post,
           omap (chess_candidate input startPos) (chess_declared lx)
           = pre ++ (Chess.type (Chess.getNextToken lx input startPos),
                     Chess.value (Chess.getNextToken lx input startPos)) :: post
           ∧ (∀ c, c ∈ pre →
                length c.2
                < length (Chess.value (Chess.getNextToken lx input startPos)))
           ∧ (∀ c, c ∈ post →
                length c.2
                < length (Chess.value (Chess.getNextToken lx input startPos))))
  ∧ (∃ lx, Final.new_Lexer 64 = Some lx
       ∧ (∀ input startPos dfa ty,
            (dfa, ty) ∈ [(Final.identifierDFA lx, Final.IDENTIFIER);
                         (Final.numberDFA lx, Final.NUMBER)] →
            Final.type (Final.tryMatchDFA dfa input startPos ty) ≠ Final.INVALID →
            Final.getNextToken lx input startPos
            = Final.tryMatchDFA dfa input startPos ty)
       ∧ Final.tokenize 64 lx (str "identifier123")
         = Some [Final.mkToken Final.IDENTIFIER (str "identifier123") 0;
                 Final.mkToken Final.END_OF_INPUT [] 13]).
Proof.
  split.
  - destruct chess_classes_disjoint as (lx & Hlx & Hdisjoint).
    exists lx. split; [exact Hlx|]. clear Hlx. intros input startPos Hne.
    set (D := omap (chess_candidate input startPos) (chess_declared lx)) in *.
    assert (∀ c, c ∈ D ↔ c ∈ Chess.all_candidates lx input startPos) as HDC.
    { intros c. rewrite all_candidates_patterns. unfold D.
      rewrite !list_elem_of_omap. split; intros (p & Hp & Hc); exists p;
        (split; [by apply chess_declared_patterns|exact Hc]). }
    assert (Chess.all_candidates lx input startPos ≠ []) as Hne'.
    { destruct D as [|c D'] eqn:HD; [done|]. intros Hnil.
      assert (c ∈ Chess.all_candidates lx input startPos) as Hc
        by (apply HDC; apply list_elem_of_here).
      rewrite Hnil in Hc. by apply elem_of_nil in Hc. }
    destruct (tryMatchLongest_first_longest lx input startPos Hne')
      as (pre0 & post0 & Heq & Hpre0 & Hpost0).
    assert (Chess.getNextToken lx input startPos
            = Chess.tryMatchLongest lx input startPos) as ->.
    { unfold Chess.getNextToken. rewrite decide_True; [reflexivity|].
      destruct (all_candidates_nonempty lx input startPos
                  (Chess.type (Chess.tryMatchLongest lx input startPos),
                   Chess.value (Chess.tryMatchLongest lx input startPos)))
        as [Hty _]; [|exact Hty].
      rewrite Heq. apply elem_of_app. right. apply list_elem_of_here. }
    set (tok := Chess.tryMatchLongest lx input startPos) in *.
    assert ((Chess.type tok, Chess.value tok) ∈ D) as Htok.
    { apply HDC. rewrite Heq. apply elem_of_app. right. apply list_elem_of_here. }
    assert (∀ c, c ∈ D → c.1 ≠ Chess.type tok →
                 length c.2 < length (Chess.value tok)) as Hshort.
    { intros c Hc Hty.
      assert (length c.2 ≤ length (Chess.value tok)) as Hle.
      { apply HDC in Hc. rewrite Heq in Hc.
        apply elem_of_app in Hc as [Hc|Hc]; [apply Hpre0 in Hc; lia|].
        apply elem_of_cons in Hc as [->|Hc]; [simpl; lia|by apply Hpost0]. }
      destruct (decide (length c.2 = length (Chess.value tok))) as [Hlen|];
        [exfalso|lia].
      apply list_elem_of_omap in Hc as (q & Hq & Hcq).
      apply list_elem_of_omap in Htok as (p & Hp & Hcp).
      destruct (chess_candidate_slice _ _ _ _ Hcq) as [Hq1 Hq2].
      destruct (chess_candidate_slice _ _ _ _ Hcp) as [Hp1 Hp2].
      destruct (chess_candidate_accepted _ _ _ _ Hcq) as [_ Hqa].
      destruct (chess_candidate_accepted _ _ _ _ Hcp) as [_ Hpa].
      cbn [fst snd] in Hp1, Hp2, Hpa.
      assert (c.2 = Chess.value tok) as Htext
        by exact (slice_of_length _ _ _ _ _ Hq2 Hp2 Hlen).
      apply (Hdisjoint q p (Chess.value tok) Hq Hp).
      + rewrite <- Hq1, <- Hp1. exact Hty.
      + split; [by rewrite <- Htext|exact Hpa]. }
    apply list_elem_of_split in Htok as (pre & post & HD).
    pose proof (candidates_types input startPos (chess_declared lx)
                  (chess_declared_types lx)) as Hnd.
    fold D in Hnd. rewrite HD in Hnd. rewrite fmap_app, fmap_cons in Hnd.
    apply NoDup_app in Hnd as (_ & Hpre & Hpost).
    apply NoDup_cons in Hpost as [Hpost _]. cbn [fst] in Hpre, Hpost.
    exists pre, post. split; [exact HD|]. split.
    + intros c Hc. apply Hshort.
      * rewrite HD. apply elem_of_app. by left.
      * intros Hty. apply (Hpre c.1).
        -- apply list_elem_of_fmap. by exists c.
        -- rewrite Hty. apply list_elem_of_here.
    + intros c Hc. apply Hshort.
      * rewrite HD. apply elem_of_app. right. by apply list_elem_of_further.
      * intros Hty. apply Hpost. rewrite <- Hty.
        apply list_elem_of_fmap. by exists c.
  - assert ((lx ← Final.new_Lexer 64; Final.tokenize 64 lx (str "identifier123"))
            = Some [Final.mkToken Final.IDENTIFIER (str "identifier123") 0;
                    Final.mkToken Final.END_OF_INPUT [] 13]) as Hex.
    { vm_compute. reflexivity. }
    apply bind_Some in Hex as (lx & Hlx & Hex). exists lx.
    split; [exact Hlx|]. split.
    + intros input startPos dfa ty. apply final_getNextToken_match. exact Hlx.
    + exact Hex.
Qed.

Lemma longest_match_emitted_witness :
  (∃ lx, Chess.new_ChessLexer 100 = Some lx
     ∧ omap (chess_candidate (str "e8=Q") 0) (chess_declared lx)
       = [(Chess.PAWN_MOVE, str "e8"); (Chess.PROMOTION, str "e8=Q")]
     ∧ ∃ pre post,
         omap (chess_candidate (str "e8=Q") 0) (chess_declared lx)
         = pre ++ (Chess.type (Chess.getNextToken lx (str "e8=Q") 0),
                   Chess.value (Chess.getNextToken lx (str "e8=Q") 0)) :: post
         ∧ (∀ c, c ∈ pre →
              length c.2 < length (Chess.value (Chess.getNextToken lx (str "e8=Q") 0)))
         ∧ (∀ c, c ∈ post →
              length c.2 < length (Chess.value (Chess.getNextToken lx (str "e8=Q") 0))))
  ∧ (∃ lx, Final.new_Lexer 64 = Some lx
       ∧ Final.getNextToken lx (str "ab1+c") 0
         = Final.tryMatchDFA (Final.identifierDFA lx) (str "ab1+c") 0
             Final.IDENTIFIER).
Proof.
  split.
  - destruct (proj1 longest_match_emitted) as (lx & Hlx & Hlongest).
    exists lx. split; [exact Hlx|].
    assert ((lx ← Chess.new_ChessLexer 100;
             Some (omap (chess_candidate (str "e8=Q") 0) (chess_declared lx)))
            = Some [(Chess.PAWN_MOVE, str "e8"); (Chess.PROMOTION, str "e8=Q")])
      as Hcands.
    { vm_compute. reflexivity. }
    apply bind_Some in Hcands as (lx' & Hlx' & Hcands).
    assert (lx' = lx) as ->.
    { apply (inj Some). exact (eq_trans (eq_sym Hlx') Hlx). }
    clear Hlx Hlx'. apply (inj Some) in Hcands.
    split; [exact Hcands|].
    apply Hlongest. intros Hnil.
    discriminate (eq_trans (eq_sym Hnil) Hcands).
  - destruct (proj2 longest_match_emitted) as (lx & Hlx & Hmatch & _).
    exists lx. split; [exact Hlx|].
    apply Hmatch; [apply list_elem_of_here|].
    assert ((lx ← Final.new_Lexer 64;
             Some (Final.type (Final.tryMatchDFA (Final.identifierDFA lx)
                                 (str "ab1+c") 0 Final.IDENTIFIER)))
            = Some Final.IDENTIFIER) as Hty.
    { vm_compute. reflexivity. }
    apply bind_Some in Hty as (lx' & Hlx' & Hty).
    assert (lx' = lx) as ->.
    { apply (inj Some). exact (eq_trans (eq_sym Hlx') Hlx). }
    clear Hlx Hlx'. apply (inj Some) in Hty. intros Hinv.
    discriminate (eq_trans (eq_sym Hty) Hinv).
Defined.

(** * The alphabet *)

Lemma foldl_option_none {A B} (f : option A → B → option A) l :
  (∀ b, f None b = None) → foldl f None l = None.
Proof. intros Hf. induction l as [|b l IH]; [done|]. simpl. by rewrite Hf. Qed.

(** Every symbol [collectAlphabet] adds labels a transition of a state
    reachable from [s0], when the traversal starts in such a state. *)
Lemma collectAlphabet_sound h s0 fuel : ∀ state acc acc',
  reachable h s0 state →
  (∀ c, c ∈ acc.1 → labels_reachable h s0 c) →
  collectAlphabet fuel h state acc = Some acc' →
  ∀ c, c ∈ acc'.1 → labels_reachable h s0 c.
Proof.
  induction fuel as [|fuel IH]; intros state acc acc' Hreach Hacc Hrun; [done|].
  cbn [collectAlphabet] in Hrun.
  destruct (h !! state) as [st|] eqn:Hst; [|by injection Hrun as <-].
  case_decide; [by injection Hrun as <-|].
  assert (∀ (ts : list (ascii * list nat)) a a',
            (∀ c l, (c, l) ∈ ts → transitions st !! c = Some l) →
            (∀ c, c ∈ a.1 → labels_reachable h s0 c) →
            foldl (λ oacc (transition : ascii * list nat),
                     acc ← oacc;
                     foldl (λ oacc nextState,
                              acc ← oacc; collectAlphabet fuel h nextState acc)
                           (Some (note_symbol transition.1 acc.1, acc.2))
                           transition.2)
                  (Some a) ts = Some a' →
            ∀ c, c ∈ a'.1 → labels_reachable h s0 c) as Hts.
  { induction ts as [|[c l] ts IHts]; intros a a' Hkeys Ha Hfold.
    { by injection Hfold as <-. }
    cbn [foldl mbind option_bind fst snd] in Hfold.
    assert (∀ (children : list nat) b b',
              (∀ q, q ∈ children → reachable h s0 q) →
              (∀ x, x ∈ b.1 → labels_reachable h s0 x) →
              foldl (λ oacc nextState,
                       acc ← oacc; collectAlphabet fuel h nextState acc)
                    (Some b) children = Some b' →
              ∀ x, x ∈ b'.1 → labels_reachable h s0 x) as Hchildren.
    { induction children as [|q children IHc]; intros b b' Hqs Hb Hf.
      { by injection Hf as <-. }
      cbn [foldl mbind option_bind] in Hf.
      destruct (collectAlphabet fuel h q b) as [b1|] eqn:Hq.
      - apply (IHc b1 b'); [|by eapply (IH q b b1); [apply Hqs; left|..]|done].
        intros q' Hq'. apply Hqs. by right.
      - rewrite foldl_option_none in Hf by done. done. }
    destruct (foldl (λ oacc nextState,
                       acc ← oacc; collectAlphabet fuel h nextState acc)
                    (Some (note_symbol c a.1, a.2)) l) as [a1|] eqn:Hl.
    2:{ rewrite foldl_option_none in Hfold by done. done. }
    apply (IHts a1 a'); [|
      |done].
    - intros c' l' Hin. apply Hkeys. by right.
    - apply (Hchildren l (note_symbol c a.1, a.2) a1); [| |done].
      + intros q Hq. eapply reachable_step; [exact Hreach|].
        unfold targets. rewrite Hst.
        rewrite (Hkeys c l ltac:(by left)). exact Hq.
      + intros x Hx. cbn [fst] in Hx. unfold note_symbol in Hx.
        case_decide as Hc; [|by apply Ha].
        apply elem_of_union in Hx as [Hx|Hx]; [|by apply Ha].
        apply elem_of_singleton in Hx as ->. split; [done|].
        exists state, st. split; [done|]. split; [done|].
        by rewrite (Hkeys c l ltac:(by left)). }
  eapply Hts; [| |exact Hrun].
  - intros c l Hin. apply map_in_order_elem in Hin. exact Hin.
  - exact Hacc.
Qed.

(** X2.  [getAlphabet] returns the ordinary symbols of the part of the NFA that
    can be reached from the fragment's start: every character other than
    ['\0'] on which a reachable state has a successor is in the set, and
    every member of the set is such a character and a key of a reachable
    state's transitions. *)
Theorem getAlphabet_exact h fuel nfa :
  wf_heap h → start nfa < length h → length h < fuel →
  ∃ A, getAlphabet fuel h nfa = Some A
       ∧ (∀ q c r, reachable h (start nfa) q → r ∈ targets h q c →
                   c ≠ epsilon → c ∈ A)
       ∧ ∀ c, c ∈ A → labels_reachable h (start nfa) c.
Proof.
  intros Hwf Hstart Hfuel.
  destruct (getAlphabet_spec h fuel nfa Hwf Hstart Hfuel) as (A & HA & Hcomplete).
  exists A. split; [done|]. split; [done|].
  unfold getAlphabet in HA.
  destruct (collectAlphabet fuel h (start nfa) (∅, ∅)) as [acc|] eqn:Hrun;
    [|done].
  simpl in HA. injection HA as <-.
  apply (collectAlphabet_sound h (start nfa) fuel (start nfa) (∅, ∅) acc);
    [constructor| |done].
  intros c Hc. by apply not_elem_of_empty in Hc.
Qed.

(** * Instances *)

Lemma getAlphabet_exact_witness :
  wf_heap (states star_example.1)
  ∧ start (mkNFAPtr 2 3) < length (states star_example.1)
  ∧ length (states star_example.1) < 5
  ∧ ∃ A, getAlphabet 5 (states star_example.1) (mkNFAPtr 2 3) = Some A
         ∧ (∀ q c r, reachable (states star_example.1) (start (mkNFAPtr 2 3)) q →
                     r ∈ targets (states star_example.1) q c →
                     c ≠ epsilon → c ∈ A)
         ∧ ∀ c, c ∈ A →
                labels_reachable (states star_example.1) (start (mkNFAPtr 2 3)) c.
Proof.
  assert (wf_heap (states star_example.1)) as Hwf.
  { apply (Built_valid ChessNotCpp _ _ (mkNFAPtr 2 3) star_example_built).
    apply list_elem_of_here. }
  assert (start (mkNFAPtr 2 3) < length (states star_example.1)) as Hstart
    by (vm_compute; lia).
  assert (length (states star_example.1) < 5) as Hlen by (vm_compute; lia).
  split; [exact Hwf|]. split; [exact Hstart|]. split; [exact Hlen|].
  exact (getAlphabet_exact _ 5 (mkNFAPtr 2 3) Hwf Hstart Hlen).
Defined.

Lemma chess_tokenize_error_flag_witness :
  length (str "1. e4 ?") ≤ 7
  ∧ ∃ body err,
      Chess.tokenize 7 chess_lexer (str "1. e4 ?")
      = Some (body ++ [Chess.mkChessToken Chess.END_OF_INPUT []
                         (Z.of_nat (length (str "1. e4 ?")))], err)
      ∧ Forall (λ t, chess_slice (str "1. e4 ?") 0 t
                     ∧ Chess.type t ≠ Chess.INVALID
                     ∧ Chess.type t ≠ Chess.END_OF_INPUT) body
      ∧ (err = true ↔
         ∃ i, i < length (str "1. e4 ?")
              ∧ ¬ chess_covered body i
              ∧ isspace (default epsilon (str "1. e4 ?" !! i)) = false).
Proof.
  assert (length (str "1. e4 ?") ≤ 7) as Hlen by (vm_compute; lia).
  split; [exact Hlen|].
  exact (chess_tokenize_error_flag chess_lexer (str "1. e4 ?") 7 Hlen).
Defined.

Lemma analyzeInput_verdict_witness :
  Final.singleCharTokens symbols_lexer = Final.initializeSingleCharTokens
  ∧ 3 * length (str "(+)") + 5 ≤ 14
  ∧ ∃ body syntaxValid,
      Final.tokenize 14 symbols_lexer (str "(+)")
      = Some (body ++ [Final.mkToken Final.END_OF_INPUT []
                         (Z.of_nat (length (str "(+)")))])
      ∧ analyzeInput 14 symbols_lexer (str "(+)") = Some (true, syntaxValid)
      ∧ (syntaxValid = true ↔ statement (Final.type <$> body))
      ∧ (Final.INVALID ∈ (Final.type <$> body) → syntaxValid = false).
Proof.
  assert (3 * length (str "(+)") + 5 ≤ 14) as Hfuel by (vm_compute; lia).
  split; [reflexivity|]. split; [exact Hfuel|].
  exact (analyzeInput_verdict symbols_lexer (str "(+)") 14 eq_refl Hfuel).
Defined.

Lemma validateMoveSequence_end_branch_dead_witness :
  length (str "1. e4") ≤ 5
  ∧ ∃ tokens err,
      Chess.tokenize 5 chess_lexer (str "1. e4") = Some (tokens, err)
      ∧ Forall (λ o, end_of_input_line o = false)
               (Chess.validateMoveSequence tokens).2.
Proof.
  assert (length (str "1. e4") ≤ 5) as Hlen by (vm_compute; lia).
  split; [exact Hlen|].
  exact (validateMoveSequence_end_branch_dead chess_lexer (str "1. e4") 5 Hlen).
Defined.

Lemma opening_tokens_not_end :
  Forall (λ t, Chess.type t ≠ Chess.END_OF_INPUT) opening_tokens.
Proof. repeat constructor; discriminate. Qed.

Lemma validateMoveSequence_true_numbers_witness :
  Forall (λ t, Chess.type t ≠ Chess.END_OF_INPUT) opening_tokens
  ∧ (Chess.validateMoveSequence (opening_tokens ++ [opening_end])).1 = true
  ∧ ∀ pre t suf, opening_tokens = pre ++ t :: suf →
      (Chess.type t = Chess.MOVE_NUMBER →
       move_number t = Some (1 + Z.of_nat (count_move_numbers pre))%Z)
      ∧ (Chess.type t = Chess.RESULT → suf = []).
Proof.
  assert ((Chess.validateMoveSequence (opening_tokens ++ [opening_end])).1
          = true) as Hrun by (vm_compute; reflexivity).
  split; [exact opening_tokens_not_end|]. split; [exact Hrun|].
  exact (validateMoveSequence_true_numbers opening_tokens opening_end
           opening_tokens_not_end Hrun).
Defined.

Lemma opening_tokens_turns : turns 1 opening_tokens.
Proof.
  apply turns_cons.
  - reflexivity.
  - vm_compute. reflexivity.
  - reflexivity.
  - discriminate.
  - reflexivity.
  - discriminate.
  - apply turns_nil.
Qed.

Lemma validateMoveSequence_complete_game_witness :
  turns 1 opening_tokens
  ∧ ((@nil Chess.ChessToken) = []
     ∨ (∃ result, [] = [result] ∧ Chess.type result = Chess.RESULT))
  ∧ Chess.validateMoveSequence (opening_tokens ++ [] ++ [opening_end])
    = (true, [Chess.SuccessfullyParsed]).
Proof.
  split; [exact opening_tokens_turns|]. split; [left; reflexivity|].
  exact (validateMoveSequence_complete_game opening_tokens [] opening_end
           opening_tokens_turns (or_introl eq_refl)).
Defined.

Lemma validateMoveSyntax_separated_witness :
  length (str "1.e4 e5") ≤ 7
  ∧ (Z.of_nat (length (str "1.e4 e5")) < 2 ^ 31)%Z
  ∧ ∃ body last err ok out,
      Chess.tokenize 7 chess_lexer (str "1.e4 e5") = Some (body ++ [last], err)
      ∧ validateMoveSyntax (body ++ [last]) = Some (ok, out)
      ∧ (ok = true ↔ separated body).
Proof.
  assert (length (str "1.e4 e5") ≤ 7) as Hlen by (vm_compute; lia).
  assert (Z.of_nat (length (str "1.e4 e5")) < 2 ^ 31)%Z as Hsize
    by (vm_compute; reflexivity).
  split; [exact Hlen|]. split; [exact Hsize|].
  exact (validateMoveSyntax_separated chess_lexer (str "1.e4 e5") 7 Hlen Hsize).
Defined.

Lemma processInput_valid_witness :
  length (str "1. e4 e5") ≤ 8
  ∧ (Z.of_nat (length (str "1. e4 e5")) < 2 ^ 31)%Z
  ∧ ∃ body last d,
      Chess.tokenize 8 chess_lexer (str "1. e4 e5")
      = Some (body ++ [last], hadLexicalError d)
      ∧ processInput 8 chess_lexer (str "1. e4 e5") = Some d
      ∧ overallValid d = syntaxValid d && pdaValid d && negb (hadLexicalError d)
      ∧ (overallValid d = true →
         (∀ i, i < length (str "1. e4 e5") →
               chess_covered body i
               ∨ isspace (default epsilon (str "1. e4 e5" !! i)) = true)
         ∧ separated body
         ∧ ∀ pre t suf, body = pre ++ t :: suf →
             Chess.type t = Chess.MOVE_NUMBER →
             move_number t = Some (1 + Z.of_nat (count_move_numbers pre))%Z).
Proof.
  assert (length (str "1. e4 e5") ≤ 8) as Hlen by (vm_compute; lia).
  assert (Z.of_nat (length (str "1. e4 e5")) < 2 ^ 31)%Z as Hsize
    by (vm_compute; reflexivity).
  split; [exact Hlen|]. split; [exact Hsize|].
  exact (processInput_valid chess_lexer (str "1. e4 e5") 8 Hlen Hsize).
Defined.

(** * Leaf fragments of Final.cpp *)

(** The fragment [Final.createCharClassNFA] returns and the shape of its
    two states: neither is final. *)
Lemma final_class_shape b cls V :
  wf_builder b →
  Final.parseCharacterClass cls ∅ = Ok V →
  let s := length (states b) in
  let e := S (length (states b)) in
  ∃ b', Final.createCharClassNFA cls b = (b', Ok (mkNFAPtr s e))
    ∧ wf_heap (states b') ∧ length (states b') = S (S (length (states b)))
    ∧ (∀ c q, q ∈ targets (states b') s c ↔ q = e ∧ c ∈ V)
    ∧ (∀ c, targets (states b') e c = [])
    ∧ (∃ st, states b' !! s = Some st ∧ isFinal st = false)
    ∧ ∃ st, states b' !! e = Some st ∧ isFinal st = false.
Proof.
  intros Hwf Hparse s e.
  pose proof (createCharClassNFA_hoare FinalCpp [] cls b) as Hh.
  assert (okb [] b) as Hok.
  { split; [done|]. intros p Hp. by apply elem_of_nil in Hp. }
  specialize (Hh Hok). simpl in Hh.
  unfold Final.createCharClassNFA in *. unfold mbind, M_bind in *.
  unfold createState in *. simpl in *. unfold lift_outcome in *.
  rewrite Hparse in *. rewrite add_class_transitions_run in *. simpl in *.
  rewrite !length_app in *. simpl in *.
  replace (length (states b) + 1) with e in * by (unfold e; lia).
  fold s in Hh |- *.
  eexists. split; [reflexivity|]. destruct Hh as [[_ Hwf'] _].
  simpl in *. split; [exact Hwf'|].
  set (h0 := (states b ++ [mkState (stateCounter b) ∅ false])
               ++ [mkState (S (stateCounter b)) ∅ false]) in *.
  destruct (class_transitions_heap s e (chars_in_order V) h0)
    as (Hlen & Hother & Hs).
  assert (h0 !! s = Some (mkState (stateCounter b) ∅ false)) as Hs0.
  { unfold h0. rewrite lookup_app_l by (rewrite length_app; simpl; lia).
    rewrite lookup_app_r by done. by rewrite Nat.sub_diag. }
  assert (h0 !! e = Some (mkState (S (stateCounter b)) ∅ false)) as He0.
  { unfold h0. rewrite lookup_app_r by (rewrite length_app; simpl; lia).
    rewrite length_app. simpl. unfold e.
    by replace (S (length (states b)) - (length (states b) + 1)) with 0 by lia. }
  assert (s ≠ e) as Hse by (unfold s, e; lia).
  split.
  { rewrite Hlen. unfold h0. rewrite !length_app. simpl. lia. }
  destruct (Hs _ Hs0) as (st' & Hst' & Hfin & Htr).
  split; [|split; [|split]].
  - intros c q. unfold targets. rewrite Hst', Htr. simpl.
    rewrite lookup_empty. simpl.
    rewrite elem_of_nil, chars_in_order_elem. tauto.
  - intros c. unfold targets. rewrite Hother by done. rewrite He0. simpl.
    by rewrite lookup_empty.
  - exists st'. split; [done|]. by rewrite Hfin.
  - rewrite Hother by done. by eexists.
Qed.

(** X21.  Final.cpp's [createCharClassNFA] leaves the end state of a class
    unmarked, so the fragment of a class accepts no word by itself: no path
    from its start ends in a final state, and the simulation answers
    [false] on every word.  Acceptance comes only from the combinator that
    wraps the class. *)
Theorem final_class_accepts_nothing b cls V :
  wf_builder b →
  Final.parseCharacterClass cls ∅ = Ok V →
  ∃ b' f, Final.createCharClassNFA cls b = (b', Ok f)
    ∧ (∀ w, ¬ nfa_accepts b' f w)
    ∧ ∃ fuel0, ∀ fuel, fuel0 ≤ fuel →
        ∀ w, simulateNFA fuel b' f w = Some false.
Proof.
  intros Hwf Hparse.
  destruct (final_class_shape b cls V Hwf Hparse)
    as (b' & Hrun & Hwf' & Hlen & Hs & He & (sts & Hsts & Hsf) & (ste & Hste & Hef)).
  set (s := length (states b)) in *. set (e := S (length (states b))) in *.
  exists b', (mkNFAPtr s e). split; [exact Hrun|].
  assert (∀ p w r, nfa_path (states b') p w r → p = s ∨ p = e → r = s ∨ r = e)
    as Hpaths.
  { intros p w r Hpath.
    induction Hpath as [p|p q r w Hq _ IH|p c q r w _ Hq _ IH]; intros Hp;
      [done| |]; apply IH; destruct Hp as [-> | ->];
      first [ apply Hs in Hq as [-> _]; by right
            | rewrite He in Hq; by apply elem_of_nil in Hq ]. }
  assert (∀ w, ¬ nfa_accepts b' (mkNFAPtr s e) w) as Hnone.
  { intros w (r & st & Hpath & Hst & Hfin). simpl in Hpath.
    destruct (Hpaths s w r Hpath (or_introl eq_refl)) as [-> | ->].
    - assert (Some st = Some sts) as Heq by (rewrite <- Hst; exact Hsts).
      injection Heq as ->. rewrite Hsf in Hfin. discriminate Hfin.
    - assert (Some st = Some ste) as Heq by (rewrite <- Hst; exact Hste).
      injection Heq as ->. rewrite Hef in Hfin. discriminate Hfin. }
  split; [exact Hnone|].
  exists (length (states b')). intros fuel Hfuel w.
  unfold simulateNFA. simpl.
  assert (({[s]} : gset nat) ⊆ universe (length (states b'))) as Hsub.
  { intros q Hq. apply elem_of_singleton in Hq as ->.
    apply elem_of_universe. unfold s. lia. }
  destruct (epsilonClosure_total (states b') fuel {[s]} Hwf' Hsub Hfuel)
    as [K0 HK0].
  rewrite HK0. simpl.
  pose proof (epsilonClosure_reach _ _ _ _ HK0) as HK0spec.
  assert (K0 ⊆ universe (length (states b'))) as HK0u.
  { intros q Hq. apply elem_of_universe.
    apply HK0spec in Hq as (p & Hp & Hreach).
    apply elem_of_singleton in Hp as ->.
    assert (q = s ∨ q = e) as [-> | ->]; [|unfold s; lia|unfold e; lia].
    clear -Hreach Hs He.
    induction Hreach as [|x y _ IHx Hy]; [by left|].
    destruct IHx as [-> | ->].
    - apply Hs in Hy as [-> _]. by right.
    - rewrite He in Hy. by apply elem_of_nil in Hy. }
  destruct (simulate_run_paths (states b') fuel Hwf' Hfuel w K0 HK0u)
    as (T & HT & HTspec).
  { by apply (epsilonClosure_closed (states b') fuel {[s]}). }
  rewrite HT. simpl. f_equal.
  destruct (any_final (states b') T) eqn:Hany; [exfalso|done].
  apply any_final_spec in Hany as (r & st & Hr & Hst & Hfin).
  apply HTspec in Hr as (p & Hp & Hpath).
  apply HK0spec in Hp as (s0 & Hs0 & Hreach).
  apply elem_of_singleton in Hs0 as ->.
  apply (Hnone w). exists r, st. split; [|done].
  simpl. by eapply nfa_path_eps_reach.
Qed.

Lemma final_class_accepts_nothing_witness :
  wf_builder newBuilder
  ∧ Final.parseCharacterClass (str "[0-9]") ∅
    = Ok (list_to_set (str "0123456789"))
  ∧ ∃ b' f, Final.createCharClassNFA (str "[0-9]") newBuilder = (b', Ok f)
    ∧ (∀ w, ¬ nfa_accepts b' f w)
    ∧ ∃ fuel0, ∀ fuel, fuel0 ≤ fuel →
        ∀ w, simulateNFA fuel b' f w = Some false.
Proof.
  assert (wf_builder newBuilder) as Hwf.
  { split; [reflexivity|]. intros i st Hst. simpl in Hst.
    by rewrite lookup_nil in Hst. }
  assert (Final.parseCharacterClass (str "[0-9]") ∅
          = Ok (list_to_set (str "0123456789"))) as Hparse.
  { vm_compute. reflexivity. }
  split; [exact Hwf|]. split; [exact Hparse|].
  exact (final_class_accepts_nothing newBuilder (str "[0-9]") _ Hwf Hparse).
Defined.
